(** * Contract source viewer: batch fetch and graph pipeline

  A shallow embedding of the automation core of the repository
  (contract list loader, ABI extractor, batch fetcher, code graph builder,
  communication graph builder) together with the properties its
  specification states about it.

  Conventions of the embedding.
  - A JavaScript string is a [string]: a sequence of code units below 256
    (the Latin-1 range).  Addresses, chain names and ABI identifiers are
    ASCII in practice.
  - A [Set<string>] that is only queried with [has] is a [gset]; a [Set]
    or [Map] that the code iterates over keeps its insertion order and is
    a duplicate-free list or an association list.
  - An exception is an explicit result: [Ok]/[Err] for synchronous code,
    [Return]/[Throw] for the asynchronous fetcher, which also threads the
    state of the outside world (network calls made, observable events).
  - Loop counters are [nat]; numeric options read from the command line
    are [Z]. *)

From Stdlib Require Import String Ascii List ZArith NArith Lia Bool.
From stdpp Require Import base decidable option list strings gmap sorting.
Import ListNotations.

Set Default Proof Using "Type".

(** ** JavaScript string primitives *)
Module JS.

(** [String.prototype.toLowerCase], one code unit at a time: A-Z and the
    Latin-1 capitals (all of 192..222 but the multiplication sign). *)
Definition toLowerCase_char (c : ascii) : ascii :=
  let n := N_of_ascii c in
  if ((65 <=? n) && (n <=? 90) ||
      (192 <=? n) && (n <=? 222) && negb (n =? 215))%N
  then ascii_of_N (n + 32) else c.

Fixpoint toLowerCase (s : string) : string :=
  match s with
  | EmptyString => EmptyString
  | String c t => String (toLowerCase_char c) (toLowerCase t)
  end.

(** White space as [trim] sees it: TAB, LF, VT, FF, CR, SP, NBSP. *)
Definition isWhiteSpace (c : ascii) : bool :=
  let n := N_of_ascii c in
  ((9 <=? n) && (n <=? 13) || (n =? 32) || (n =? 160))%N.

Fixpoint trimStart (s : string) : string :=
  match s with
  | String c t => if isWhiteSpace c then trimStart t else s
  | EmptyString => EmptyString
  end.

Definition trim (s : string) : string :=
  String.rev (trimStart (String.rev (trimStart s))).

Definition startsWith (s p : string) : bool := String.prefix p s.

(** [s.includes(needle)]: [needle] occurs as a contiguous substring. *)
Fixpoint includes (s needle : string) : bool :=
  String.prefix needle s ||
  match s with
  | String _ t => includes t needle
  | EmptyString => false
  end.

(** [l.join(sep)] *)
Fixpoint join (sep : string) (l : list string) : string :=
  match l with
  | [] => ""
  | [x] => x
  | x :: rest => x +:+ sep +:+ join sep rest
  end.

(** [s.split(c)] for a one-character separator. *)
Fixpoint split_go (sep : ascii) (cur : string) (s : string) : list string :=
  match s with
  | EmptyString => [String.rev cur]
  | String c t =>
      if Ascii.eqb c sep then String.rev cur :: split_go sep EmptyString t
      else split_go sep (String c cur) t
  end.
Definition split (sep : ascii) (s : string) : list string :=
  split_go sep EmptyString s.

(** Truthiness of an optional string: [undefined] and [''] are falsy. *)
Definition truthy (o : option string) : bool :=
  match o with
  | Some (String _ _) => true
  | _ => false
  end.

(** [o || d] on an optional string. *)
Definition orElse (o : option string) (d : string) : string :=
  match o with
  | Some (String c t) => String c t
  | _ => d
  end.

Definition isHexDigit (c : ascii) : bool :=
  let n := N_of_ascii c in
  ((48 <=? n) && (n <=? 57) || (97 <=? n) && (n <=? 102) ||
   (65 <=? n) && (n <=? 70))%N.

Fixpoint allHex (s : string) : bool :=
  match s with
  | EmptyString => true
  | String c t => isHexDigit c && allHex t
  end.

(** A match of [/0x[a-fA-F0-9]{40}/] at the start of [s]. *)
Definition matchAddressAt (s : string) : option string :=
  match s with
  | String "0" (String "x" rest) =>
      let digits := String.substring 0 40 rest in
      if Nat.eqb (String.length digits) 40 && allHex digits
      then Some (String "0" (String "x" digits)) else None
  | _ => None
  end.

(** The matches of the global pattern [/0x[a-fA-F0-9]{40}/g], left to
    right; the search resumes after the 42 characters of a match ([skip]
    counts the characters of the last match still to pass). *)
Fixpoint scanAddresses_from (skip : nat) (s : string) : list string :=
  match s with
  | EmptyString => []
  | String c t =>
      match skip with
      | S k => scanAddresses_from k t
      | O =>
          match matchAddressAt s with
          | Some a => a :: scanAddresses_from 41 t
          | None => scanAddresses_from 0 t
          end
      end
  end.

Definition scanAddresses (s : string) : list string := scanAddresses_from 0 s.

(** [s.endsWith(suffix)] *)
Definition endsWith (s suffix : string) : bool :=
  String.prefix (String.rev suffix) (String.rev s).

(** Insertion-ordered containers. [setAdd] is [Set.prototype.add];
    [mapSet] is [Map.prototype.set]: an existing key keeps its place. *)
Definition setAdd (x : string) (s : list string) : list string :=
  if bool_decide (x ∈ s) then s else s ++ [x].

(** [[...new Set(l)]]: first occurrences, in order. *)
Definition dedup (l : list string) : list string :=
  fold_left (fun acc x => setAdd x acc) l [].

Fixpoint mapSet {V} (k : string) (v : V) (m : list (string * V))
  : list (string * V) :=
  match m with
  | [] => [(k, v)]
  | (k', v') :: rest =>
      if String.eqb k' k then (k, v) :: rest else (k', v') :: mapSet k v rest
  end.

Fixpoint mapGet {V} (k : string) (m : list (string * V)) : option V :=
  match m with
  | [] => None
  | (k', v') :: rest => if String.eqb k' k then Some v' else mapGet k rest
  end.

Definition mapHas {V} (k : string) (m : list (string * V)) : bool :=
  match mapGet k m with Some _ => true | None => false end.

(** [l.slice(start, end)] with JavaScript's treatment of negative and
    out-of-range bounds. *)
Definition clampIndex (len i : Z) : Z :=
  if (i <? 0)%Z then Z.max (len + i) 0 else Z.min i len.

Definition slice {A} (l : list A) (start stop : Z) : list A :=
  let len := Z.of_nat (length l) in
  let k := clampIndex len start in
  let final := clampIndex len stop in
  take (Z.to_nat (final - k)) (drop (Z.to_nat k) l).

End JS.

(** ** Data model (automation/types.ts) *)

(** Synchronous code that may throw an [Error] with a message. *)
Inductive Result (A : Type) : Type :=
| Ok (a : A)
| Err (message : string).
Arguments Ok {A} a.
Arguments Err {A} message.

Module ContractEntry.
Record t := mk {
  address : string;
  blockchain : string;
  contract_name : string;
  protocol : string
}.
Global Instance eq_dec : EqDecision t.
Proof. solve_decision. Defined.
End ContractEntry.

(** [CHAIN_ID_MAP]: the entries of the object literal, blockchain name to
    explorer chain id. *)
Definition CHAIN_ID_MAP : gmap string string :=
  list_to_map
    [("ethereum", "1"); ("bnb", "56"); ("bsc", "56"); ("polygon", "137");
     ("arbitrum", "42161"); ("optimism", "10"); ("base", "8453");
     ("avalanche", "43114"); ("fantom", "250"); ("abstract", "2741")].

(** The table is a plain object: beside its own entries, a lookup finds
    what every object inherits from [Object.prototype], a function under
    eleven names and the prototype itself under __proto__. *)
Definition inheritedNames : list string :=
  ["constructor"; "__defineGetter__"; "__defineSetter__"; "hasOwnProperty";
   "__lookupGetter__"; "__lookupSetter__"; "isPrototypeOf";
   "propertyIsEnumerable"; "toString"; "valueOf"; "__proto__";
   "toLocaleString"].

(** What a lookup in the table yields: a chain id of the table, or the
    value inherited under a name. *)
Inductive ChainId :=
| ownId (id : string)
| inherited (name : string).

Global Instance ChainId_eq_dec : EqDecision ChainId.
Proof. solve_decision. Defined.

(** [CHAIN_ID_MAP[name]]; [None] is [undefined].  Every value found is
    truthy: no chain id of the table is empty, and an inherited value is a
    function or an object. *)
Definition lookupChain (name : string) : option ChainId :=
  match CHAIN_ID_MAP !! name with
  | Some id => Some (ownId id)
  | None =>
      if bool_decide (name ∈ inheritedNames) then Some (inherited name)
      else None
  end.

Definition truthyChain (value : option ChainId) : bool :=
  match value with
  | Some _ => true
  | None => false
  end.

(** The text of a value of the table inside a template literal: a chain id
    as it is; an inherited function as the engine prints a built-in, under
    its own name ([Object] for constructor); the prototype as any plain
    object. *)
Definition chainIdText (chainId : ChainId) : string :=
  match chainId with
  | ownId id => id
  | inherited name =>
      if String.eqb name "__proto__" then "[object Object]"
      else "function " +:+
           (if String.eqb name "constructor" then "Object" else name) +:+
           "() { [native code] }"
  end.

(** ** Contract list loader (automation/contractListLoader.ts) *)
Module Loader.
Import JS ContractEntry.

(** One record of a parsed input file; any field may be absent. *)
Record RawEntry := mkRaw {
  raw_address : option string;
  raw_blockchain : option string;
  raw_contract_name : option string;
  raw_protocol : option string
}.

Definition normalizeContractEntry (entry : RawEntry) : ContractEntry.t :=
  {| address := orElse (trim <$> (toLowerCase <$> raw_address entry)) "";
     blockchain := orElse (trim <$> (toLowerCase <$> raw_blockchain entry)) "";
     contract_name := orElse (trim <$> raw_contract_name entry) "Unknown";
     protocol := orElse (trim <$> raw_protocol entry) "Unknown" |}.

(** [/^0x[a-f0-9]{40}$/i.test(s)] *)
Definition addressPattern_test (s : string) : bool :=
  match s with
  | String "0" (String x digits) =>
      (Ascii.eqb x "x" || Ascii.eqb x "X") &&
      Nat.eqb (String.length digits) 40 && allHex digits
  | _ => false
  end.

Definition isValidContractEntry (entry : ContractEntry.t) : bool :=
  if negb (truthy (Some (address entry))) ||
     negb (addressPattern_test (address entry))
  then false
  else if negb (truthy (Some (blockchain entry))) ||
          negb (truthyChain (lookupChain (blockchain entry)))
  then false
  else true.

Section Files.
(** The file system and the JSON decoder are collaborators: reading a
    path yields its text or fails, decoding a text yields the array of
    records or fails (the failure covers every exception the mapping
    over a value that is not an array of records would raise). *)
Variable path_resolve : string -> string.
Variable readFileSync : string -> Result string.
Variable JSON_parse : string -> Result (list RawEntry).

Definition loadError (filePath message : string) : string :=
  "Failed to load contracts from " +:+ filePath +:+ ": " +:+ message.

Definition loadContractsFromFile (filePath : string)
  : Result (list ContractEntry.t) :=
  match readFileSync (path_resolve filePath) with
  | Err m => Err (loadError filePath m)
  | Ok content =>
      match JSON_parse content with
      | Err m => Err (loadError filePath m)
      | Ok contracts =>
          Ok (filter (fun e => isValidContractEntry e = true)
                     (map normalizeContractEntry contracts))
      end
  end.

(** The loop of [loadContractsFromFiles]: an exception of
    [loadContractsFromFile] is not caught and leaves the loop. *)
Fixpoint loadContractsFromFiles_loop (allContracts : list ContractEntry.t)
    (filePaths : list string) : Result (list ContractEntry.t) :=
  match filePaths with
  | [] => Ok allContracts
  | filePath :: rest =>
      match loadContractsFromFile filePath with
      | Err m => Err m
      | Ok contracts =>
          loadContractsFromFiles_loop (allContracts ++ contracts) rest
      end
  end.

Definition loadContractsFromFiles (filePaths : list string)
  : Result (list ContractEntry.t) :=
  loadContractsFromFiles_loop [] filePaths.

(** The loading loop of [runAutomation] (cli.ts): each file is loaded
    inside its own try/catch, a failure is reported and skipped. *)
Fixpoint runAutomation_load (contracts : list ContractEntry.t)
    (inputFiles : list string) : list ContractEntry.t :=
  match inputFiles with
  | [] => contracts
  | file :: rest =>
      match loadContractsFromFile file with
      | Ok loaded => runAutomation_load (contracts ++ loaded) rest
      | Err _ => runAutomation_load contracts rest
      end
  end.

(** What a loader that isolates file errors returns: the entries of
    every file that loads, in order. *)
Definition entriesOfLoadable (filePaths : list string)
  : list ContractEntry.t :=
  concat (map (fun f => match loadContractsFromFile f with
                        | Ok cs => cs
                        | Err _ => []
                        end) filePaths).
End Files.

(** The dedup key of [removeDuplicates]: the template string
    [`${blockchain}:${address}`]. *)
Definition entryKey (contract : ContractEntry.t) : string :=
  blockchain contract +:+ ":" +:+ address contract.

Fixpoint removeDuplicates_loop (contracts : list ContractEntry.t)
    (seen : gset string) (unique : list ContractEntry.t)
  : list ContractEntry.t :=
  match contracts with
  | [] => unique
  | contract :: rest =>
      let key := entryKey contract in
      if bool_decide (key ∈ seen)
      then removeDuplicates_loop rest seen unique
      else removeDuplicates_loop rest ({[key]} ∪ seen) (unique ++ [contract])
  end.

Definition removeDuplicates (contracts : list ContractEntry.t)
  : list ContractEntry.t :=
  removeDuplicates_loop contracts ∅ [].

(** First occurrences: an entry is kept when its key is neither in [seen]
    nor carried by an earlier entry. *)
Fixpoint firstOccurrences (seen : gset string) (cs : list ContractEntry.t)
  : list ContractEntry.t :=
  match cs with
  | [] => []
  | c :: rest =>
      if bool_decide (entryKey c ∈ seen) then firstOccurrences seen rest
      else c :: firstOccurrences ({[entryKey c]} ∪ seen) rest
  end.

(** The identity of an entry in the data model. *)
Definition pairKey (c : ContractEntry.t) : string * string :=
  (blockchain c, address c).

Definition hasKey (k : string) (c : ContractEntry.t) : bool :=
  bool_decide (entryKey c = k).
Definition hasPair (p : string * string) (c : ContractEntry.t) : bool :=
  bool_decide (pairKey c = p).

Definition colonFree (s : string) : bool := negb (includes s ":").

(** An entry of the data model: its address is the chain marker 0x and 40
    hexadecimal digits. *)
Definition wellFormedAddress (c : ContractEntry.t) : Prop :=
  addressPattern_test (address c) = true.

(** The property as the specification words it, over the
    (blockchain, address) pair. *)
Definition dedupByPair (contracts out : list ContractEntry.t) : Prop :=
  length out <= length contracts /\
  NoDup (pairKey <$> out) /\
  (forall p, find (hasPair p) out = find (hasPair p) contracts) /\
  sublist out contracts.

(** Two files, the first of which cannot be read. *)
Module Demo.
Definition token : RawEntry :=
  mkRaw (Some "0x1234567890123456789012345678901234567890")
        (Some "Ethereum") (Some " Token ") None.
Definition readFileSync (p : string) : Result string :=
  if String.eqb p "good.json" then Ok "[token]"
  else Err "ENOENT: no such file or directory".
Definition JSON_parse (text : string) : Result (list RawEntry) :=
  if String.eqb text "[token]" then Ok [token]
  else Err "Unexpected token".
Definition loaded : ContractEntry.t :=
  ContractEntry.mk "0x1234567890123456789012345678901234567890"
                   "ethereum" "Token" "Unknown".
Definition ab_c := ContractEntry.mk "c" "a:b" "First" "p".
Definition a_bc := ContractEntry.mk "b:c" "a" "Second" "p".
(** The same address under a chain name that carries a colon, twice, and
    another address under that name. *)
Definition onEip : ContractEntry.t :=
  ContractEntry.mk "0x1234567890123456789012345678901234567890"
                   "eip155:1" "Token" "first".
Definition onEipAgain : ContractEntry.t :=
  ContractEntry.mk "0x1234567890123456789012345678901234567890"
                   "eip155:1" "Token" "second".
Definition otherOnEip : ContractEntry.t :=
  ContractEntry.mk "0x0987654321098765432109876543210987654321"
                   "eip155:1" "Other" "first".
End Demo.

End Loader.

(** ** ABI items and fetched contracts (automation/types.ts) *)

Inductive ABIItemType :=
| type_function | type_event | type_constructor
| type_fallback | type_receive | type_error.

Global Instance ABIItemType_eq_dec : EqDecision ABIItemType.
Proof. solve_decision. Defined.

Inductive StateMutability := pure | view | nonpayable | payable.

Global Instance StateMutability_eq_dec : EqDecision StateMutability.
Proof. solve_decision. Defined.

(** A parameter; a tuple parameter nests its components. *)
Local Unset Elimination Schemes.
Inductive ABIParameter :=
| mkABIParameter (name type : string) (indexed : option bool)
    (components : option (list ABIParameter)) (internalType : option string).
Local Set Elimination Schemes.

Module ABIItem.
Record t := mk {
  type : ABIItemType;
  name : option string;
  inputs : option (list ABIParameter);
  outputs : option (list ABIParameter);
  stateMutability : option StateMutability;
  anonymous : option bool
}.
(** An item that only carries a type and a name. *)
Definition named (ty : ABIItemType) (n : string) : t :=
  mk ty (Some n) None None None None.
End ABIItem.

Module SourceFile.
Record t := mk { filename : string; content : string }.
End SourceFile.

Module FetchedContract.
Record t := mk {
  address : string;
  blockchain : string;
  chainId : ChainId;
  contractName : string;
  protocol : string;
  sourceCode : string;
  abi : option (list ABIItem.t);
  fetchedAt : string;
  sources : list SourceFile.t;
  compilerVersion : option string;
  optimizationUsed : option bool;
  runs : option Z
}.
(** The address under which both graph builders index a contract. *)
Definition key (c : t) : string := JS.toLowerCase (address c).
(** [contract.sources.map(s => s.content).join('\n')] *)
Definition joinedSource (c : t) : string :=
  JS.join (String "010" "") (SourceFile.content <$> sources c).
End FetchedContract.

(** ** ABI extractor (automation/abiExtractor.ts) *)
Module Extractor.
Import JS.

(** [new Set(abi.filter(item => item.type === 'function').map(item => item.name))] *)
Definition functionNames (abi : list ABIItem.t) : gset (option string) :=
  list_to_set
    (ABIItem.name <$> filter (fun item => ABIItem.type item = type_function) abi).

(** [requiredFunctions.every(fn => functionNames.has(fn))] *)
Definition hasAll (required : list string) (names : gset (option string)) : bool :=
  forallb (fun fn => bool_decide (Some fn ∈ names)) required.

Definition ERC20_requiredFunctions : list string :=
  ["name"; "symbol"; "decimals"; "totalSupply"; "balanceOf"; "transfer";
   "approve"; "allowance"; "transferFrom"].

Definition isERC20 (abi : list ABIItem.t) : bool :=
  hasAll ERC20_requiredFunctions (functionNames abi).

Definition ERC721_requiredFunctions : list string :=
  ["balanceOf"; "ownerOf"; "safeTransferFrom"; "transferFrom"; "approve";
   "getApproved"; "setApprovalForAll"; "isApprovedForAll"].

Definition isERC721 (abi : list ABIItem.t) : bool :=
  hasAll ERC721_requiredFunctions (functionNames abi).

Definition ERC1155_requiredFunctions : list string :=
  ["balanceOf"; "balanceOfBatch"; "setApprovalForAll"; "isApprovedForAll";
   "safeTransferFrom"; "safeBatchTransferFrom"].

Definition isERC1155 (abi : list ABIItem.t) : bool :=
  hasAll ERC1155_requiredFunctions (functionNames abi).

(** [new Set(abi.filter(...).map(item => item.name?.toLowerCase()))] *)
Definition lowerFunctionNames (abi : list ABIItem.t) : gset (option string) :=
  list_to_set
    ((fun item => toLowerCase <$> ABIItem.name item) <$>
     filter (fun item => ABIItem.type item = type_function) abi).

Definition has (names : gset (option string)) (fn : string) : bool :=
  bool_decide (Some fn ∈ names).

Definition detectProxyPattern (abi : list ABIItem.t) : bool :=
  let proxyIndicators :=
    ["implementation"; "upgradeTo"; "upgradeToAndCall"; "_implementation"] in
  existsb (has (lowerFunctionNames abi)) proxyIndicators.

(** What detection can see of an item: its type and its name. *)
Definition typeAndName (item : ABIItem.t) : ABIItemType * option string :=
  (ABIItem.type item, ABIItem.name item).

(** The ABI without the functions called [fn]. *)
Definition withoutFunction (fn : string) (abi : list ABIItem.t) : list ABIItem.t :=
  filter (fun item => ~ (ABIItem.type item = type_function /\
                         ABIItem.name item = Some fn)) abi.

(** The function names of the ABI include every name in [required]. *)
Definition declaresAll (required : list string) (abi : list ABIItem.t) : Prop :=
  forall fn, fn ∈ required ->
    exists item, item ∈ abi /\ ABIItem.type item = type_function /\
                 ABIItem.name item = Some fn.

(** The ABI of the repository's ERC20 test. *)
Definition erc20Abi : list ABIItem.t :=
  ABIItem.named type_function <$> ERC20_requiredFunctions.

End Extractor.

(** ** Communication graph builder (automation/communicationGraphBuilder.ts) *)

Module Role.
Inductive t :=
| token | dex | lending | vault | governance | oracle | bridge | router
| factory | proxy | multisig | unknown.
Global Instance eq_dec : EqDecision t.
Proof. solve_decision. Defined.
End Role.

Module Pattern.
Inductive t :=
| token_transfer | token_approval | swap | liquidity | stake | governance
| oracle | bridge | lending | nft_mint | callback | flash_loan | generic_call.
Global Instance eq_dec : EqDecision t.
Proof. solve_decision. Defined.
End Pattern.

Module Roles.
Import JS Extractor.

Definition hasERC20Functions (functions : gset (option string)) : bool :=
  has functions "transfer" && has functions "approve" &&
  has functions "balanceof".

Definition hasDEXFunctions (functions : gset (option string)) : bool :=
  has functions "swap" || has functions "swapexacttokensfortokens" ||
  has functions "addliquidity" || has functions "removeliquidity".

Definition hasLendingFunctions (functions : gset (option string)) : bool :=
  has functions "borrow" || has functions "repay" ||
  has functions "liquidate" ||
  (has functions "supply" && has functions "withdraw").

Definition hasGovernanceFunctions (functions : gset (option string)) : bool :=
  has functions "propose" || has functions "castvote" ||
  has functions "queue" || has functions "execute".

Definition detectContractRole (contract : FetchedContract.t) : Role.t :=
  let abi := default [] (FetchedContract.abi contract) in
  let name := toLowerCase (FetchedContract.contractName contract) in
  let functionNames := lowerFunctionNames abi in
  if hasERC20Functions functionNames || includes name "token"
  then Role.token
  else if hasDEXFunctions functionNames || includes name "swap" ||
          includes name "router"
  then Role.dex
  else if includes name "router"
  then Role.router
  else if has functionNames "createpair" || has functionNames "createpool" ||
          includes name "factory"
  then Role.factory
  else if hasLendingFunctions functionNames || includes name "lend" ||
          includes name "borrow"
  then Role.lending
  else if has functionNames "deposit" && has functionNames "withdraw" &&
          includes name "vault"
  then Role.vault
  else if hasGovernanceFunctions functionNames ||
          includes name "governance" || includes name "governor"
  then Role.governance
  else if has functionNames "latestanswer" || has functionNames "getprice" ||
          includes name "oracle"
  then Role.oracle
  else if includes name "bridge" || has functionNames "sendmessage" ||
          has functionNames "receivemessage"
  then Role.bridge
  else if has functionNames "implementation" || has functionNames "upgradeto"
  then Role.proxy
  else if has functionNames "submittransaction" ||
          has functionNames "confirmtransaction" || includes name "multisig"
  then Role.multisig
  else Role.unknown.

(** The decision list of the specification: the roles in their order of
    priority, each with the test that selects it, over the set of
    lowercased function names and the lowercased contract name. *)
Definition Rule : Type := Role.t * (gset (option string) -> string -> bool).

Definition roleRules : list Rule :=
  [ (Role.token, fun fns name => hasERC20Functions fns || includes name "token");
    (Role.dex, fun fns name =>
       hasDEXFunctions fns || includes name "swap" || includes name "router");
    (Role.router, fun fns name => includes name "router");
    (Role.factory, fun fns name =>
       has fns "createpair" || has fns "createpool" || includes name "factory");
    (Role.lending, fun fns name =>
       hasLendingFunctions fns || includes name "lend" || includes name "borrow");
    (Role.vault, fun fns name =>
       has fns "deposit" && has fns "withdraw" && includes name "vault");
    (Role.governance, fun fns name =>
       hasGovernanceFunctions fns || includes name "governance" ||
       includes name "governor");
    (Role.oracle, fun fns name =>
       has fns "latestanswer" || has fns "getprice" || includes name "oracle");
    (Role.bridge, fun fns name =>
       includes name "bridge" || has fns "sendmessage" ||
       has fns "receivemessage");
    (Role.proxy, fun fns name => has fns "implementation" || has fns "upgradeto");
    (Role.multisig, fun fns name =>
       has fns "submittransaction" || has fns "confirmtransaction" ||
       includes name "multisig") ].

(** Top to bottom, the first rule whose test holds; [unknown] when none. *)
Fixpoint firstMatch (rules : list Rule) (fns : gset (option string))
    (name : string) : Role.t :=
  match rules with
  | [] => Role.unknown
  | (role, test) :: rest =>
      if test fns name then role else firstMatch rest fns name
  end.

(** A contract with nothing but an address, a name and an ABI. *)
Definition contractOf (address name : string) (abi : option (list ABIItem.t))
    (source : string) : FetchedContract.t :=
  FetchedContract.mk address "ethereum" (ownId "1") name "test" "" abi ""
    [SourceFile.mk "Contract.sol" source] None None None.

End Roles.

(** ** Batch contract fetcher (automation/batchContractFetcher.ts) *)
Module Fetcher.
Import JS.

Record FetchOptions := mkFetchOptions {
  batchSize : Z;
  delayBetweenRequests : Z;
  delayBetweenBatches : Z;
  maxRetries : Z;
  resumeFromIndex : option Z;
  outputDir : string;
  saveProgress : bool
}.

Definition DEFAULT_FETCH_OPTIONS : FetchOptions :=
  mkFetchOptions 10 200 2000 3 None "./contract_data" true.

Record ProcessingStatus := mkProcessingStatus {
  totalContracts : Z;
  processedContracts : Z;
  failedContracts : list string;
  lastProcessedIndex : Z;
  startedAt : string;
  lastUpdatedAt : string
}.

(** Modelled from the spec: the body the remote fetch collaborator answers
    with (its declaration, in contractService, is not among the sources): a
    status flag, a message and a result payload. *)
Record ContractSourceResponse := mkResponse {
  status : string;
  message : option string;
  result : option string
}.

(** What one [axios.get] comes to: it rejects with an error, or resolves
    with a response body. *)
Inductive AxiosResult :=
| Rejected (errorMessage : string)
| Resolved (data : ContractSourceResponse).

(** A number handed to [setTimeout].  The options are integers that a
    double holds exactly; a product can leave the range of the doubles. *)
Inductive JSNumber :=
| Num (z : Z)
| PosInfinity
| NegInfinity
| NaN.
Coercion Num : Z >-> JSNumber.

(** [base * Math.pow(2, attempt)] for an attempt that is not negative.
    The power is exact up to 2^1023 and [Infinity] from 2^1024 on; the
    product of an integer double and an exact power of two is exact unless
    it leaves the range, and then it is infinite. *)
Definition backoffDelay (base attempt : Z) : JSNumber :=
  if (attempt <? 1024)%Z then
    let product := (base * 2 ^ attempt)%Z in
    if (2 ^ 1024 <=? product)%Z then PosInfinity
    else if (product <=? - 2 ^ 1024)%Z then NegInfinity
    else Num product
  else if (0 <? base)%Z then PosInfinity
  else if (base <? 0)%Z then NegInfinity
  else NaN.

(** What the fetcher does that can be observed from outside. *)
Inductive Event :=
| EvProgress (contract : ContractEntry.t)
| EvRequest (url : string)
| EvDelay (ms : JSNumber)
| EvFetched (globalIndex : Z) (contract : ContractEntry.t)
| EvFailed (globalIndex : Z) (contract : ContractEntry.t) (errorMsg : string)
| EvSaved (status : ProcessingStatus) (count : nat).

(** The outside world: how many requests were sent, what was observed so
    far, and the content of fetched_contracts.json when it can be read. *)
Record World := mkWorld {
  requests : nat;
  events : list Event;
  savedContracts : option (list FetchedContract.t)
}.

Definition emit (e : Event) (w : World) : World :=
  mkWorld (requests w) (events w ++ [e]) (savedContracts w).

(** One more request was sent to [url]. *)
Definition sent (url : string) (w : World) : World :=
  mkWorld (S (requests w)) (events w ++ [EvRequest url]) (savedContracts w).

(** [await this.delay(ms)] *)
Definition delay (ms : JSNumber) (w : World) : World := emit (EvDelay ms) w.
Arguments EvDelay ms%_Z.
Arguments delay ms%_Z w.

(** What an asynchronous call settles to: a value, or a thrown value that
    is an [Error] with its message or [null]. *)
Inductive outcome (A : Type) :=
| Return (a : A)
| Throw (error : option string).
Arguments Return {A} a.
Arguments Throw {A} error.

Definition entryOf (f : FetchedContract.t) : ContractEntry.t :=
  ContractEntry.mk (FetchedContract.address f) (FetchedContract.blockchain f)
    (FetchedContract.contractName f) (FetchedContract.protocol f).

Definition srcapi (chainId : ChainId) (address : string) : string :=
  "https://vscode.blockscan.com/srcapi/" +:+ chainIdText chainId +:+ "/"
    +:+ address.

(** The message of the error [fetchContract] raises on a response, if any. *)
Definition responseError (r : AxiosResult) : option string :=
  match r with
  | Rejected m => Some m
  | Resolved data =>
      if negb (String.eqb (status data) "1")
      then Some (orElse (message data) "Contract not found or not verified")
      else if negb (truthy (result data)) then Some "No source code found"
      else None
  end.

(** The errors [fetchContractWithRetry] does not retry. *)
Definition terminal (m : string) : bool :=
  includes m "not found" || includes m "not verified".

Section Fetch.
(** The collaborators: the network ([axios_get n url] is what the [n]-th
    request of the run settles to), the source parser, the JSON decoder as
    ABI extraction uses it, and the clock. *)
Variable axios_get : nat -> string -> AxiosResult.
Variable parseSourceCode : ContractSourceResponse -> list SourceFile.t.
Variable JSON : Type.
Variable JSON_parse : string -> option JSON.
Variable JSON_field : string -> JSON -> option JSON.
Variable JSON_abiArray : JSON -> option (list ABIItem.t).
Variable now : World -> string.

Variable options : FetchOptions.
(** Whether a progress callback was registered. *)
Variable onProgress : bool.

(** [JSON.parse] throwing is [None], as is a field that is absent or
    falsy; [JSON_abiArray] is [Some] on an array. *)
Definition extractABI (response : ContractSourceResponse)
  : option (list ABIItem.t) :=
  match JSON_parse (default "" (result response)) with
  | None => None
  | Some parsed =>
      match JSON_field "abi" parsed ≫= JSON_abiArray with
      | Some abi => Some abi
      | None =>
          match (JSON_field "output" parsed ≫= JSON_field "abi")
                  ≫= JSON_abiArray with
          | Some abi => Some abi
          | None => None
          end
      end
  end.

Definition fetchContract (contract : ContractEntry.t) (w : World)
  : Result FetchedContract.t * World :=
  match lookupChain (ContractEntry.blockchain contract) with
  | None =>
      (Err ("Unsupported blockchain: " +:+ ContractEntry.blockchain contract), w)
  | Some chainId =>
      let url := srcapi chainId (ContractEntry.address contract) in
      let w1 := sent url w in
      match axios_get (requests w) url with
      | Rejected m => (Err m, w1)
      | Resolved data =>
          if negb (String.eqb (status data) "1")
          then (Err (orElse (message data) "Contract not found or not verified"), w1)
          else if negb (truthy (result data))
          then (Err "No source code found", w1)
          else
            (Ok (FetchedContract.mk
                   (ContractEntry.address contract)
                   (ContractEntry.blockchain contract)
                   chainId
                   (ContractEntry.contract_name contract)
                   (ContractEntry.protocol contract)
                   (default "" (result data))
                   (extractABI data)
                   (now w1)
                   (parseSourceCode data)
                   None None None), w1)
      end
  end.

(** The message of the error an attempt for [contract] raises when [n]
    requests were sent before it, if it raises one. *)
Definition attemptError (contract : ContractEntry.t) (n : nat)
  : option string :=
  match lookupChain (ContractEntry.blockchain contract) with
  | None =>
      Some ("Unsupported blockchain: " +:+ ContractEntry.blockchain contract)
  | Some chainId =>
      responseError
        (axios_get n (srcapi chainId (ContractEntry.address contract)))
  end.

(** The loop of [fetchContractWithRetry]; [remaining] counts the
    iterations the loop condition [attempt < maxRetries] still allows. *)
Fixpoint fetchContractWithRetry_loop (remaining : nat) (attempt : Z)
    (lastError : option string) (contract : ContractEntry.t) (w : World)
  : outcome FetchedContract.t * World :=
  match remaining with
  | O => (Throw lastError, w)
  | S remaining' =>
      match fetchContract contract w with
      | (Ok fetched, w1) => (Return fetched, w1)
      | (Err m, w1) =>
          if includes m "not found" || includes m "not verified"
          then (Throw (Some m), w1)
          else
            let w2 :=
              if (attempt <? maxRetries options - 1)%Z
              then delay (backoffDelay (delayBetweenRequests options) attempt) w1
              else w1 in
            fetchContractWithRetry_loop remaining' (attempt + 1) (Some m)
              contract w2
      end
  end.

Definition fetchContractWithRetry (contract : ContractEntry.t) (w : World)
  : outcome FetchedContract.t * World :=
  fetchContractWithRetry_loop (Z.to_nat (maxRetries options)) 0 None contract w.

Definition pushFailed (address : string) (st : ProcessingStatus)
  : ProcessingStatus :=
  mkProcessingStatus (totalContracts st) (processedContracts st)
    (failedContracts st ++ [address]) (lastProcessedIndex st)
    (startedAt st) (lastUpdatedAt st).

(** [error instanceof Error ? error.message : String(error)] *)
Definition errorMsgOf (error : option string) : string :=
  match error with Some m => m | None => "null" end.

(** The loop of [processBatch] from index [i] on; [rest] holds the entries
    of the batch from [i] on and [n] is the length of the batch.  The body
    is a try/catch: whatever [fetchContractWithRetry] throws is caught. *)
Fixpoint processBatch_loop (rest : list ContractEntry.t) (i n : nat)
    (batchStartIndex : Z) (results : list FetchedContract.t)
    (st : ProcessingStatus) (w : World)
  : list FetchedContract.t * ProcessingStatus * World :=
  match rest with
  | [] => (results, st, w)
  | contract :: rest' =>
      let globalIndex := (batchStartIndex + Z.of_nat i)%Z in
      let w0 := if onProgress then emit (EvProgress contract) w else w in
      let '(results1, st1, w1) :=
        match fetchContractWithRetry contract w0 with
        | (Return fetched, w1) =>
            (results ++ [fetched], st, emit (EvFetched globalIndex contract) w1)
        | (Throw error, w1) =>
            (results, pushFailed (ContractEntry.address contract) st,
             emit (EvFailed globalIndex contract (errorMsgOf error)) w1)
        end in
      let w2 :=
        if (i <? n - 1)%nat then delay (delayBetweenRequests options) w1
        else w1 in
      processBatch_loop rest' (S i) n batchStartIndex results1 st1 w2
  end.

Definition processBatch (batch : list ContractEntry.t) (batchStartIndex : Z)
    (st : ProcessingStatus) (w : World)
  : list FetchedContract.t * ProcessingStatus * World :=
  processBatch_loop batch 0 (length batch) batchStartIndex [] st w.

(** [saveProgress]: both files are written (writes are taken to succeed). *)
Definition saveProgress_to_disk (results : list FetchedContract.t)
    (st : ProcessingStatus) (w : World) : World :=
  mkWorld (requests w) (events w ++ [EvSaved st (length results)])
          (Some results).

(** [loadPreviousResults]: the saved list, or nothing when the file is
    missing or cannot be parsed. *)
Definition loadPreviousResults (w : World) : list FetchedContract.t :=
  default [] (savedContracts w).

(** The batch loop of [fetchAll].  It need not end (a batch size of zero
    never advances): [fuel] bounds the number of batches, and [None] says
    the bound was reached. *)
Fixpoint fetchAll_loop (fuel : nat) (contracts : list ContractEntry.t)
    (i : Z) (results : list FetchedContract.t) (st : ProcessingStatus)
    (w : World)
  : option (list FetchedContract.t * ProcessingStatus * World) :=
  let len := Z.of_nat (length contracts) in
  if (i <? len)%Z then
    match fuel with
    | O => None
    | S fuel' =>
        let batch := slice contracts i (i + batchSize options) in
        let '(batchResults, st1, w1) := processBatch batch i st w in
        let results1 := results ++ batchResults in
        let st2 :=
          mkProcessingStatus (totalContracts st1)
            (Z.of_nat (length results1)) (failedContracts st1)
            (Z.min (i + batchSize options - 1) (len - 1))
            (startedAt st1) (now w1) in
        let w2 :=
          if saveProgress options then saveProgress_to_disk results1 st2 w1
          else w1 in
        let w3 :=
          if (i + batchSize options <? len)%Z
          then delay (delayBetweenBatches options) w2 else w2 in
        fetchAll_loop fuel' contracts (i + batchSize options) results1 st2 w3
    end
  else Some (results, st, w).

(** [fetchAll]; creating the output directory leaves no trace here. *)
Definition fetchAll (fuel : nat) (contracts : list ContractEntry.t)
    (st : ProcessingStatus) (w : World)
  : option (list FetchedContract.t * ProcessingStatus * World) :=
  let st0 :=
    mkProcessingStatus (Z.of_nat (length contracts)) (processedContracts st)
      (failedContracts st) (lastProcessedIndex st) (now w) (lastUpdatedAt st) in
  let startIndex := default 0%Z (resumeFromIndex options) in
  let results := if (startIndex >? 0)%Z then loadPreviousResults w else [] in
  fetchAll_loop fuel contracts startIndex results st0 w.

End Fetch.

(** The status a new fetcher starts with. *)
Definition initialStatus (clock : string) : ProcessingStatus :=
  mkProcessingStatus 0 0 [] (-1) clock clock.

Definition initialWorld : World := mkWorld 0 [] None.

(** How a contract of the batch ended, as the console shows it. *)
Definition handled (e : Event) : option (ContractEntry.t * bool) :=
  match e with
  | EvFetched _ c => Some (c, true)
  | EvFailed _ c _ => Some (c, false)
  | _ => None
  end.

Definition handledEntries (evs : list Event) : list (ContractEntry.t * bool) :=
  omap handled evs.

(** One entry of a batch as the loop went through it: the world in which
    its fetch started, and what [fetchContractWithRetry] settled to there. *)
Record EntryFetch := mkEntryFetch {
  entry : ContractEntry.t;
  startedIn : World;
  settled : outcome FetchedContract.t
}.

Definition returned (f : EntryFetch) : option FetchedContract.t :=
  match settled f with
  | Return fetched => Some fetched
  | Throw _ => None
  end.

Definition failedAddress (f : EntryFetch) : option string :=
  match settled f with
  | Return _ => None
  | Throw _ => Some (ContractEntry.address (entry f))
  end.

(** The console line of an entry: fetched, or failed. *)
Definition reported (f : EntryFetch) : ContractEntry.t * bool :=
  (entry f, match settled f with Return _ => true | Throw _ => false end).

(** What a run of the batch loop over [entries] adds, [retry] being the
    fetch with retries.  Every entry has its fetch, in order, started in a
    world the run reached, and what that fetch settled to decides what is
    recorded: a returned contract is appended to the results, as it is; a
    throw appends the address of the entry to the failed list and nothing
    to the results; the console shows one line per entry, accordingly. *)
Definition batchEffect
    (retry : ContractEntry.t -> World -> outcome FetchedContract.t * World)
    (entries : list ContractEntry.t)
    (results results' : list FetchedContract.t) (st st' : ProcessingStatus)
    (w w' : World) : Prop :=
  exists evs fetches,
    events w' = events w ++ evs /\
    entry <$> fetches = entries /\
    Forall (fun f => (retry (entry f) (startedIn f)).1 = settled f /\
                     events w `prefix_of` events (startedIn f) /\
                     events (startedIn f) `prefix_of` events w') fetches /\
    handledEntries evs = reported <$> fetches /\
    results' = results ++ omap returned fetches /\
    failedContracts st' = failedContracts st ++ omap failedAddress fetches.

(** What one attempt for [contract] lets observe: its request, on a
    supported chain. *)
Definition attemptEvents (contract : ContractEntry.t) : list Event :=
  match lookupChain (ContractEntry.blockchain contract) with
  | None => []
  | Some chainId =>
      [EvRequest (srcapi chainId (ContractEntry.address contract))]
  end.

(** The world after one attempt. *)
Definition attempted (contract : ContractEntry.t) (w : World) : World :=
  mkWorld (requests w + length (attemptEvents contract))
          (events w ++ attemptEvents contract) (savedContracts w).

(** [k] failed attempts, the first of them numbered [attempt], each
    followed by its backoff delay. *)
Definition backoffEvents (contract : ContractEntry.t) (base : Z)
    (attempt k : nat) : list Event :=
  flat_map (fun i => attemptEvents contract
                     ++ [EvDelay (backoffDelay base (Z.of_nat i))])
           (seq attempt k).

(** The world in which attempt [k] starts, after [k] such attempts. *)
Definition beforeAttempt (contract : ContractEntry.t) (base : Z) (k : nat)
    (w : World) : World :=
  mkWorld (requests w + k * length (attemptEvents contract))
          (events w ++ backoffEvents contract base 0 k) (savedContracts w).

(** The world after [k] such attempts and one more attempt. *)
Definition afterAttempts (contract : ContractEntry.t) (base : Z) (k : nat)
    (w : World) : World :=
  mkWorld (requests w + S k * length (attemptEvents contract))
          (events w ++ backoffEvents contract base 0 k ++ attemptEvents contract)
          (savedContracts w).

(** A network that fails [k] times with [m] and then answers [r]. *)
Definition failingThen (k : nat) (m : string) (r : AxiosResult)
  : nat -> string -> AxiosResult :=
  fun n _ => if (n <? k)%nat then Rejected m else r.

Definition okResponse : AxiosResult :=
  Resolved (mkResponse "1" (Some "OK") (Some "contract Token { }")).

(** A run against a scripted network, with trivial parsers and a clock
    that stands still. *)
Module Demo.
Definition clock : World -> string := fun _ => "2024-01-01T00:00:00.000Z".
Definition noSources : ContractSourceResponse -> list SourceFile.t :=
  fun _ => [].
Definition noJSON : string -> option unit := fun _ => None.
Definition noField : string -> unit -> option unit := fun _ _ => None.
Definition noAbi : unit -> option (list ABIItem.t) := fun _ => None.
Definition timeout : string := "timeout of 15000ms exceeded".
Definition notVerified : AxiosResult :=
  Resolved (mkResponse "0" (Some "Contract source code not verified") None).
(** The explorer answers every address but the one ending in 21. *)
Definition explorer : nat -> string -> AxiosResult :=
  fun _ url =>
    if String.eqb url
         (srcapi (ownId "1") "0x0987654321098765432109876543210987654321")
    then notVerified else okResponse.
Definition token : ContractEntry.t :=
  ContractEntry.mk "0x1234567890123456789012345678901234567890"
                   "ethereum" "Token" "test".
Definition other : ContractEntry.t :=
  ContractEntry.mk "0x0987654321098765432109876543210987654321"
                   "ethereum" "Other" "test".
Definition third : ContractEntry.t :=
  ContractEntry.mk "0x1111111111111111111111111111111111111111"
                   "ethereum" "Third" "test".
Definition fetchedOf (c : ContractEntry.t) : FetchedContract.t :=
  FetchedContract.mk (ContractEntry.address c) (ContractEntry.blockchain c)
    (ownId "1") (ContractEntry.contract_name c) (ContractEntry.protocol c)
    "contract Token { }" None "2024-01-01T00:00:00.000Z" [] None None None.
Definition retryWith (network : nat -> string -> AxiosResult) :=
  fetchContractWithRetry network noSources unit noJSON noField noAbi clock
    DEFAULT_FETCH_OPTIONS.
Definition batchWith (network : nat -> string -> AxiosResult) :=
  processBatch network noSources unit noJSON noField noAbi clock
    DEFAULT_FETCH_OPTIONS true.
Definition runWith (network : nat -> string -> AxiosResult) :=
  fetchAll network noSources unit noJSON noField noAbi clock
    DEFAULT_FETCH_OPTIONS true.
End Demo.

End Fetcher.

(** ** Code graph builder (automation/codeGraphBuilder.ts) *)

Module RelationshipType.
Inductive t :=
| inherits | imports | calls | creates | uses_interface | same_protocol
| similar_code.
Global Instance eq_dec : EqDecision t.
Proof. solve_decision. Defined.
End RelationshipType.

Module EdgeMetadata.
(** [similarity] is a number no code path of the builder sets. *)
Record t := mk {
  functionName : option string;
  eventName : option string;
  similarity : option Z
}.
End EdgeMetadata.

Module ContractEdge.
Record t := mk {
  source : string;
  target : string;
  relationshipType : RelationshipType.t;
  metadata : option EdgeMetadata.t
}.
(** The identity of an edge. *)
Definition key (e : t) : string * string * RelationshipType.t :=
  (source e, target e, relationshipType e).
End ContractEdge.

Module ContractNode.
Record t := mk {
  address : string;
  blockchain : string;
  contractName : string;
  protocol : string;
  functions : list string;
  events : list string;
  hasProxy : option bool;
  implementsInterfaces : option (list string)
}.
(** The address of a node as the builder's map keys it. *)
Definition key (n : t) : string := JS.toLowerCase (address n).
End ContractNode.

Module CodeGraph.
Import JS.

Record Builder := mkBuilder {
  nodes : list (string * ContractNode.t);
  edges : list ContractEdge.t;
  addressToContract : list (string * FetchedContract.t);
  nameToAddresses : list (string * list string)
}.

Definition empty : Builder := mkBuilder [] [] [] [].

Record Metadata := mkMetadata {
  generatedAt : string;
  totalContracts : nat;
  totalRelationships : nat;
  protocols : list string;
  blockchains : list string
}.

Record Graph := mkGraph {
  graph_nodes : list ContractNode.t;
  graph_edges : list ContractEdge.t;
  graph_metadata : Metadata
}.

(** [/\/([^/]+)\.sol$/]: the text between the last slash and a final
    ".sol", when there is a slash and that text is not empty. *)
Definition importedContractName (importPath : string) : option string :=
  match reverse (split "/" importPath) with
  | file :: _ :: _ =>
      let n := String.length file in
      if (5 <=? n)%nat && endsWith file ".sol"
      then Some (String.substring 0 (n - 4) file) else None
  | _ => None
  end.

Definition hasEdge (b : Builder) (source target : string)
    (relationshipType : RelationshipType.t) : bool :=
  existsb (fun e =>
             String.eqb (ContractEdge.source e) source &&
             String.eqb (ContractEdge.target e) target &&
             bool_decide (ContractEdge.relationshipType e = relationshipType))
          (edges b).

Definition pushEdge (e : ContractEdge.t) (b : Builder) : Builder :=
  mkBuilder (nodes b) (edges b ++ [e]) (addressToContract b)
            (nameToAddresses b).

Definition addEdge (b : Builder) (source target : string)
    (relationshipType : RelationshipType.t)
    (metadata : option EdgeMetadata.t) : Builder :=
  if negb (hasEdge b source target relationshipType)
  then pushEdge (ContractEdge.mk source target relationshipType metadata) b
  else b.

Definition findContractsByName (b : Builder) (name : string) : list string :=
  default [] (mapGet (toLowerCase name) (nameToAddresses b)).

(** The inner loop the name-based passes share: an edge to every contract
    of that name but the contract itself. *)
Definition linkTo (contractAddress : string)
    (relationshipType : RelationshipType.t)
    (metadata : option EdgeMetadata.t) (b : Builder)
    (targetAddresses : list string) : Builder :=
  fold_left
    (fun b targetAddress =>
       if negb (String.eqb targetAddress contractAddress)
       then addEdge b contractAddress targetAddress relationshipType metadata
       else b)
    targetAddresses b.

Section Extractors.
(** The renderers and scanners of the extractor that work by regular
    expressions over the source text are collaborators here: any lists
    of strings they return are accepted. *)
Variable extractFunctionSignatures : list ABIItem.t -> list string.
Variable extractEventSignatures : list ABIItem.t -> list string.
Variable extractInterfacesFromSource : string -> list string.
Variable extractInheritance : string -> list string.
Variable extractExternalCalls : string -> list string.
Variable extractImports : string -> list string.

Record Analysis := mkAnalysis {
  analysis_functions : list string;
  analysis_events : list string;
  analysis_isERC20 : bool;
  analysis_isERC721 : bool;
  analysis_isERC1155 : bool;
  analysis_isProxy : bool;
  analysis_interfaces : list string;
  analysis_inheritance : list string;
  analysis_externalCalls : list string;
  analysis_imports : list string
}.

Definition analyzeContract (contract : FetchedContract.t) : Analysis :=
  let abi := default [] (FetchedContract.abi contract) in
  let sourceCode := FetchedContract.joinedSource contract in
  mkAnalysis (extractFunctionSignatures abi) (extractEventSignatures abi)
    (Extractor.isERC20 abi) (Extractor.isERC721 abi) (Extractor.isERC1155 abi)
    (Extractor.detectProxyPattern abi)
    (extractInterfacesFromSource sourceCode) (extractInheritance sourceCode)
    (extractExternalCalls sourceCode) (extractImports sourceCode).

Definition buildNode (contract : FetchedContract.t) : ContractNode.t :=
  let analysis := analyzeContract contract in
  ContractNode.mk
    (FetchedContract.address contract) (FetchedContract.blockchain contract)
    (FetchedContract.contractName contract) (FetchedContract.protocol contract)
    (take 50 (analysis_functions analysis))
    (take 20 (analysis_events analysis))
    (Some (analysis_isProxy analysis))
    (Some (analysis_interfaces analysis)).

Definition buildSameProtocolEdges (b : Builder) (contract : FetchedContract.t)
  : Builder :=
  let contractAddress := FetchedContract.key contract in
  fold_left
    (fun b entry =>
       let '(address, node) := entry in
       if negb (String.eqb address contractAddress) &&
          String.eqb (ContractNode.protocol node)
                     (FetchedContract.protocol contract)
       then
         if negb (hasEdge b contractAddress address
                    RelationshipType.same_protocol)
         then pushEdge (ContractEdge.mk contractAddress address
                          RelationshipType.same_protocol None) b
         else b
       else b)
    (nodes b) b.

Definition buildInheritanceEdges (b : Builder) (contract : FetchedContract.t)
    (sourceCode : string) : Builder :=
  let contractAddress := FetchedContract.key contract in
  fold_left
    (fun b inherited =>
       linkTo contractAddress RelationshipType.inherits None b
         (findContractsByName b inherited))
    (extractInheritance sourceCode) b.

Definition buildImportEdges (b : Builder) (contract : FetchedContract.t)
    (sourceCode : string) : Builder :=
  let contractAddress := FetchedContract.key contract in
  fold_left
    (fun b importPath =>
       match importedContractName importPath with
       | Some contractName =>
           linkTo contractAddress RelationshipType.imports None b
             (findContractsByName b contractName)
       | None => b
       end)
    (extractImports sourceCode) b.

Definition buildExternalCallEdges (b : Builder) (contract : FetchedContract.t)
    (sourceCode : string) : Builder :=
  let contractAddress := FetchedContract.key contract in
  fold_left
    (fun b call =>
       let parts := split "." call in
       let interfaceName := default "" (parts !! 0%nat) in
       let functionName := parts !! 1%nat in
       linkTo contractAddress RelationshipType.calls
         (Some (EdgeMetadata.mk functionName None None)) b
         (findContractsByName b interfaceName))
    (extractExternalCalls sourceCode) b.

Definition buildInterfaceEdges (b : Builder) (contract : FetchedContract.t)
    (sourceCode : string) : Builder :=
  let contractAddress := FetchedContract.key contract in
  fold_left
    (fun b interfaceName =>
       linkTo contractAddress RelationshipType.uses_interface None b
         (findContractsByName b interfaceName))
    (extractInterfacesFromSource sourceCode) b.

(** The set [foundAddresses]: the literals that are not the contract's own
    address and are keys of [nodes], lowercased, in order of first match. *)
Definition foundAddresses (b : Builder) (contractAddress sourceCode : string)
  : list string :=
  fold_left
    (fun found literal =>
       let address := toLowerCase literal in
       if negb (String.eqb address contractAddress) && mapHas address (nodes b)
       then setAdd address found else found)
    (scanAddresses sourceCode) [].

Definition buildAddressReferenceEdges (b : Builder)
    (contract : FetchedContract.t) (sourceCode : string) : Builder :=
  let contractAddress := FetchedContract.key contract in
  fold_left
    (fun b targetAddress =>
       addEdge b contractAddress targetAddress RelationshipType.calls None)
    (foundAddresses b contractAddress sourceCode) b.

Definition buildEdgesForContract (b : Builder) (contract : FetchedContract.t)
  : Builder :=
  let sourceCode := FetchedContract.joinedSource contract in
  let b1 := buildSameProtocolEdges b contract in
  let b2 := buildInheritanceEdges b1 contract sourceCode in
  let b3 := buildImportEdges b2 contract sourceCode in
  let b4 := buildExternalCallEdges b3 contract sourceCode in
  let b5 := buildInterfaceEdges b4 contract sourceCode in
  buildAddressReferenceEdges b5 contract sourceCode.

(** First loop of [addContracts]: index by address and by name. *)
Definition indexContract (b : Builder) (contract : FetchedContract.t)
  : Builder :=
  let normalizedName := toLowerCase (FetchedContract.contractName contract) in
  let addresses := default [] (mapGet normalizedName (nameToAddresses b)) in
  mkBuilder (nodes b) (edges b)
    (mapSet (FetchedContract.key contract) contract (addressToContract b))
    (mapSet normalizedName (addresses ++ [FetchedContract.key contract])
            (nameToAddresses b)).

(** Second loop: the node of the contract, under its lowercased address. *)
Definition setNode (b : Builder) (contract : FetchedContract.t) : Builder :=
  mkBuilder (mapSet (FetchedContract.key contract) (buildNode contract) (nodes b))
    (edges b) (addressToContract b) (nameToAddresses b).

Definition addContracts (b : Builder) (contracts : list FetchedContract.t)
  : Builder :=
  let b1 := fold_left indexContract contracts b in
  let b2 := fold_left setNode contracts b1 in
  fold_left buildEdgesForContract contracts b2.

(** [build()]; [now] is the reading of the clock. *)
Definition build (b : Builder) (now : string) : Graph :=
  let values := (nodes b).*2 in
  mkGraph values (edges b)
    (mkMetadata now (length (nodes b)) (length (edges b))
       (dedup (ContractNode.protocol <$> values))
       (dedup (ContractNode.blockchain <$> values))).

(** The builder after a sequence of calls of [addContracts]. *)
Definition after (calls : list (list FetchedContract.t)) : Builder :=
  fold_left addContracts calls empty.

End Extractors.

(** No two edges share a key, and every edge runs between addresses of [K]. *)
Definition edgesOk (K : list string) (es : list ContractEdge.t) : Prop :=
  NoDup (ContractEdge.key <$> es) /\
  forall e, e ∈ es ->
    ContractEdge.source e ∈ K /\ ContractEdge.target e ∈ K.

(** The state of a builder to which the contracts [added] were added. *)
Definition wellFormed (added : list FetchedContract.t) (b : Builder) : Prop :=
  NoDup (nodes b).*1 /\
  (forall k n, (k, n) ∈ nodes b -> ContractNode.key n = k) /\
  (forall k, k ∈ (nodes b).*1 <-> k ∈ FetchedContract.key <$> added) /\
  (forall name addresses a,
     (name, addresses) ∈ nameToAddresses b -> a ∈ addresses ->
     a ∈ FetchedContract.key <$> added) /\
  edgesOk (FetchedContract.key <$> added) (edges b).

(** The addresses a name resolves to were all added. *)
Definition namesWithin (K : list string) (b : Builder) : Prop :=
  forall name addresses a,
    (name, addresses) ∈ nameToAddresses b -> a ∈ addresses -> a ∈ K.

(** What the edge passes leave alone. *)
Definition sameIndex (b0 b : Builder) : Prop :=
  nodes b = nodes b0 /\ addressToContract b = addressToContract b0 /\
  nameToAddresses b = nameToAddresses b0.

(** A graph without duplicate nodes or edges whose edges run between
    nodes of the graph, which are the contracts [added]. *)
Definition graphOk (added : list FetchedContract.t) (g : Graph) : Prop :=
  NoDup (ContractNode.key <$> graph_nodes g) /\
  NoDup (ContractEdge.key <$> graph_edges g) /\
  (forall a, a ∈ ContractNode.key <$> graph_nodes g <->
             a ∈ FetchedContract.key <$> added) /\
  (forall e, e ∈ graph_edges g ->
     ContractEdge.source e ∈ ContractNode.key <$> graph_nodes g /\
     ContractEdge.target e ∈ ContractNode.key <$> graph_nodes g).

(** Extractors that find nothing. *)
Module Demo.
Definition noSignatures : list ABIItem.t -> list string := fun _ => [].
Definition nothing : string -> list string := fun _ => [].
Definition afterCalls : list (list FetchedContract.t) -> Builder :=
  after noSignatures noSignatures nothing nothing nothing nothing.
Definition transferCall : option EdgeMetadata.t :=
  Some (EdgeMetadata.mk (Some "transfer") None None).
Definition approveCall : option EdgeMetadata.t :=
  Some (EdgeMetadata.mk (Some "approve") None None).
End Demo.

(** The edges of a list that carry a given key. *)
Definition edgesWithKey (source target : string)
    (relationshipType : RelationshipType.t) (es : list ContractEdge.t)
  : list ContractEdge.t :=
  filter (fun e => ContractEdge.key e = (source, target, relationshipType)) es.

End CodeGraph.

(** ** Communication graph builder, continued *)

Inductive Frequency := high | medium | low.

Module CommunicationEdge.
Record t := mk {
  source : string;
  target : string;
  pattern : Pattern.t;
  functions : list string;
  events : list string;
  bidirectional : bool;
  frequency : option Frequency
}.
(** The identity of an edge. *)
Definition key (e : t) : string * string * Pattern.t :=
  (source e, target e, pattern e).
(** [r] runs from the target of [e] to its source. *)
Definition reverses (e r : t) : bool :=
  String.eqb (source r) (target e) && String.eqb (target r) (source e).
End CommunicationEdge.

Module CommunicationNode.
Record t := mk {
  address : string;
  contractName : string;
  protocol : string;
  blockchain : string;
  role : Role.t;
  communicationCount : nat;
  inboundCount : nat;
  outboundCount : nat
}.
Definition key (n : t) : string := JS.toLowerCase (address n).
End CommunicationNode.

Module CommGraph.
Import JS Roles.

Record Builder := mkBuilder {
  nodes : list (string * CommunicationNode.t);
  edges : list CommunicationEdge.t;
  addressToContract : list (string * FetchedContract.t)
}.

Definition empty : Builder := mkBuilder [] [] [].

Record Graph := mkGraph {
  graph_nodes : list CommunicationNode.t;
  graph_edges : list CommunicationEdge.t;
  graph_patterns : list (Pattern.t * nat);
  generatedAt : string;
  totalContracts : nat;
  totalCommunications : nat
}.

Definition buildNode (contract : FetchedContract.t) : CommunicationNode.t :=
  CommunicationNode.mk
    (FetchedContract.address contract) (FetchedContract.contractName contract)
    (FetchedContract.protocol contract) (FetchedContract.blockchain contract)
    (detectContractRole contract) 0 0 0.

Definition detectCommunicationPattern (source target : FetchedContract.t)
    (sourceCode : string) : Pattern.t :=
  let targetRole := detectContractRole target in
  if bool_decide (targetRole = Role.token) &&
     (includes sourceCode ".transfer(" || includes sourceCode ".transferFrom(")
  then Pattern.token_transfer
  else if bool_decide (targetRole = Role.token) &&
          includes sourceCode ".approve("
  then Pattern.token_approval
  else if (bool_decide (targetRole = Role.dex) ||
           bool_decide (targetRole = Role.router)) &&
          (includes sourceCode "swap" || includes sourceCode "Swap")
  then Pattern.swap
  else if (bool_decide (targetRole = Role.dex) ||
           bool_decide (targetRole = Role.router)) &&
          (includes sourceCode "addLiquidity" ||
           includes sourceCode "removeLiquidity")
  then Pattern.liquidity
  else if bool_decide (targetRole = Role.lending) then Pattern.lending
  else if bool_decide (targetRole = Role.oracle) then Pattern.oracle
  else if bool_decide (targetRole = Role.bridge) then Pattern.bridge
  else if bool_decide (targetRole = Role.governance) then Pattern.governance
  else if includes sourceCode "Callback" || includes sourceCode "callback"
  then Pattern.callback
  else if includes sourceCode "flashLoan" || includes sourceCode "FlashLoan"
  then Pattern.flash_loan
  else Pattern.generic_call.

(** The names of the items of a type that have a (non-empty) name. *)
Definition namesOf (ty : ABIItemType) (abi : list ABIItem.t) : list string :=
  omap (fun i =>
          if bool_decide (ABIItem.type i = ty) && truthy (ABIItem.name i)
          then ABIItem.name i else None) abi.

Definition findRelatedFunctions (source target : FetchedContract.t)
    (sourceCode : string) : list string :=
  let targetFunctions :=
    namesOf type_function (default [] (FetchedContract.abi target)) in
  List.filter
    (fun fn => includes sourceCode ("." +:+ fn +:+ "(") ||
               includes sourceCode (fn +:+ "("))
    targetFunctions.

Definition findRelatedEvents (source target : FetchedContract.t)
  : list string :=
  take 10 (namesOf type_event (default [] (FetchedContract.abi source))).

Definition checkBidirectional (b : Builder) (address1 address2 : string)
  : bool :=
  existsb (fun e => String.eqb (CommunicationEdge.source e) address2 &&
                    String.eqb (CommunicationEdge.target e) address1)
          (edges b).

Definition addEdge (b : Builder) (edge : CommunicationEdge.t) : Builder :=
  let exists_ :=
    existsb (fun e =>
               String.eqb (CommunicationEdge.source e)
                          (CommunicationEdge.source edge) &&
               String.eqb (CommunicationEdge.target e)
                          (CommunicationEdge.target edge) &&
               bool_decide (CommunicationEdge.pattern e
                            = CommunicationEdge.pattern edge))
            (edges b) in
  if negb exists_
  then mkBuilder (nodes b) (edges b ++ [edge]) (addressToContract b)
  else b.

(** The set [referencedAddresses] of [analyzeCommunications]. *)
Definition referencedAddresses (b : Builder)
    (contractAddress sourceCode : string) : list string :=
  fold_left
    (fun found literal =>
       let address := toLowerCase literal in
       if negb (String.eqb address contractAddress) && mapHas address (nodes b)
       then setAdd address found else found)
    (scanAddresses sourceCode) [].

(** [analyzeByFunctionPatterns], which ends the source function, only
    computes a list it does not use. *)
Definition analyzeCommunications (b : Builder) (contract : FetchedContract.t)
  : Builder :=
  let sourceCode := FetchedContract.joinedSource contract in
  let contractAddress := FetchedContract.key contract in
  fold_left
    (fun b targetAddress =>
       match mapGet targetAddress (addressToContract b) with
       | Some targetContract =>
           addEdge b
             (CommunicationEdge.mk contractAddress targetAddress
                (detectCommunicationPattern contract targetContract sourceCode)
                (findRelatedFunctions contract targetContract sourceCode)
                (findRelatedEvents contract targetContract)
                (checkBidirectional b contractAddress targetAddress)
                None)
       | None => b
       end)
    (referencedAddresses b contractAddress sourceCode) b.

Definition withCounts (es : list CommunicationEdge.t)
    (node : CommunicationNode.t) : CommunicationNode.t :=
  let outbound :=
    length (filter (fun e => CommunicationEdge.source e
                             = CommunicationNode.key node) es) in
  let inbound :=
    length (filter (fun e => CommunicationEdge.target e
                             = CommunicationNode.key node) es) in
  CommunicationNode.mk
    (CommunicationNode.address node) (CommunicationNode.contractName node)
    (CommunicationNode.protocol node) (CommunicationNode.blockchain node)
    (CommunicationNode.role node) (outbound + inbound) inbound outbound.

Definition updateCommunicationCounts (b : Builder) : Builder :=
  mkBuilder (prod_map id (withCounts (edges b)) <$> nodes b) (edges b)
            (addressToContract b).

Definition indexContract (b : Builder) (contract : FetchedContract.t)
  : Builder :=
  mkBuilder (nodes b) (edges b)
    (mapSet (FetchedContract.key contract) contract (addressToContract b)).

Definition setNode (b : Builder) (contract : FetchedContract.t) : Builder :=
  mkBuilder (mapSet (FetchedContract.key contract) (buildNode contract) (nodes b))
    (edges b) (addressToContract b).

Definition addContracts (b : Builder) (contracts : list FetchedContract.t)
  : Builder :=
  let b1 := fold_left indexContract contracts b in
  let b2 := fold_left setNode contracts b1 in
  let b3 := fold_left analyzeCommunications contracts b2 in
  updateCommunicationCounts b3.

Definition allPatterns : list Pattern.t :=
  [Pattern.token_transfer; Pattern.token_approval; Pattern.swap;
   Pattern.liquidity; Pattern.stake; Pattern.governance; Pattern.oracle;
   Pattern.bridge; Pattern.lending; Pattern.nft_mint; Pattern.callback;
   Pattern.flash_loan; Pattern.generic_call].

Definition build (b : Builder) (now : string) : Graph :=
  mkGraph (nodes b).*2 (edges b)
    ((fun p => (p, length (filter (fun e => CommunicationEdge.pattern e = p)
                                  (edges b)))) <$> allPatterns)
    now (length (nodes b)) (length (edges b)).

Definition after (calls : list (list FetchedContract.t)) : Builder :=
  fold_left addContracts calls empty.

(** Every edge carries the flag that [checkBidirectional] computed on the
    edges before it. *)
Definition flaggedAtInsertion (es : list CommunicationEdge.t) : Prop :=
  forall before e later, es = before ++ e :: later ->
    CommunicationEdge.bidirectional e
    = existsb (CommunicationEdge.reverses e) before.

(** No two edges share a key, and every edge runs between addresses of [K]. *)
Definition edgesOk (K : list string) (es : list CommunicationEdge.t) : Prop :=
  NoDup (CommunicationEdge.key <$> es) /\
  forall e, e ∈ es ->
    CommunicationEdge.source e ∈ K /\ CommunicationEdge.target e ∈ K.

(** The state of a builder to which the contracts [added] were added. *)
Definition wellFormed (added : list FetchedContract.t) (b : Builder) : Prop :=
  NoDup (nodes b).*1 /\
  (forall k n, (k, n) ∈ nodes b -> CommunicationNode.key n = k) /\
  (forall k, k ∈ (nodes b).*1 <-> k ∈ FetchedContract.key <$> added) /\
  edgesOk (FetchedContract.key <$> added) (edges b) /\
  flaggedAtInsertion (edges b).

(** What adding edges leaves alone, and what it maintains. *)
Definition edgePhase (K : list string) (b0 b : Builder) : Prop :=
  nodes b = nodes b0 /\ addressToContract b = addressToContract b0 /\
  edgesOk K (edges b) /\ flaggedAtInsertion (edges b).

Definition graphOk (added : list FetchedContract.t) (g : Graph) : Prop :=
  NoDup (CommunicationNode.key <$> graph_nodes g) /\
  NoDup (CommunicationEdge.key <$> graph_edges g) /\
  (forall a, a ∈ CommunicationNode.key <$> graph_nodes g <->
             a ∈ FetchedContract.key <$> added) /\
  (forall e, e ∈ graph_edges g ->
     CommunicationEdge.source e ∈ CommunicationNode.key <$> graph_nodes g /\
     CommunicationEdge.target e ∈ CommunicationNode.key <$> graph_nodes g).

(** Two contracts whose sources name each other's address. *)
Module Demo.
Definition addrA : string := "0xAAAAaaaaAAAAaaaaAAAAaaaaAAAAaaaaAAAAaaaa".
Definition addrB : string := "0xbbbbbbbbbbbbbbbbbbbbbbbbbbbbbbbbbbbbbbbb".
Definition addrC : string := "0xcccccccccccccccccccccccccccccccccccccccc".
Definition A : FetchedContract.t :=
  contractOf addrA "Alpha" None
    ("address constant peer = " +:+ addrB +:+ "; address x = " +:+ addrC +:+ ";").
Definition B : FetchedContract.t :=
  contractOf addrB "Beta" None ("address constant peer = " +:+ addrA +:+ ";").
Definition keyA : string := toLowerCase addrA.
Definition keyB : string := toLowerCase addrB.
Definition edgeOf (s t : string) (flag : bool) : CommunicationEdge.t :=
  CommunicationEdge.mk s t Pattern.generic_call [] [] flag None.
End Demo.

End CommGraph.

(** ** Helpers on text *)
Module Text.
Import JS.

(** The string is empty or starts with a character [trim] keeps. *)
Definition cleanStart (s : string) : bool :=
  match s with
  | String c _ => negb (isWhiteSpace c)
  | EmptyString => true
  end.

Fixpoint noWhiteSpace (s : string) : bool :=
  match s with
  | EmptyString => true
  | String c t => negb (isWhiteSpace c) && noWhiteSpace t
  end.

End Text.

(** ** Contract list loader: queries, and the selection the command line
    makes (automation/contractListLoader.ts, automation/cli.ts) *)
Module Listing.
Import JS ContractEntry Loader.

(** What validation leaves of a file: a normalised entry. *)
Definition normalised (c : ContractEntry.t) : Prop :=
  String.length (address c) = 42 /\
  toLowerCase (address c) = address c /\
  toLowerCase (blockchain c) = blockchain c /\
  is_Some (lookupChain (blockchain c)) /\
  contract_name c <> "" /\ protocol c <> "".

Definition filterContractsByBlockchain (contracts : list ContractEntry.t)
    (chain : string) : list ContractEntry.t :=
  filter (fun c => toLowerCase (blockchain c) = toLowerCase chain) contracts.

Definition filterContractsByProtocol (contracts : list ContractEntry.t)
    (proto : string) : list ContractEntry.t :=
  filter (fun c => toLowerCase (protocol c) = toLowerCase proto) contracts.

(** [Array.prototype.sort()] without a comparator orders strings by their
    code units. *)
Definition sortStrings (l : list string) : list string :=
  merge_sort String.le l.

Definition getUniqueProtocols (contracts : list ContractEntry.t)
  : list string :=
  sortStrings (dedup (protocol <$> contracts)).

Definition getUniqueBlockchains (contracts : list ContractEntry.t)
  : list string :=
  sortStrings (dedup (blockchain <$> contracts)).

(** The loop the two grouping functions share: the entry is pushed on the
    array found under its key, or on a new one. *)
Definition groupBy (key : ContractEntry.t -> string)
    (contracts : list ContractEntry.t) : list (string * list ContractEntry.t) :=
  fold_left
    (fun grouped contract =>
       let existing := default [] (mapGet (key contract) grouped) in
       mapSet (key contract) (existing ++ [contract]) grouped)
    contracts [].

Definition groupContractsByProtocol := groupBy protocol.
Definition groupContractsByBlockchain := groupBy blockchain.

(** An entry whose protocol and blockchain are ordinary keys of an object
    used as a table. *)
Definition plainKeys (c : ContractEntry.t) : Prop :=
  (protocol c ∉ inheritedNames) /\ (blockchain c ∉ inheritedNames).

(** [counts[k] = (counts[k] || 0) + 1] over the entries, on an object used
    as a table; this is what the loop does as long as no key is an
    inherited property name (under such a name the object holds a function
    and not a count). *)
Definition countBy (key : ContractEntry.t -> string)
    (contracts : list ContractEntry.t) : gmap string nat :=
  fold_left
    (fun counts contract =>
       <[key contract := default 0 (counts !! key contract) + 1]> counts)
    contracts ∅.

Record Stats := mkStats {
  totalContracts : nat;
  uniqueContracts : nat;
  protocols : nat;
  blockchains : nat;
  byBlockchain : gmap string nat;
  byProtocol : gmap string nat
}.

Definition getContractListStats (contracts : list ContractEntry.t) : Stats :=
  let unique := removeDuplicates contracts in
  let byBlockchain := countBy blockchain unique in
  let byProtocol := countBy protocol unique in
  mkStats (length contracts) (length unique) (size byProtocol)
          (size byBlockchain) byBlockchain byProtocol.

(** The part of [CLIConfig] that selects contracts; an absent number and
    [NaN] are [None]. *)
Record Selection := mkSelection {
  sel_blockchain : option string;
  sel_protocol : option string;
  sel_limit : option Z
}.

(** What [runAutomation] does to the loaded entries before it fetches. *)
Definition runAutomation_select (config : Selection)
    (loaded : list ContractEntry.t) : list ContractEntry.t :=
  let contracts := removeDuplicates loaded in
  let contracts :=
    if truthy (sel_blockchain config)
    then filterContractsByBlockchain contracts
           (default "" (sel_blockchain config))
    else contracts in
  let contracts :=
    if truthy (sel_protocol config)
    then filterContractsByProtocol contracts (default "" (sel_protocol config))
    else contracts in
  match sel_limit config with
  | Some limit =>
      if (limit =? 0)%Z then contracts
      else if (limit >? 0)%Z then slice contracts 0 limit else contracts
  | None => contracts
  end.

(** How often [k] is the key of an entry. *)
Definition occurrences (key : ContractEntry.t -> string) (k : string)
    (contracts : list ContractEntry.t) : nat :=
  length (filter (fun c => key c = k) contracts).

Definition matchesSelection (config : Selection) (c : ContractEntry.t)
  : Prop :=
  (truthy (sel_blockchain config) = true ->
   toLowerCase (blockchain c)
   = toLowerCase (default "" (sel_blockchain config))) /\
  (truthy (sel_protocol config) = true ->
   toLowerCase (protocol c) = toLowerCase (default "" (sel_protocol config))).

Global Instance matchesSelection_dec config c :
  Decision (matchesSelection config c).
Proof. unfold matchesSelection. apply _. Defined.

Module Demo.
Definition aave :=
  ContractEntry.mk "0x1234567890123456789012345678901234567890" "ethereum"
                   "Pool" "Aave".
Definition aaveAgain :=
  ContractEntry.mk "0x1234567890123456789012345678901234567890" "ethereum"
                   "Pool" "aave-v3".
Definition uni :=
  ContractEntry.mk "0x0987654321098765432109876543210987654321" "bnb"
                   "Router" "Uniswap".
End Demo.

End Listing.

(** ** Address validation (utils.ts) *)
Module Utils.
Import JS.

(** [ETHEREUM_ADDRESS_PATTERN.test(s)], the pattern being
    [/^0x[a-fA-F0-9]{40}$/]. *)
Definition ETHEREUM_ADDRESS_PATTERN_test (s : string) : bool :=
  match s with
  | String a (String x digits) =>
      Ascii.eqb a "0" && Ascii.eqb x "x" &&
      Nat.eqb (String.length digits) 40 && allHex digits
  | _ => false
  end.

Definition isValidAddress (address : string) : bool :=
  if negb (truthy (Some address)) then false
  else ETHEREUM_ADDRESS_PATTERN_test address.

Definition normalizeAddress (address : string) : string :=
  trim (toLowerCase address).

Definition validateAddressWithMessage (address : string) : option string :=
  if negb (truthy (Some address)) then Some "Address cannot be empty"
  else if negb (ETHEREUM_ADDRESS_PATTERN_test address)
  then Some "Please enter a valid Ethereum address (0x followed by 40 hex characters)"
  else None.

End Utils.

(** ** Selections of an ABI (automation/abiExtractor.ts) *)
Module AbiQueries.

Definition mutabilityIn (allowed : list StateMutability) (item : ABIItem.t)
  : Prop :=
  match ABIItem.stateMutability item with
  | Some m => m ∈ allowed
  | None => False
  end.

Global Instance mutabilityIn_dec allowed item :
  Decision (mutabilityIn allowed item).
Proof. unfold mutabilityIn. destruct (ABIItem.stateMutability item); apply _. Defined.

Definition extractCallableFunctions (abi : list ABIItem.t) : list ABIItem.t :=
  filter (fun item => ABIItem.type item = type_function /\
                      mutabilityIn [nonpayable; payable; view; pure] item) abi.

Definition extractStateChangingFunctions (abi : list ABIItem.t)
  : list ABIItem.t :=
  filter (fun item => ABIItem.type item = type_function /\
                      mutabilityIn [nonpayable; payable] item) abi.

Definition extractReadOnlyFunctions (abi : list ABIItem.t) : list ABIItem.t :=
  filter (fun item => ABIItem.type item = type_function /\
                      mutabilityIn [view; pure] item) abi.

(** The proxy indicators that detection can find: those in lower case. *)
Definition proxyNames : list string := ["implementation"; "_implementation"].

End AbiQueries.

(** ** Fetching one contract (automation/batchContractFetcher.ts) *)
Module SingleFetch.
Import Fetcher.

Section Single.
Variable axios_get : nat -> string -> AxiosResult.
Variable parseSourceCode : ContractSourceResponse -> list SourceFile.t.
Variable JSON : Type.
Variable JSON_parse : string -> option JSON.
Variable JSON_field : string -> JSON -> option JSON.
Variable JSON_abiArray : JSON -> option (list ABIItem.t).
Variable now : World -> string.

(** [{ ...DEFAULT_FETCH_OPTIONS, maxRetries: 3 }] *)
Definition singleOptions : FetchOptions :=
  mkFetchOptions (batchSize DEFAULT_FETCH_OPTIONS)
    (delayBetweenRequests DEFAULT_FETCH_OPTIONS)
    (delayBetweenBatches DEFAULT_FETCH_OPTIONS) 3
    (resumeFromIndex DEFAULT_FETCH_OPTIONS) (outputDir DEFAULT_FETCH_OPTIONS)
    (saveProgress DEFAULT_FETCH_OPTIONS).

(** [fetchSingleContract]: a new fetcher, without progress callback, runs
    [fetchAll] on the one entry; an absent name or protocol is 'Unknown'.
    [fuel] bounds the batches of that run. *)
Definition fetchSingleContract (fuel : nat) (address blockchain : string)
    (contractName protocol : option string) (w : World)
  : option (outcome FetchedContract.t * World) :=
  let entry :=
    ContractEntry.mk address blockchain (default "Unknown" contractName)
                     (default "Unknown" protocol) in
  match fetchAll axios_get parseSourceCode JSON JSON_parse JSON_field
          JSON_abiArray now singleOptions false fuel [entry]
          (initialStatus (now w)) w with
  | None => None
  | Some (results, _, w') =>
      Some (match results with
            | [] => Throw (Some "Failed to fetch contract")
            | fetched :: _ => Return fetched
            end, w')
  end.

End Single.

(** Options for the edge cases: no retry allowed, and batches of size
    zero. *)
Definition noRetries : FetchOptions :=
  mkFetchOptions 10 200 2000 0 None "./contract_data" true.
Definition emptyBatches : FetchOptions :=
  mkFetchOptions 0 200 2000 3 None "./contract_data" true.

End SingleFetch.


(** ** How the code graph grows (automation/codeGraphBuilder.ts) *)
Module CodeGraphGrowth.
Import JS CodeGraph.

(** [b'] has the index of [b] and its edges, followed by edges that leave
    the address [c] for another address. *)
Definition grownFrom (c : string) (b b' : Builder) : Prop :=
  sameIndex b b' /\
  exists more,
    edges b' = edges b ++ more /\
    Forall (fun e => ContractEdge.source e = c /\ ContractEdge.target e <> c)
           more.

(** No edge runs from an address to itself. *)
Definition loopFree (es : list ContractEdge.t) : Prop :=
  Forall (fun e => ContractEdge.source e <> ContractEdge.target e) es.

(** [b'] has the nodes of [b] and its edges, followed by edges without
    loop. *)
Definition extended (b b' : Builder) : Prop :=
  nodes b' = nodes b /\
  exists more, edges b' = edges b ++ more /\ loopFree more.

(** One step of the loop of [buildSameProtocolEdges]. *)
Definition sameProtocolStep (contract : FetchedContract.t) (b : Builder)
    (entry : string * ContractNode.t) : Builder :=
  let '(address, node) := entry in
  if negb (String.eqb address (FetchedContract.key contract)) &&
     String.eqb (ContractNode.protocol node) (FetchedContract.protocol contract)
  then
    if negb (CodeGraph.hasEdge b (FetchedContract.key contract) address
               RelationshipType.same_protocol)
    then pushEdge (ContractEdge.mk (FetchedContract.key contract) address
                     RelationshipType.same_protocol None) b
    else b
  else b.

Module Demo.
(** Two contracts of one protocol and one of another. *)
Definition pool : FetchedContract.t :=
  FetchedContract.mk "0xAAAAaaaaAAAAaaaaAAAAaaaaAAAAaaaaAAAAaaaa" "ethereum"
    (ownId "1") "Pool" "aave" "" None "" [] None None None.
Definition oracle : FetchedContract.t :=
  FetchedContract.mk "0xbbbbbbbbbbbbbbbbbbbbbbbbbbbbbbbbbbbbbbbb" "ethereum"
    (ownId "1") "Oracle" "aave" "" None "" [] None None None.
Definition router : FetchedContract.t :=
  FetchedContract.mk "0xcccccccccccccccccccccccccccccccccccccccc" "ethereum"
    (ownId "1") "Router" "uniswap" "" None "" [] None None None.
End Demo.

End CodeGraphGrowth.

(** ** The counts of the communication graph (updateCommunicationCounts) *)
Module CommGraphCounts.
Import JS CommGraph.

(** The counts of [node] are those of the edges [es]. *)
Definition countsOf (es : list CommunicationEdge.t)
    (node : CommunicationNode.t) : Prop :=
  CommunicationNode.outboundCount node
  = length (filter (fun e => CommunicationEdge.source e
                             = CommunicationNode.key node) es) /\
  CommunicationNode.inboundCount node
  = length (filter (fun e => CommunicationEdge.target e
                             = CommunicationNode.key node) es) /\
  CommunicationNode.communicationCount node
  = CommunicationNode.outboundCount node + CommunicationNode.inboundCount node.

(** Every node of [b] carries the counts of the edges of [b]. *)
Definition counted (b : Builder) : Prop :=
  Forall (fun entry => countsOf (edges b) entry.2) (nodes b).

End CommGraphCounts.

(** * Properties *)

(** ** Chain table *)

Example chain_ids :
  lookupChain "ethereum" = Some (ownId "1") /\
  lookupChain "bnb" = Some (ownId "56") /\
  lookupChain "polygon" = Some (ownId "137") /\
  lookupChain "arbitrum" = Some (ownId "42161") /\
  lookupChain "solana" = None /\
  lookupChain "constructor" = Some (inherited "constructor") /\
  chainIdText (inherited "constructor") = "function Object() { [native code] }".
Proof. vm_compute. repeat split. Qed.

(** ** Strings *)
Section StringFacts.
Import JS.

Lemma append_cons c s1 s2 : String c s1 +:+ s2 = String c (s1 +:+ s2).
Proof. reflexivity. Qed.

Lemma append_nil s : "" +:+ s = s.
Proof. reflexivity. Qed.

Lemma includes_cons c s needle :
  includes (String c s) needle = String.prefix needle (String c s) || includes s needle.
Proof. reflexivity. Qed.

Lemma prefix_nil s : String.prefix "" s = true.
Proof. by destruct s. Qed.

Lemma prefix_cons a p b s :
  String.prefix (String a p) (String b s) =
  if ascii_dec a b then String.prefix p s else false.
Proof. reflexivity. Qed.

Lemma includes_prefix s needle : String.prefix needle s = true -> includes s needle = true.
Proof.
  intros H. destruct s as [|c s].
  - change (includes "" needle) with (String.prefix needle "" || false).
    by rewrite H.
  - by rewrite includes_cons, H.
Qed.

Lemma prefix_append p s : String.prefix p (p +:+ s) = true.
Proof.
  induction p as [|c p IH]; [by destruct s|].
  rewrite append_cons, prefix_cons. destruct (ascii_dec c c); [exact IH|congruence].
Qed.

(** [includes] finds a needle wherever it sits. *)
Lemma includes_append pre needle post :
  includes (pre +:+ needle +:+ post) needle = true.
Proof.
  induction pre as [|c pre IH].
  - rewrite append_nil. apply includes_prefix, prefix_append.
  - rewrite append_cons, includes_cons, IH. apply orb_true_r.
Qed.

End StringFacts.

(** ** Contract list loader *)
Section LoaderProperties.
Import JS ContractEntry Loader.

Example normalize_demo :
  normalizeContractEntry Demo.token = Demo.loaded /\
  isValidContractEntry Demo.loaded = true.
Proof. vm_compute. split; reflexivity. Qed.

Lemma removeDuplicates_loop_firstOccurrences cs seen unique :
  removeDuplicates_loop cs seen unique = unique ++ firstOccurrences seen cs.
Proof.
  revert seen unique. induction cs as [|c rest IH]; intros seen unique; simpl.
  - by rewrite app_nil_r.
  - case_bool_decide; rewrite IH; [done|]. by rewrite <- app_assoc.
Qed.

Lemma removeDuplicates_firstOccurrences cs :
  removeDuplicates cs = firstOccurrences ∅ cs.
Proof. apply removeDuplicates_loop_firstOccurrences. Qed.

Lemma firstOccurrences_length seen cs :
  length (firstOccurrences seen cs) <= length cs.
Proof.
  revert seen. induction cs as [|c rest IH]; intros seen; simpl; [lia|].
  case_bool_decide; simpl.
  - specialize (IH seen). lia.
  - specialize (IH ({[entryKey c]} ∪ seen)). lia.
Qed.

Lemma firstOccurrences_sublist seen cs : sublist (firstOccurrences seen cs) cs.
Proof.
  revert seen. induction cs as [|c rest IH]; intros seen; simpl.
  - constructor.
  - case_bool_decide; [apply sublist_cons | apply sublist_skip]; apply IH.
Qed.

Lemma firstOccurrences_fresh seen cs c :
  c ∈ firstOccurrences seen cs -> entryKey c ∉ seen.
Proof.
  revert seen. induction cs as [|c' rest IH]; intros seen; simpl.
  - intros H. by apply elem_of_nil in H.
  - case_bool_decide as Hin; [apply IH|].
    intros [->|H]%elem_of_cons; [done|].
    apply IH in H. set_solver.
Qed.

Lemma firstOccurrences_NoDup seen cs :
  NoDup (entryKey <$> firstOccurrences seen cs).
Proof.
  revert seen. induction cs as [|c rest IH]; intros seen; simpl.
  - constructor.
  - case_bool_decide as Hin; [apply IH|].
    simpl. constructor; [|apply IH].
    intros (c' & Heq & Hc')%list_elem_of_fmap_1.
    apply firstOccurrences_fresh in Hc'. set_solver.
Qed.

Lemma firstOccurrences_find seen cs k :
  k ∉ seen ->
  find (hasKey k) (firstOccurrences seen cs) = find (hasKey k) cs.
Proof.
  revert seen. induction cs as [|c rest IH]; intros seen Hk; simpl; [done|].
  unfold hasKey at 2. case_bool_decide as Hin; case_bool_decide as Heq; simpl.
  - subst k. done.
  - by apply IH.
  - unfold hasKey at 1. by rewrite bool_decide_eq_true_2.
  - unfold hasKey at 1. rewrite bool_decide_eq_false_2 by done.
    apply IH. apply not_elem_of_union. split; [|done].
    apply not_elem_of_singleton. congruence.
Qed.

Lemma colonFree_cons c s :
  colonFree (String c s) = true -> c <> ":"%char /\ colonFree s = true.
Proof.
  unfold colonFree. rewrite includes_cons, prefix_cons.
  destruct (ascii_dec ":" c) as [<-|Hne].
  - rewrite prefix_nil. discriminate.
  - rewrite orb_false_l. intros H. split; [congruence|exact H].
Qed.

Lemma colonFree_cons_2 c s :
  c <> ":"%char -> colonFree s = true -> colonFree (String c s) = true.
Proof.
  unfold colonFree. rewrite includes_cons, prefix_cons. intros Hc Hs.
  destruct (ascii_dec ":" c) as [<-|Hne]; [done|]. by rewrite orb_false_l.
Qed.

Lemma colonFree_append pre post : colonFree (pre +:+ String ":" post) = false.
Proof.
  change (String ":" post) with (":" +:+ post).
  unfold colonFree. by rewrite includes_append.
Qed.

(** The key text determines the pair when the addresses carry no colon,
    whatever the chain names are. *)
Lemma key_of_pair_inj b1 a1 b2 a2 :
  colonFree a1 = true -> colonFree a2 = true ->
  b1 +:+ ":" +:+ a1 = b2 +:+ ":" +:+ a2 -> b1 = b2 /\ a1 = a2.
Proof.
  change (":" +:+ a1) with (String ":" a1).
  change (":" +:+ a2) with (String ":" a2).
  intros H1 H2. revert b2. induction b1 as [|c1 b1 IH]; intros [|c2 b2].
  - rewrite !append_nil. intros [= ->]. done.
  - rewrite append_nil, append_cons. intros [= <- ->].
    by rewrite colonFree_append in H1.
  - rewrite append_nil, append_cons. intros [= -> <-].
    by rewrite colonFree_append in H2.
  - rewrite !append_cons. intros [= -> Heq].
    destruct (IH _ Heq) as [-> ->]. done.
Qed.

Lemma find_ext_in {A} (p q : A -> bool) (l : list A) :
  (forall x, x ∈ l -> p x = q x) -> find p l = find q l.
Proof.
  induction l as [|x l IH]; intros H; simpl; [done|].
  rewrite <- (H x) by left. destruct (p x); [done|].
  apply IH. intros y Hy. apply H. by right.
Qed.

Lemma find_none {A} (l : list A) : find (fun _ => false) l = None.
Proof. induction l; simpl; auto. Qed.

Lemma hasPair_hasKey p c :
  colonFree p.2 = true -> colonFree (address c) = true ->
  hasPair p c = hasKey (p.1 +:+ ":" +:+ p.2) c.
Proof.
  intros Hp Hc. destruct p as [b a]. unfold hasPair, hasKey, pairKey, entryKey.
  simpl in *. apply bool_decide_ext. split.
  - intros [= -> ->]. done.
  - intros Heq. by destruct (key_of_pair_inj _ _ _ _ Hc Hp Heq) as [-> ->].
Qed.

Lemma hasPair_colon p c :
  colonFree p.2 = false -> colonFree (address c) = true -> hasPair p c = false.
Proof.
  intros Hp Hc. unfold hasPair, pairKey. apply bool_decide_eq_false_2.
  destruct p as [b a]. simpl in *. intros [= _ <-]. congruence.
Qed.

Lemma isHexDigit_not_colon c : isHexDigit c = true -> c <> ":"%char.
Proof. intros H ->. discriminate. Qed.

Lemma allHex_colonFree s : allHex s = true -> colonFree s = true.
Proof.
  induction s as [|c s IH]; [done|]. simpl.
  intros [Hc Hs]%andb_true_iff.
  apply colonFree_cons_2; [by apply isHexDigit_not_colon|by apply IH].
Qed.

(** The addresses of the data model carry no colon. *)
Lemma wellFormedAddress_colonFree c :
  wellFormedAddress c -> colonFree (address c) = true.
Proof.
  unfold wellFormedAddress. destruct (address c) as [|a [|x digits]]; [done| |].
  - by destruct a as [[] [] [] [] [] [] [] []].
  - destruct a as [[] [] [] [] [] [] [] []]; try done.
    unfold addressPattern_test. intros H.
    apply andb_true_iff in H as [H Hhex]. apply andb_true_iff in H as [Hx _].
    apply colonFree_cons_2; [done|]. apply colonFree_cons_2.
    + intros ->. discriminate.
    + by apply allHex_colonFree.
Qed.

Lemma firstOccurrences_dedupByPair cs :
  Forall (fun c => colonFree (address c) = true) cs ->
  dedupByPair cs (firstOccurrences ∅ cs).
Proof.
  intros Hfree. rewrite Forall_forall in Hfree.
  assert (Hsub := firstOccurrences_sublist ∅ cs).
  repeat split; [apply firstOccurrences_length | | | done].
  - apply (NoDup_fmap_1 (fun p : string * string => p.1 +:+ ":" +:+ p.2)).
    rewrite <- list_fmap_compose. apply firstOccurrences_NoDup.
  - intros p. destruct (colonFree p.2) eqn:Hp.
    + rewrite (find_ext_in (hasPair p) (hasKey (p.1 +:+ ":" +:+ p.2)) cs).
      2:{ intros c Hc. apply hasPair_hasKey; auto. }
      rewrite (find_ext_in (hasPair p) (hasKey (p.1 +:+ ":" +:+ p.2))).
      2:{ intros c Hc. apply hasPair_hasKey; [done|].
          apply Hfree. by eapply elem_of_sublist. }
      apply firstOccurrences_find. apply not_elem_of_empty.
    + rewrite (find_ext_in (hasPair p) (fun _ => false) cs).
      2:{ intros c Hc. apply hasPair_colon; auto. }
      rewrite (find_ext_in (hasPair p) (fun _ => false)).
      2:{ intros c Hc. apply hasPair_colon; [done|].
          apply Hfree. by eapply elem_of_sublist. }
      by rewrite !find_none.
Qed.

(** Outside the data model the key text can tell two pairs apart no more:
    the entry of chain "a" with address "b:c" is dropped after the entry of
    chain "a:b" with address "c". *)
Example removeDuplicates_key_text_collision :
  removeDuplicates [Demo.ab_c; Demo.a_bc] = [Demo.ab_c].
Proof. vm_compute. reflexivity. Qed.

(** What [removeDuplicates] does in terms of its key text
    blockchain:address: one entry per key text, the first that carries it. *)
Lemma removeDuplicates_by_key_text (contracts : list ContractEntry.t) :
  NoDup (entryKey <$> removeDuplicates contracts) /\
  (forall k, find (hasKey k) (removeDuplicates contracts)
             = find (hasKey k) contracts).
Proof.
  rewrite removeDuplicates_firstOccurrences.
  split; [apply firstOccurrences_NoDup|].
  intros k. apply firstOccurrences_find. apply not_elem_of_empty.
Qed.

(** C8: for every list of entries, [removeDuplicates] returns a list no
    longer than its input, with at most one entry per (blockchain, address)
    pair, that is a subsequence of the input (the relative order of the
    kept entries is preserved); and, the addresses being those of the data
    model (0x and 40 hexadecimal digits), whatever the chain names are, the
    entry kept for a pair is the first entry of the input with that pair. *)
Theorem removeDuplicates_first_per_key (contracts : list ContractEntry.t) :
  length (removeDuplicates contracts) <= length contracts /\
  NoDup (pairKey <$> removeDuplicates contracts) /\
  sublist (removeDuplicates contracts) contracts /\
  (Forall wellFormedAddress contracts ->
   forall p, find (hasPair p) (removeDuplicates contracts)
             = find (hasPair p) contracts).
Proof.
  rewrite removeDuplicates_firstOccurrences.
  split; [apply firstOccurrences_length|].
  split.
  { apply (NoDup_fmap_1 (fun p : string * string => p.1 +:+ ":" +:+ p.2)).
    rewrite <- list_fmap_compose. apply firstOccurrences_NoDup. }
  split; [apply firstOccurrences_sublist|].
  intros Hwf.
  assert (Hfree : Forall (fun c => colonFree (address c) = true) contracts).
  { eapply Forall_impl; [exact Hwf|]. apply wellFormedAddress_colonFree. }
  by destruct (firstOccurrences_dedupByPair contracts Hfree)
    as (_ & _ & Hfind & _).
Qed.

Lemma removeDuplicates_first_per_key_witness :
  dedupByPair
    [Demo.onEip; Demo.loaded; Demo.onEipAgain; Demo.otherOnEip; Demo.loaded]
    (removeDuplicates
       [Demo.onEip; Demo.loaded; Demo.onEipAgain; Demo.otherOnEip;
        Demo.loaded]) /\
  removeDuplicates
    [Demo.onEip; Demo.loaded; Demo.onEipAgain; Demo.otherOnEip; Demo.loaded]
  = [Demo.onEip; Demo.loaded; Demo.otherOnEip].
Proof.
  split; [|vm_compute; reflexivity].
  destruct (removeDuplicates_first_per_key
              [Demo.onEip; Demo.loaded; Demo.onEipAgain; Demo.otherOnEip;
               Demo.loaded])
    as (Hlen & Hnd & Hsub & Hfind).
  split; [exact Hlen|]. split; [exact Hnd|]. split; [|exact Hsub].
  apply Hfind. repeat constructor.
Defined.

(** Entries accepted by the loader are deduplicated per pair. *)
Lemma removeDuplicates_valid_entries (contracts : list ContractEntry.t) :
  Forall (fun c => isValidContractEntry c = true) contracts ->
  dedupByPair contracts (removeDuplicates contracts).
Proof.
  intros Hvalid. rewrite removeDuplicates_firstOccurrences.
  apply firstOccurrences_dedupByPair.
  eapply Forall_impl; [exact Hvalid|]. intros c Hc.
  apply wellFormedAddress_colonFree. unfold wellFormedAddress.
  unfold isValidContractEntry in Hc.
  destruct (addressPattern_test (address c)); [done|].
  by rewrite orb_true_r in Hc.
Qed.

Section Files.
Variable path_resolve : string -> string.
Variable readFileSync : string -> Result string.
Variable JSON_parse : string -> Result (list RawEntry).

Local Abbreviation loadFile := (loadContractsFromFile path_resolve readFileSync JSON_parse).
Local Abbreviation loadFiles := (loadContractsFromFiles path_resolve readFileSync JSON_parse).
Local Abbreviation loadFiles_loop :=
  (loadContractsFromFiles_loop path_resolve readFileSync JSON_parse).
Local Abbreviation loadable := (entriesOfLoadable path_resolve readFileSync JSON_parse).
Local Abbreviation cliLoad := (runAutomation_load path_resolve readFileSync JSON_parse).

(** [loadContractsFromFiles] rethrows the error of the first file that
    fails, whatever the files around it hold. *)
Lemma loadContractsFromFiles_first_error pre file post m acc :
  Forall (fun f => exists cs, loadFile f = Ok cs) pre ->
  loadFile file = Err m ->
  loadFiles_loop acc (pre ++ file :: post) = Err m.
Proof.
  intros Hpre Hfile. revert acc.
  induction Hpre as [|f pre [cs Hf] _ IH]; intros acc; simpl.
  - by rewrite Hfile.
  - rewrite Hf. apply IH.
Qed.

Lemma loadContractsFromFiles_all_load files acc :
  Forall (fun f => exists cs, loadFile f = Ok cs) files ->
  loadFiles_loop acc files = Ok (acc ++ loadable files).
Proof.
  intros Hall. revert acc.
  induction Hall as [|f files [cs Hf] _ IH]; intros acc.
  - simpl. by rewrite app_nil_r.
  - simpl. rewrite Hf, IH. unfold entriesOfLoadable. simpl. rewrite Hf.
    by rewrite app_assoc.
Qed.

(** The loading loop of the command line isolates the failure of a file. *)
Lemma runAutomation_load_isolates files acc :
  cliLoad acc files = acc ++ loadable files.
Proof.
  revert acc. induction files as [|f files IH]; intros acc; simpl.
  - by rewrite app_nil_r.
  - unfold entriesOfLoadable. simpl.
    destruct (loadFile f) as [cs|m]; rewrite IH; [|done].
    by rewrite app_assoc.
Qed.

End Files.

(** C3: with an unreadable first file and a well-formed second file,
    [loadContractsFromFiles] throws the load error of the first file and
    returns no entry of the second, although that file loads on its own;
    the per-file loop of [runAutomation] returns them. *)
Theorem loadContractsFromFiles_aborts_on_unreadable_file :
  loadContractsFromFile id Demo.readFileSync Demo.JSON_parse "good.json"
    = Ok [Demo.loaded] /\
  loadContractsFromFiles id Demo.readFileSync Demo.JSON_parse
      ["missing.json"; "good.json"]
    = Err (loadError "missing.json" "ENOENT: no such file or directory") /\
  entriesOfLoadable id Demo.readFileSync Demo.JSON_parse
      ["missing.json"; "good.json"] = [Demo.loaded] /\
  runAutomation_load id Demo.readFileSync Demo.JSON_parse []
      ["missing.json"; "good.json"] = [Demo.loaded].
Proof. vm_compute. repeat split. Qed.

End LoaderProperties.

(** ** ABI extractor *)
Section ExtractorProperties.
Import JS Extractor.

Lemma elem_of_functionNames abi n :
  n ∈ functionNames abi <->
  exists item, item ∈ abi /\ ABIItem.type item = type_function /\
               ABIItem.name item = n.
Proof.
  unfold functionNames. rewrite elem_of_list_to_set, list_elem_of_fmap.
  split.
  - intros (item & -> & Hin). apply list_elem_of_filter in Hin as [Hty Hin].
    by exists item.
  - intros (item & Hin & Hty & <-). exists item. split; [done|].
    by apply list_elem_of_filter.
Qed.

Lemma hasAll_true required names :
  hasAll required names = true <-> forall fn, fn ∈ required -> Some fn ∈ names.
Proof.
  unfold hasAll. rewrite forallb_forall. split.
  - intros H fn Hin. apply list_elem_of_In in Hin.
    specialize (H fn Hin). by apply bool_decide_eq_true_1 in H.
  - intros H fn Hin. apply bool_decide_eq_true_2, H. by apply list_elem_of_In.
Qed.

Lemma isERC20_declaresAll abi :
  isERC20 abi = true <-> declaresAll ERC20_requiredFunctions abi.
Proof.
  unfold isERC20, declaresAll. rewrite hasAll_true.
  split; intros H fn Hin; apply elem_of_functionNames, H, Hin.
Qed.

Lemma functionNames_withoutFunction fn abi :
  Some fn ∉ functionNames (withoutFunction fn abi).
Proof.
  rewrite elem_of_functionNames. intros (item & Hin & Hty & Hname).
  apply list_elem_of_filter in Hin as [Hnot _]. by apply Hnot.
Qed.

Lemma functionNames_typeAndName abi :
  functionNames abi =
  list_to_set (snd <$> filter (fun p => p.1 = type_function) (typeAndName <$> abi)).
Proof.
  unfold functionNames. f_equal.
  induction abi as [|item abi IH]; [done|].
  rewrite fmap_cons, !filter_cons. unfold typeAndName at 1. cbn [fst].
  destruct (decide (ABIItem.type item = type_function));
    rewrite ?fmap_cons, IH; reflexivity.
Qed.

(** C9: an ABI whose function names include the nine required ones is
    detected as a fungible token (and only such an ABI is); dropping every
    function that carries one of the required names makes detection fail;
    and detection reads the types and names of the items only, so that
    inputs, outputs and mutability play no part. *)
Theorem isERC20_by_function_names (abi : list ABIItem.t) :
  (declaresAll ERC20_requiredFunctions abi -> isERC20 abi = true) /\
  (isERC20 abi = true -> declaresAll ERC20_requiredFunctions abi) /\
  (forall fn, fn ∈ ERC20_requiredFunctions ->
     isERC20 (withoutFunction fn abi) = false) /\
  (forall abi', typeAndName <$> abi' = typeAndName <$> abi ->
     isERC20 abi' = isERC20 abi).
Proof.
  split; [apply isERC20_declaresAll|].
  split; [apply isERC20_declaresAll|].
  split.
  - intros fn Hin. apply not_true_is_false. unfold isERC20.
    rewrite hasAll_true. intros H.
    by apply (functionNames_withoutFunction fn abi), H.
  - intros abi' Heq. unfold isERC20.
    by rewrite !functionNames_typeAndName, Heq.
Qed.

Lemma isERC20_by_function_names_witness :
  isERC20 erc20Abi = true /\ isERC20 (withoutFunction "transfer" erc20Abi) = false.
Proof.
  destruct (isERC20_by_function_names erc20Abi) as (Hyes & _ & Hno & _).
  split.
  - apply Hyes. intros fn Hin. exists (ABIItem.named type_function fn).
    split; [|done]. by apply list_elem_of_fmap_2.
  - apply Hno. repeat constructor.
Defined.

Example isERC20_ignores_parameters :
  isERC20 (erc20Abi ++ [ABIItem.named type_event "Transfer"]) = true /\
  isERC20 (ABIItem.named type_event <$> ERC20_requiredFunctions) = false /\
  isERC20 [] = false.
Proof. vm_compute. repeat split. Qed.

End ExtractorProperties.

(** ** Role classification *)
Section RoleProperties.
Import JS Extractor Roles.

Lemma elem_of_lowerFunctionNames abi n :
  n ∈ lowerFunctionNames abi <->
  exists item, item ∈ abi /\ ABIItem.type item = type_function /\
               toLowerCase <$> ABIItem.name item = n.
Proof.
  unfold lowerFunctionNames. rewrite elem_of_list_to_set, list_elem_of_fmap.
  split.
  - intros (item & -> & Hin). apply list_elem_of_filter in Hin as [Hty Hin].
    by exists item.
  - intros (item & Hin & Hty & <-). exists item. split; [done|].
    by apply list_elem_of_filter.
Qed.

(** C6: the role of a contract is the role of the first rule of the fixed
    list token, dex, router, factory, lending, vault, governance, oracle,
    bridge, proxy, multisig that matches, and unknown when none does; an ABI
    with functions transfer, approve and balanceOf gives the role token. *)
Theorem detectContractRole_first_match (contract : FetchedContract.t) :
  detectContractRole contract =
    firstMatch roleRules
      (lowerFunctionNames (default [] (FetchedContract.abi contract)))
      (toLowerCase (FetchedContract.contractName contract)) /\
  fst <$> roleRules =
    [Role.token; Role.dex; Role.router; Role.factory; Role.lending;
     Role.vault; Role.governance; Role.oracle; Role.bridge; Role.proxy;
     Role.multisig] /\
  (forall abi, FetchedContract.abi contract = Some abi ->
     declaresAll ["transfer"; "approve"; "balanceOf"] abi ->
     detectContractRole contract = Role.token).
Proof.
  split; [reflexivity|]. split; [reflexivity|].
  intros abi Habi Hall. unfold detectContractRole. rewrite Habi. simpl default.
  assert (Hhas : forall fn, fn ∈ ["transfer"; "approve"; "balanceOf"] ->
                 has (lowerFunctionNames abi) (toLowerCase fn) = true).
  { intros fn Hin. apply bool_decide_eq_true_2, elem_of_lowerFunctionNames.
    destruct (Hall fn Hin) as (item & Hitem & Hty & Hname).
    exists item. by rewrite Hname. }
  assert (H1 := Hhas "transfer" ltac:(repeat constructor)).
  assert (H2 := Hhas "approve" ltac:(repeat constructor)).
  assert (H3 := Hhas "balanceOf" ltac:(repeat constructor)).
  change (toLowerCase "transfer") with "transfer" in H1.
  change (toLowerCase "approve") with "approve" in H2.
  change (toLowerCase "balanceOf") with "balanceof" in H3.
  unfold hasERC20Functions. rewrite H1, H2, H3. reflexivity.
Qed.

Lemma detectContractRole_first_match_witness :
  detectContractRole
    (contractOf "0x1234567890123456789012345678901234567890" "USD"
       (Some erc20Abi) "") = Role.token.
Proof.
  eapply (proj2 (proj2 (detectContractRole_first_match _))); [reflexivity|].
  intros fn Hin. exists (ABIItem.named type_function fn). split; [|done].
  unfold erc20Abi. apply list_elem_of_fmap_2.
  repeat (apply elem_of_cons in Hin as [->|Hin]; [repeat constructor|]).
  by apply elem_of_nil in Hin.
Defined.

(** C10: no contract is given the role router; a name containing "router"
    already selects dex (or token before it). *)
Theorem detectContractRole_never_router (contract : FetchedContract.t) :
  detectContractRole contract <> Role.router.
Proof.
  unfold detectContractRole. cbv zeta.
  destruct (includes (toLowerCase (FetchedContract.contractName contract)) "router").
  - rewrite !orb_true_r. by destruct (_ || _).
  - destruct (_ || _); [discriminate|].
    destruct (_ || _); [discriminate|]. cbv iota.
    repeat match goal with
           | |- (if ?b then _ else _) <> _ => destruct b; [discriminate|]
           end.
    discriminate.
Qed.

Example detectContractRole_demo :
  detectContractRole (contractOf "0x01" "Router" None "") = Role.dex /\
  detectContractRole (contractOf "0x01" "TokenRouter" None "") = Role.token /\
  detectContractRole (contractOf "0x01" "PairFactory" None "") = Role.factory /\
  detectContractRole (contractOf "0x01" "Vault" None "") = Role.unknown.
Proof. vm_compute. repeat split. Qed.

End RoleProperties.

(** ** Batch contract fetcher *)
Section FetcherProperties.
Import JS Fetcher.

Variable axios_get : nat -> string -> AxiosResult.
Variable parseSourceCode : ContractSourceResponse -> list SourceFile.t.
Variable JSON : Type.
Variable JSON_parse : string -> option JSON.
Variable JSON_field : string -> JSON -> option JSON.
Variable JSON_abiArray : JSON -> option (list ABIItem.t).
Variable now : World -> string.
Variable options : FetchOptions.
Variable onProgress : bool.

Local Abbreviation fetchOne :=
  (fetchContract axios_get parseSourceCode JSON JSON_parse JSON_field
     JSON_abiArray now).
Local Abbreviation retry_loop :=
  (fetchContractWithRetry_loop axios_get parseSourceCode JSON JSON_parse
     JSON_field JSON_abiArray now options).
Local Abbreviation retry :=
  (fetchContractWithRetry axios_get parseSourceCode JSON JSON_parse
     JSON_field JSON_abiArray now options).
Local Abbreviation batch_loop :=
  (processBatch_loop axios_get parseSourceCode JSON JSON_parse JSON_field
     JSON_abiArray now options onProgress).
Local Abbreviation runBatch :=
  (processBatch axios_get parseSourceCode JSON JSON_parse JSON_field
     JSON_abiArray now options onProgress).
Local Abbreviation run_loop :=
  (fetchAll_loop axios_get parseSourceCode JSON JSON_parse JSON_field
     JSON_abiArray now options onProgress).
Local Abbreviation run :=
  (fetchAll axios_get parseSourceCode JSON JSON_parse JSON_field
     JSON_abiArray now options onProgress).

(** *** One attempt *)

Local Abbreviation errorOf := (attemptError axios_get).

Lemma attempted_unfold contract w :
  attempted contract w =
  match lookupChain (ContractEntry.blockchain contract) with
  | Some chainId => sent (srcapi chainId (ContractEntry.address contract)) w
  | None => w
  end.
Proof.
  unfold attempted, attemptEvents, sent.
  destruct (lookupChain _); simpl.
  - by rewrite Nat.add_1_r.
  - rewrite Nat.add_0_r, app_nil_r. by destruct w.
Qed.

Lemma fetchContract_error contract w m :
  errorOf contract (requests w) = Some m ->
  fetchOne contract w = (Err m, attempted contract w).
Proof.
  rewrite attempted_unfold. unfold attemptError, fetchContract.
  destruct (lookupChain _) as [chainId|]; [|by intros [= ->]].
  cbv zeta. intros Herr.
  destruct (axios_get _ _) as [m'|data]; simpl in Herr.
  - by injection Herr as ->.
  - destruct (negb (String.eqb (status data) "1")); [by injection Herr as ->|].
    destruct (negb (truthy (result data))); [by injection Herr as ->|].
    discriminate.
Qed.

Lemma fetchContract_ok contract w :
  errorOf contract (requests w) = None ->
  exists fetched,
    fetchOne contract w = (Ok fetched, attempted contract w) /\
    entryOf fetched = contract.
Proof.
  rewrite attempted_unfold. unfold attemptError, fetchContract.
  destruct (lookupChain _) as [chainId|]; [|discriminate].
  cbv zeta. intros Herr.
  destruct (axios_get _ _) as [m'|data]; simpl in Herr; [discriminate|].
  destruct (negb (String.eqb (status data) "1")); [discriminate|].
  destruct (negb (truthy (result data))); [discriminate|].
  eexists. split; [reflexivity|]. by destruct contract.
Qed.

(** An attempt settles one way or the other, in the same world. *)
Lemma fetchContract_attempted contract w :
  exists r, fetchOne contract w = (r, attempted contract w).
Proof.
  destruct (errorOf contract (requests w)) as [m|] eqn:Herr.
  - rewrite (fetchContract_error _ _ _ Herr). eauto.
  - destruct (fetchContract_ok _ _ Herr) as (fetched & -> & _). eauto.
Qed.

(** An attempt observes at most its request, and what it returns is the
    contract that was asked for. *)
Lemma fetchContract_footprint contract w :
  exists evs,
    events (fetchOne contract w).2 = events w ++ evs /\
    handledEntries evs = [] /\
    savedContracts (fetchOne contract w).2 = savedContracts w /\
    (forall fetched, (fetchOne contract w).1 = Ok fetched ->
                     entryOf fetched = contract).
Proof.
  unfold fetchContract.
  destruct (lookupChain (ContractEntry.blockchain contract)) as [chainId|].
  2:{ exists []. simpl. rewrite app_nil_r. by repeat split. }
  cbv zeta. exists [EvRequest (srcapi chainId (ContractEntry.address contract))].
  destruct (axios_get _ _) as [m'|data]; [by repeat split|].
  destruct (negb (String.eqb (status data) "1")); [by repeat split|].
  destruct (negb (truthy (result data))); [by repeat split|].
  repeat split. simpl. intros fetched [= <-]. by destruct contract.
Qed.

(** *** The retry loop *)

Lemma handledEntries_app evs1 evs2 :
  handledEntries (evs1 ++ evs2) = handledEntries evs1 ++ handledEntries evs2.
Proof. apply omap_app. Qed.

Lemma handledEntries_cons e evs :
  handledEntries (e :: evs) =
  match handled e with
  | Some h => h :: handledEntries evs
  | None => handledEntries evs
  end.
Proof. reflexivity. Qed.

Lemma retry_loop_footprint remaining attempt last contract w :
  exists evs,
    events (retry_loop remaining attempt last contract w).2 = events w ++ evs /\
    handledEntries evs = [] /\
    savedContracts (retry_loop remaining attempt last contract w).2
      = savedContracts w /\
    (forall fetched,
       (retry_loop remaining attempt last contract w).1 = Return fetched ->
       entryOf fetched = contract).
Proof.
  revert attempt last w.
  induction remaining as [|remaining IH]; intros attempt last w.
  - exists []. simpl. rewrite app_nil_r. by repeat split.
  - simpl.
    destruct (fetchContract_footprint contract w) as (evs1 & Hev1 & Hh1 & Hs1 & Hf1).
    destruct (fetchOne contract w) as [[fetched|m] w1]; simpl in *.
    + exists evs1. repeat split; try done. intros f [= <-]. by apply Hf1.
    + destruct (includes m "not found" || includes m "not verified").
      { exists evs1. by repeat split. }
      match goal with
      | |- context [retry_loop remaining ?a ?l contract ?w2] =>
          destruct (IH a l w2) as (evs2 & Hev2 & Hh2 & Hs2 & Hf2);
          assert (Hw2 : exists d, events w2 = events w1 ++ d /\
                                  handledEntries d = [] /\
                                  savedContracts w2 = savedContracts w1)
      end.
      { destruct (_ <? _)%Z; [eexists [_]|exists []]; simpl;
          rewrite ?app_nil_r; by repeat split. }
      destruct Hw2 as (d & Hd & Hhd & Hsd).
      exists (evs1 ++ d ++ evs2). repeat split.
      * rewrite Hev2, Hd, Hev1. by rewrite <- !app_assoc.
      * by rewrite !handledEntries_app, Hh1, Hhd, Hh2.
      * by rewrite Hs2, Hsd, Hs1.
      * exact Hf2.
Qed.

(** Without attempts there is no error to raise: [null] is thrown. *)
Lemma fetchContractWithRetry_no_attempt contract w :
  (maxRetries options <= 0)%Z -> retry contract w = (Throw None, w).
Proof.
  intros H. unfold fetchContractWithRetry.
  by replace (Z.to_nat (maxRetries options)) with 0%nat by lia.
Qed.

Lemma backoffEvents_S contract base attempt k :
  backoffEvents contract base attempt (S k) =
  attemptEvents contract ++ [EvDelay (backoffDelay base (Z.of_nat attempt))]
    ++ backoffEvents contract base (S attempt) k.
Proof. unfold backoffEvents. simpl. by rewrite <- app_assoc. Qed.

(** [k] transient failures in a row, none of them the last attempt
    allowed: each is followed by its delay and the loop goes on. *)
Lemma retry_loop_transient contract k :
  forall r attempt last w,
  (forall i, i < k -> exists m,
     errorOf contract (requests w + i * length (attemptEvents contract))
       = Some m /\
     terminal m = false) ->
  (Z.of_nat attempt + Z.of_nat k <= maxRetries options - 1)%Z ->
  exists last',
    retry_loop (k + r) (Z.of_nat attempt) last contract w =
    retry_loop r (Z.of_nat (attempt + k)) last' contract
      (mkWorld (requests w + k * length (attemptEvents contract))
         (events w ++
          backoffEvents contract (delayBetweenRequests options) attempt k)
         (savedContracts w)).
Proof.
  induction k as [|k IH]; intros r attempt last w Hfail Hmax.
  - exists last. simpl. rewrite !Nat.add_0_r, app_nil_r. by destruct w.
  - destruct (Hfail 0%nat ltac:(lia)) as (m & Herr & Hterm).
    rewrite Nat.mul_0_l, Nat.add_0_r in Herr.
    change (S k + r)%nat with (S (k + r)). cbn [fetchContractWithRetry_loop].
    rewrite (fetchContract_error _ _ _ Herr).
    unfold terminal in Hterm. rewrite Hterm.
    replace (Z.of_nat attempt <? maxRetries options - 1)%Z with true
      by (symmetry; apply Z.ltb_lt; lia).
    replace (Z.of_nat attempt + 1)%Z with (Z.of_nat (S attempt)) by lia.
    edestruct (IH r (S attempt) (Some m)) as (last' & ->).
    + intros i Hi. destruct (Hfail (S i) ltac:(lia)) as (m' & Hm' & Hterm').
      exists m'. split; [|done]. simpl.
      by replace (requests w + length (attemptEvents contract)
                  + i * length (attemptEvents contract))%nat
        with (requests w + S i * length (attemptEvents contract))%nat by lia.
    + lia.
    + exists last'. rewrite backoffEvents_S.
      replace (S attempt + k)%nat with (attempt + S k)%nat by lia.
      f_equal. unfold delay, emit, attempted.
      cbn [requests events savedContracts].
      rewrite <- !app_assoc. f_equal. lia.
Qed.

Lemma attempted_afterAttempts contract base k w :
  attempted contract
    (mkWorld (requests w + k * length (attemptEvents contract))
       (events w ++ backoffEvents contract base 0 k) (savedContracts w))
  = afterAttempts contract base k w.
Proof.
  unfold attempted, afterAttempts. simpl. f_equal; [lia|].
  by rewrite <- app_assoc.
Qed.

Lemma beforeAttempt_attempted contract base k w :
  attempted contract (beforeAttempt contract base k w)
  = afterAttempts contract base k w.
Proof. apply attempted_afterAttempts. Qed.

(** What an attempt raises is what [attemptError] tells. *)
Lemma fetchContract_Err contract w m :
  (fetchOne contract w).1 = Err m <-> errorOf contract (requests w) = Some m.
Proof.
  destruct (errorOf contract (requests w)) as [m'|] eqn:Herr.
  - rewrite (fetchContract_error _ _ _ Herr). simpl.
    split; intros [= ->]; done.
  - destruct (fetchContract_ok _ _ Herr) as (fetched & -> & _). simpl.
    split; discriminate.
Qed.

(** The contract a successful attempt returns: the fields of the entry,
    the chain id of the table, and what the response carries. *)
Lemma fetchContract_Ok contract w fetched :
  (fetchOne contract w).1 = Ok fetched ->
  exists chainId data,
    lookupChain (ContractEntry.blockchain contract) = Some chainId /\
    axios_get (requests w) (srcapi chainId (ContractEntry.address contract))
      = Resolved data /\
    status data = "1" /\ truthy (result data) = true /\
    fetched =
      FetchedContract.mk (ContractEntry.address contract)
        (ContractEntry.blockchain contract) chainId
        (ContractEntry.contract_name contract)
        (ContractEntry.protocol contract) (default "" (result data))
        (extractABI JSON JSON_parse JSON_field JSON_abiArray data)
        (now (attempted contract w)) (parseSourceCode data) None None None.
Proof.
  rewrite attempted_unfold. unfold fetchContract.
  destruct (lookupChain _) as [chainId|]; [|discriminate].
  cbv zeta.
  destruct (axios_get _ _) as [m'|data] eqn:Hget; [discriminate|].
  destruct (String.eqb_spec (status data) "1") as [Hst|Hst]; [|discriminate].
  cbn [negb]. destruct (truthy (result data)) eqn:Hres; [|discriminate].
  cbn [negb fst]. intros [= <-]. by exists chainId, data.
Qed.

(** After [k] transient failures, attempt [k] decides: a success is
    returned as it is, a terminal error or the error of the last attempt
    allowed is thrown, and nothing is observed after that attempt. *)
Lemma retry_after_transient contract w k :
  let base := delayBetweenRequests options in
  (forall i, i < k -> exists m,
     (fetchOne contract (beforeAttempt contract base i w)).1 = Err m /\
     terminal m = false) ->
  k < Z.to_nat (maxRetries options) ->
  (fetchOne contract (beforeAttempt contract base k w)).2
    = afterAttempts contract base k w /\
  match (fetchOne contract (beforeAttempt contract base k w)).1 with
  | Err m =>
      terminal m = true \/ S k = Z.to_nat (maxRetries options) ->
      retry contract w = (Throw (Some m), afterAttempts contract base k w)
  | Ok fetched =>
      retry contract w = (Return fetched, afterAttempts contract base k w)
  end.
Proof.
  intros base Hfail Hk.
  assert (Hfail' : forall i, i < k -> exists m,
            errorOf contract (requests w + i * length (attemptEvents contract))
              = Some m /\ terminal m = false).
  { intros i Hi. destruct (Hfail i Hi) as (m & Hm & Hterm).
    exists m. split; [|done]. by apply fetchContract_Err in Hm. }
  destruct (fetchContract_attempted contract (beforeAttempt contract base k w))
    as (r & Hr).
  rewrite beforeAttempt_attempted in Hr.
  split; [by rewrite Hr|].
  unfold fetchContractWithRetry.
  destruct (Z.to_nat (maxRetries options)) as [|n] eqn:HN; [lia|].
  replace (S n) with (k + S (n - k))%nat by lia.
  destruct (retry_loop_transient contract k (S (n - k)) 0%nat None w)
    as (last' & Hloop); [done|lia|].
  change (Z.of_nat 0) with 0%Z in Hloop. change (0 + k)%nat with k in Hloop.
  rewrite Hloop. cbn [fetchContractWithRetry_loop].
  fold base. fold (beforeAttempt contract base k w).
  rewrite Hr. cbn [fst]. destruct r as [fetched|m]; [done|].
  intros Hlast. unfold terminal in Hlast.
  destruct (includes m "not found" || includes m "not verified"); [done|].
  destruct Hlast as [|Hlast]; [done|].
  replace (Z.of_nat k <? maxRetries options - 1)%Z with false
    by (symmetry; apply Z.ltb_ge; lia).
  replace (n - k)%nat with 0%nat by lia. reflexivity.
Qed.

(** A batch of one contract. *)
Lemma processBatch_single contract idx st w :
  runBatch [contract] idx st w =
  let w0 := if onProgress then emit (EvProgress contract) w else w in
  match retry contract w0 with
  | (Return fetched, w1) =>
      ([fetched], st, emit (EvFetched (idx + 0) contract) w1)
  | (Throw error, w1) =>
      ([], pushFailed (ContractEntry.address contract) st,
       emit (EvFailed (idx + 0) contract (errorMsgOf error)) w1)
  end.
Proof.
  unfold processBatch. cbn [processBatch_loop length]. cbv zeta.
  by destruct (retry contract _) as [[fetched|error] w1].
Qed.

Lemma backoffDelay_in_range base attempt :
  (0 <= attempt < 1024)%Z ->
  (- 2 ^ 1024 < base * 2 ^ attempt < 2 ^ 1024)%Z ->
  backoffDelay base attempt = Num (base * 2 ^ attempt).
Proof.
  intros Ha Hp. unfold backoffDelay.
  replace (attempt <? 1024)%Z with true by (symmetry; apply Z.ltb_lt; lia).
  cbv zeta.
  replace (2 ^ 1024 <=? base * 2 ^ attempt)%Z with false
    by (symmetry; apply Z.leb_gt; lia).
  by replace (base * 2 ^ attempt <=? - 2 ^ 1024)%Z with false
    by (symmetry; apply Z.leb_gt; lia).
Qed.

(** C1: for every contract entry and every limit [maxRetries], after [k]
    attempts that failed with transient errors, each followed by its
    backoff delay, attempt [k] of the [maxRetries] allowed decides the
    fetch; the attempts are the calls of [fetchContract] in the worlds the
    loop reaches.  If attempt [k] raises a not-found or not-verified error,
    that error is thrown at once, with no delay and no attempt after it; if
    it raises a transient error and is the last attempt allowed, that error
    is thrown; if it raises a transient error and is not the last, the
    delay of attempt [k] and one more attempt follow; if it returns a
    contract, that very contract is the result: the fields of the entry,
    the chain id, and the source, ABI and files of the response.  In a
    batch whose fetch starts in that world, the returned contract is the
    one result and no failed address is recorded, a thrown error records
    the address once and no result.  The delay of attempt [i] is
    base * 2^i as long as that number is in the range of the doubles. *)
Theorem fetchContractWithRetry_policy contract w k :
  let base := delayBetweenRequests options in
  let attemptAt i := fetchOne contract (beforeAttempt contract base i w) in
  let started wb := if onProgress then emit (EvProgress contract) wb else wb in
  let after := afterAttempts contract base k w in
  (forall i, i < k -> exists m,
     (attemptAt i).1 = Err m /\ terminal m = false) ->
  k < Z.to_nat (maxRetries options) ->
  (attemptAt k).2 = after /\
  (forall m, (attemptAt k).1 = Err m ->
     terminal m = true \/ S k = Z.to_nat (maxRetries options) ->
     retry contract w = (Throw (Some m), after) /\
     forall idx st wb, started wb = w ->
       runBatch [contract] idx st wb =
         ([], pushFailed (ContractEntry.address contract) st,
          emit (EvFailed (idx + 0) contract m) after)) /\
  (forall m, (attemptAt k).1 = Err m -> terminal m = false ->
     S k < Z.to_nat (maxRetries options) ->
     exists later,
       events (retry contract w).2 =
         events w ++ backoffEvents contract base 0 k
                  ++ attemptEvents contract
                  ++ [EvDelay (backoffDelay base (Z.of_nat k))]
                  ++ attemptEvents contract ++ later) /\
  (forall fetched, (attemptAt k).1 = Ok fetched ->
     retry contract w = (Return fetched, after) /\
     (exists chainId data,
        lookupChain (ContractEntry.blockchain contract) = Some chainId /\
        axios_get (requests w + k)
          (srcapi chainId (ContractEntry.address contract)) = Resolved data /\
        fetched =
          FetchedContract.mk (ContractEntry.address contract)
            (ContractEntry.blockchain contract) chainId
            (ContractEntry.contract_name contract)
            (ContractEntry.protocol contract) (default "" (result data))
            (extractABI JSON JSON_parse JSON_field JSON_abiArray data)
            (now after) (parseSourceCode data) None None None) /\
     forall idx st wb, started wb = w ->
       runBatch [contract] idx st wb =
         ([fetched], st, emit (EvFetched (idx + 0) contract) after)) /\
  (forall i, (Z.of_nat i < 1024)%Z ->
     (- 2 ^ 1024 < base * 2 ^ Z.of_nat i < 2 ^ 1024)%Z ->
     backoffDelay base (Z.of_nat i) = Num (base * 2 ^ Z.of_nat i)).
Proof.
  intros base attemptAt started after Hfail Hk.
  destruct (retry_after_transient contract w k Hfail Hk) as [Hworld Hretry].
  fold base in Hworld, Hretry. fold (attemptAt k) in Hworld, Hretry.
  fold after in Hworld, Hretry.
  split; [exact Hworld|].
  split; [|split; [|split]].
  - intros m Hm Hlast. rewrite Hm in Hretry. specialize (Hretry Hlast).
    split; [exact Hretry|].
    intros idx st wb Hwb. rewrite processBatch_single. cbv zeta.
    fold (started wb). by rewrite Hwb, Hretry.
  - intros m Hm Hterm Hlater.
    assert (Hfail1 : forall i, i < S k -> exists m',
              (attemptAt i).1 = Err m' /\ terminal m' = false).
    { intros i Hi. destruct (decide (i = k)) as [->|Hne]; [eauto|].
      apply Hfail. lia. }
    destruct (retry_after_transient contract w (S k) Hfail1 Hlater)
      as [Hworld1 _].
    fold base in Hworld1. fold (attemptAt (S k)) in Hworld1.
    assert (Hfail' : forall i, i < S k -> exists m',
              errorOf contract
                (requests w + i * length (attemptEvents contract)) = Some m' /\
              terminal m' = false).
    { intros i Hi. destruct (Hfail1 i Hi) as (m' & Hm' & Hterm').
      exists m'. split; [|done]. by apply fetchContract_Err in Hm'. }
    unfold fetchContractWithRetry.
    replace (Z.to_nat (maxRetries options))
      with (S k + S (Z.to_nat (maxRetries options) - S k - 1))%nat by lia.
    destruct (retry_loop_transient contract (S k)
                (S (Z.to_nat (maxRetries options) - S k - 1)) 0%nat None w
                Hfail' ltac:(lia)) as (last' & Hloop).
    change (Z.of_nat 0) with 0%Z in Hloop.
    change (0 + S k)%nat with (S k) in Hloop.
    rewrite Hloop. fold base. fold (beforeAttempt contract base (S k) w).
    cbn [fetchContractWithRetry_loop].
    assert (Hsent : events (afterAttempts contract base (S k) w)
                    = events w ++ backoffEvents contract base 0 k
                        ++ attemptEvents contract
                        ++ [EvDelay (backoffDelay base (Z.of_nat k))]
                        ++ attemptEvents contract).
    { unfold afterAttempts, backoffEvents. cbn [events].
      rewrite seq_S, flat_map_app. cbn [flat_map Nat.add].
      by rewrite app_nil_r, <- !app_assoc. }
    fold (attemptAt (S k)).
    destruct (attemptAt (S k)) as [[fetched|m'] w1]; cbn [snd] in Hworld1;
      subst w1; [exists []; cbn [snd]; by rewrite Hsent, !app_nil_r|].
    destruct (_ || _); [exists []; cbn [snd]; by rewrite Hsent, !app_nil_r|].
    match goal with
    | |- context [retry_loop ?n ?a ?l contract ?w2] =>
        destruct (retry_loop_footprint n a l contract w2) as (evs & -> & _);
        assert (Hw2 : exists d,
                  events w2 = events (afterAttempts contract base (S k) w) ++ d)
    end.
    { destruct (_ <? _)%Z; [eexists [_]|exists []]; simpl;
        by rewrite ?app_nil_r. }
    destruct Hw2 as (d & ->). rewrite Hsent. exists (d ++ evs).
    by rewrite <- !app_assoc.
  - intros fetched Hok. rewrite Hok in Hretry.
    split; [exact Hretry|]. split.
    + destruct (fetchContract_Ok _ _ _ Hok)
        as (chainId & data & Hchain & Hget & _ & _ & ->).
      exists chainId, data. split; [done|].
      rewrite beforeAttempt_attempted. fold after.
      split; [|done]. rewrite <- Hget. f_equal.
      unfold beforeAttempt, attemptEvents. cbn [requests].
      rewrite Hchain. simpl. lia.
    + intros idx st wb Hwb. rewrite processBatch_single. cbv zeta.
      fold (started wb). by rewrite Hwb, Hretry.
  - intros i Hi Hrange. apply backoffDelay_in_range; lia.
Qed.

(** *** Batches *)

Local Abbreviation effect := (batchEffect retry).

Lemma batchEffect_nil results st w : effect [] results results st st w w.
Proof.
  exists [], []. rewrite !app_nil_r. by repeat split.
Qed.

(** The effect of one entry, followed by the effect of the entries after
    it. *)
Lemma batchEffect_cons contract rest out w0 w1 w2 results results' st st' st1
    w w' line :
  retry contract w0 = (out, w1) ->
  handled line = Some (reported (mkEntryFetch contract w0 out)) ->
  (exists p, events w0 = events w ++ p /\ handledEntries p = []) ->
  (exists evs1, events w1 = events w0 ++ evs1 /\ handledEntries evs1 = []) ->
  (exists d, events w2 = events w1 ++ line :: d /\ handledEntries d = []) ->
  failedContracts st1
    = failedContracts st
        ++ omap failedAddress [mkEntryFetch contract w0 out] ->
  effect rest (results ++ omap returned [mkEntryFetch contract w0 out])
    results' st1 st' w2 w' ->
  effect (contract :: rest) results results' st st' w w'.
Proof.
  intros Hretry Hline (p & Hp & Hhp) (evs1 & Hev1 & Hh1) (d & Hd & Hhd) Hst1
    (evs2 & fetches & He2 & Hentries & Hall & Hh2 & Hr2 & Hf2).
  exists (p ++ evs1 ++ line :: d ++ evs2),
         (mkEntryFetch contract w0 out :: fetches).
  assert (Hw0w' : events w' = events w0 ++ evs1 ++ line :: d ++ evs2).
  { rewrite He2, Hd, Hev1. by rewrite <- !app_assoc. }
  split; [by rewrite Hw0w', Hp, <- !app_assoc|].
  split; [by rewrite fmap_cons, Hentries|].
  split.
  { constructor.
    - cbn [entry startedIn settled]. rewrite Hretry.
      split; [done|]. split; [by exists p|by eexists].
    - eapply Forall_impl; [exact Hall|]. intros f (Hf & Hpre & Hpost).
      split; [done|]. split; [|done].
      etrans; [|exact Hpre]. exists (p ++ evs1 ++ line :: d).
      rewrite Hd, Hev1, Hp. by rewrite <- !app_assoc. }
  split.
  { rewrite !handledEntries_app, Hhp, Hh1. cbn [app].
    rewrite handledEntries_cons, Hline, handledEntries_app, Hhd, Hh2.
    by rewrite fmap_cons. }
  split.
  - rewrite Hr2, <- app_assoc. f_equal.
    unfold returned at 1 3. cbn [omap list_omap settled].
    by destruct out.
  - rewrite Hf2, Hst1, <- app_assoc. f_equal.
    unfold failedAddress at 1 3. cbn [omap list_omap settled].
    by destruct out.
Qed.

Lemma processBatch_loop_effect rest i n idx results st w :
  exists results' st' w',
    batch_loop rest i n idx results st w = (results', st', w') /\
    effect rest results results' st st' w w'.
Proof.
  revert i results st w.
  induction rest as [|contract rest IH]; intros i results st w.
  - exists results, st, w. split; [done|apply batchEffect_nil].
  - cbn [processBatch_loop]. cbv zeta.
    set (w0 := if onProgress then emit (EvProgress contract) w else w).
    assert (Hw0 : exists p, events w0 = events w ++ p /\ handledEntries p = []).
    { unfold w0. destruct onProgress; [eexists [_]|exists []]; simpl;
        rewrite ?app_nil_r; by split. }
    destruct (retry_loop_footprint (Z.to_nat (maxRetries options)) 0 None
                contract w0) as (evs1 & Hev1 & Hh1 & _ & _).
    fold (retry contract w0) in Hev1.
    destruct (retry contract w0) as [[fetched|error] w1] eqn:Hretry;
      cbn [fst snd] in *.
    + match goal with
      | |- context [batch_loop rest ?j n idx ?r ?s ?w2] =>
          destruct (IH j r s w2) as (results' & st' & w' & -> & H2);
          assert (Hw2 : exists d, events w2 = events w1 ++
                      EvFetched (idx + Z.of_nat i) contract :: d /\
                    handledEntries d = [])
      end.
      { destruct (_ <? _)%nat; [eexists [_]|exists []]; simpl;
          rewrite <- ?app_assoc; by split. }
      exists results', st', w'. split; [done|].
      refine (batchEffect_cons contract rest (Return fetched) w0 w1 _ results
                results' st st' st w w'
                (EvFetched (idx + Z.of_nat i) contract) Hretry eq_refl Hw0
                (ex_intro _ evs1 (conj Hev1 Hh1)) Hw2 _ H2).
      cbn. by rewrite app_nil_r.
    + match goal with
      | |- context [batch_loop rest ?j n idx ?r ?s ?w2] =>
          destruct (IH j r s w2) as (results' & st' & w' & -> & H2);
          assert (Hw2 : exists d, events w2 = events w1 ++
                      EvFailed (idx + Z.of_nat i) contract (errorMsgOf error)
                        :: d /\
                    handledEntries d = [])
      end.
      { destruct (_ <? _)%nat; [eexists [_]|exists []]; simpl;
          rewrite <- ?app_assoc; by split. }
      exists results', st', w'. split; [done|].
      refine (batchEffect_cons contract rest (Throw error) w0 w1 _ results
                results' st st'
                (pushFailed (ContractEntry.address contract) st) w w'
                (EvFailed (idx + Z.of_nat i) contract (errorMsgOf error))
                Hretry eq_refl Hw0
                (ex_intro _ evs1 (conj Hev1 Hh1)) Hw2 eq_refl _).
      cbn [omap list_omap returned settled]. rewrite app_nil_r. exact H2.
Qed.

(** The effect of a batch, followed by the effect of the batches after
    it. *)
Lemma batchEffect_app entries1 entries2 results results1 results' st st1 st2
    st' w w1 w3 w' :
  effect entries1 [] results1 st st1 w w1 ->
  failedContracts st2 = failedContracts st1 ->
  (exists d, events w3 = events w1 ++ d /\ handledEntries d = []) ->
  effect entries2 (results ++ results1) results' st2 st' w3 w' ->
  effect (entries1 ++ entries2) results results' st st' w w'.
Proof.
  intros (evs1 & fetches1 & He1 & Hent1 & Hall1 & Hh1 & Hr1 & Hf1) Hst2
    (d & Hd & Hhd)
    (evs2 & fetches2 & He2 & Hent2 & Hall2 & Hh2 & Hr2 & Hf2).
  exists (evs1 ++ d ++ evs2), (fetches1 ++ fetches2).
  assert (Hw' : events w' = events w ++ evs1 ++ d ++ evs2).
  { rewrite He2, Hd, He1. by rewrite <- !app_assoc. }
  split; [exact Hw'|].
  split; [by rewrite fmap_app, Hent1, Hent2|].
  split.
  { apply Forall_app. split.
    - eapply Forall_impl; [exact Hall1|]. intros f (Hf & Hpre & Hpost).
      split; [done|]. split; [done|].
      etrans; [exact Hpost|]. exists (d ++ evs2).
      rewrite He2, Hd. by rewrite <- !app_assoc.
    - eapply Forall_impl; [exact Hall2|]. intros f (Hf & Hpre & Hpost).
      split; [done|]. split; [|done].
      etrans; [|exact Hpre]. exists (evs1 ++ d).
      rewrite Hd, He1. by rewrite <- !app_assoc. }
  split; [by rewrite !handledEntries_app, Hhd, Hh1, Hh2, fmap_app|].
  split.
  - rewrite Hr2, Hr1, omap_app. cbn [app]. by rewrite <- app_assoc.
  - rewrite Hf2, Hst2, Hf1, omap_app. by rewrite <- app_assoc.
Qed.

(** *** The run *)

Lemma slice_batch {A} (l : list A) (i bs : Z) :
  (0 <= i)%Z -> (0 < bs)%Z ->
  slice l i (i + bs) = take (Z.to_nat bs) (drop (Z.to_nat i) l).
Proof.
  intros Hi Hbs. unfold slice, clampIndex.
  replace (i <? 0)%Z with false by (symmetry; apply Z.ltb_ge; lia).
  replace (i + bs <? 0)%Z with false by (symmetry; apply Z.ltb_ge; lia).
  destruct (decide (Z.of_nat (length l) <= i)%Z) as [Hge|Hlt].
  - rewrite (drop_ge l (Z.to_nat i)) by lia.
    rewrite drop_ge by lia. by rewrite !take_nil.
  - replace (Z.min i (Z.of_nat (length l))) with i by lia.
    destruct (decide (i + bs <= Z.of_nat (length l))%Z).
    + f_equal. lia.
    + rewrite !take_ge; [done | rewrite length_drop; lia | rewrite length_drop; lia].
Qed.

Lemma fetchAll_loop_effect contracts m :
  (0 < batchSize options)%Z ->
  forall i results st w,
  (0 <= i)%Z ->
  (Z.to_nat (Z.of_nat (length contracts) - i) <= m)%nat ->
  exists fuel results' st' w',
    run_loop fuel contracts i results st w = Some (results', st', w') /\
    effect (drop (Z.to_nat i) contracts) results results' st st' w w'.
Proof.
  intros Hbs. induction m as [|m IH]; intros i results st w Hi Hm.
  - exists 0%nat, results, st, w. split.
    + simpl. by replace (i <? Z.of_nat (length contracts))%Z with false
        by (symmetry; apply Z.ltb_ge; lia).
    + rewrite drop_ge by lia. apply batchEffect_nil.
  - destruct (decide (Z.of_nat (length contracts) <= i)%Z) as [Hge|Hlt].
    { exists 0%nat, results, st, w. split.
      + simpl. by replace (i <? Z.of_nat (length contracts))%Z with false
          by (symmetry; apply Z.ltb_ge; lia).
      + rewrite drop_ge by lia. apply batchEffect_nil. }
    set (batch := slice contracts i (i + batchSize options)).
    destruct (processBatch_loop_effect batch 0 (length batch) i [] st w)
      as (br & st1 & w1 & Hbatch & Heffect1).
    fold (runBatch batch i st w) in Hbatch.
    set (results1 := results ++ br).
    set (st2 := mkProcessingStatus (totalContracts st1)
                  (Z.of_nat (length results1)) (failedContracts st1)
                  (Z.min (i + batchSize options - 1)
                         (Z.of_nat (length contracts) - 1))
                  (startedAt st1) (now w1)).
    set (w2 := if saveProgress options then saveProgress_to_disk results1 st2 w1
               else w1).
    set (w3 := if (i + batchSize options <? Z.of_nat (length contracts))%Z
               then delay (delayBetweenBatches options) w2 else w2).
    assert (Hw3 : exists d, events w3 = events w1 ++ d /\ handledEntries d = []).
    { unfold w3, w2.
      destruct (saveProgress options), (_ <? _)%Z;
        [eexists [_; _] | eexists [_] | eexists [_] | exists []];
        simpl; rewrite <- ?app_assoc, ?app_nil_r; by split. }
    destruct (IH (i + batchSize options)%Z results1 st2 w3)
      as (fuel & results' & st' & w' & Hrun & Heffect2); [lia|lia|].
    exists (S fuel), results', st', w'. split.
    + cbn [fetchAll_loop]. cbv zeta.
      replace (i <? Z.of_nat (length contracts))%Z with true
        by (symmetry; apply Z.ltb_lt; lia).
      fold batch. rewrite Hbatch. exact Hrun.
    + replace (drop (Z.to_nat i) contracts)
        with (batch ++ drop (Z.to_nat (i + batchSize options)) contracts).
      2:{ unfold batch. rewrite slice_batch by lia.
          rewrite Z2Nat.inj_add by lia.
          rewrite <- drop_drop. apply take_drop. }
      by eapply (batchEffect_app batch _ results br results' st st1 st2 st' w
                   w1 w3 w').
Qed.


End FetcherProperties.

Section FetcherScenarios.
Import Fetcher Fetcher.Demo.

Lemma fetchContractWithRetry_policy_witness :
  let w := emit (EvProgress token) initialWorld in
  retryWith (failingThen 2 timeout okResponse) token w =
    (Return (fetchedOf token), afterAttempts token 200 2 w) /\
  batchWith (failingThen 2 timeout okResponse) [token] 0 (initialStatus "t")
    initialWorld =
    ([fetchedOf token], initialStatus "t",
     emit (EvFetched 0 token) (afterAttempts token 200 2 w)).
Proof.
  intros w.
  destruct (fetchContractWithRetry_policy (failingThen 2 timeout okResponse)
              noSources unit noJSON noField noAbi clock DEFAULT_FETCH_OPTIONS
              true token w 2) as (_ & _ & _ & Hok & _).
  - intros i Hi. exists timeout.
    destruct i as [|[|i]]; [split; reflexivity | split; reflexivity | lia].
  - simpl. lia.
  - destruct (Hok (fetchedOf token) eq_refl) as (Hret & _ & Hbatch).
    split; [exact Hret|]. exact (Hbatch 0%Z (initialStatus "t") initialWorld eq_refl).
Defined.

(** Two timeouts, then an answer: three requests, delays of 200 and 400. *)
Example retry_then_success :
  retryWith (failingThen 2 timeout okResponse) token initialWorld =
    (Return (fetchedOf token),
     mkWorld 3
       [EvRequest (srcapi (ownId "1") (ContractEntry.address token)); EvDelay 200;
        EvRequest (srcapi (ownId "1") (ContractEntry.address token)); EvDelay 400;
        EvRequest (srcapi (ownId "1") (ContractEntry.address token))] None).
Proof. vm_compute. reflexivity. Qed.

(** Three timeouts: the third is thrown, and no delay follows it. *)
Example retry_exhausted :
  retryWith (fun _ _ => Rejected timeout) token initialWorld =
    (Throw (Some timeout),
     mkWorld 3
       [EvRequest (srcapi (ownId "1") (ContractEntry.address token)); EvDelay 200;
        EvRequest (srcapi (ownId "1") (ContractEntry.address token)); EvDelay 400;
        EvRequest (srcapi (ownId "1") (ContractEntry.address token))] None).
Proof. vm_compute. reflexivity. Qed.

(** Not verified: one request, no retry, one failed address. *)
Example not_verified_is_not_retried :
  batchWith (fun _ _ => notVerified) [token] 0 (initialStatus "t") initialWorld =
    ([], pushFailed (ContractEntry.address token) (initialStatus "t"),
     mkWorld 1
       [EvProgress token;
        EvRequest (srcapi (ownId "1") (ContractEntry.address token));
        EvFailed 0 token "Contract source code not verified"] None).
Proof. vm_compute. reflexivity. Qed.

(** An unsupported chain is an ordinary error: retried, without requests. *)
Example unsupported_chain_is_retried :
  retryWith (fun _ _ => okResponse)
    (ContractEntry.mk "0x1234567890123456789012345678901234567890" "solana"
       "Token" "test") initialWorld =
    (Throw (Some "Unsupported blockchain: solana"),
     mkWorld 0 [EvDelay 200; EvDelay 400] None).
Proof. vm_compute. reflexivity. Qed.

(** A batch whose second contract fails goes on to the third. *)
Example batch_goes_on_after_failure :
  batchWith explorer [token; other; third] 0 (initialStatus "t") initialWorld =
    ([fetchedOf token; fetchedOf third],
     pushFailed (ContractEntry.address other) (initialStatus "t"),
     mkWorld 3
       [EvProgress token;
        EvRequest (srcapi (ownId "1") (ContractEntry.address token));
        EvFetched 0 token; EvDelay 200;
        EvProgress other;
        EvRequest (srcapi (ownId "1") (ContractEntry.address other));
        EvFailed 1 other "Contract source code not verified"; EvDelay 200;
        EvProgress third;
        EvRequest (srcapi (ownId "1") (ContractEntry.address third));
        EvFetched 2 third] None).
Proof. vm_compute. reflexivity. Qed.


(** The run of the three contracts, in full: the second fetch throws, its
    address is the one failed address, and the contracts the first and the
    third fetch return are the results, in the file as well. *)
Example run_goes_on_after_failure :
  exists w',
    runWith explorer 1 [token; other; third] (initialStatus "t") initialWorld
      = Some ([fetchedOf token; fetchedOf third],
              mkProcessingStatus 3 2 [ContractEntry.address other] 2
                "2024-01-01T00:00:00.000Z" "2024-01-01T00:00:00.000Z", w') /\
    savedContracts w' = Some [fetchedOf token; fetchedOf third] /\
    (retryWith explorer other
       (emit (EvProgress other)
          (mkWorld 1 [EvProgress token;
                      EvRequest (srcapi (ownId "1") (ContractEntry.address token));
                      EvFetched 0 token; EvDelay 200] None))).1
    = Throw (Some "Contract source code not verified").
Proof. eexists. vm_compute. repeat split. Qed.

End FetcherScenarios.

(** ** Insertion-ordered maps and sets *)
Section ContainerFacts.
Import JS.

Lemma fold_left_preserves {A B} (P : A -> Prop) (f : A -> B -> A) (l : list B) a :
  P a -> (forall a x, x ∈ l -> P a -> P (f a x)) -> P (fold_left f l a).
Proof.
  revert a. induction l as [|x l IH]; intros a Ha Hf; simpl; [done|].
  apply IH.
  - apply Hf; [left|done].
  - intros a' y Hy. apply Hf. by right.
Qed.

Lemma mapSet_keys {V} k (v : V) (m : list (string * V)) :
  (mapSet k v m).*1 = if bool_decide (k ∈ m.*1) then m.*1 else m.*1 ++ [k].
Proof.
  induction m as [|[k' v'] m IH]; [done|]. cbn [mapSet].
  destruct (String.eqb_spec k' k) as [->|Hne]; rewrite !fmap_cons; cbn [fst].
  - rewrite bool_decide_eq_true_2 by left. done.
  - rewrite IH. case_bool_decide as Hin.
    + rewrite bool_decide_eq_true_2 by (by right). done.
    + rewrite bool_decide_eq_false_2; [done|].
      intros [?|?]%elem_of_cons; congruence.
Qed.

Lemma mapSet_elem_of_keys {V} k (v : V) (m : list (string * V)) k' :
  k' ∈ (mapSet k v m).*1 <-> k' = k \/ k' ∈ m.*1.
Proof.
  rewrite mapSet_keys. case_bool_decide as Hin.
  - split; [auto|]. intros [->|?]; done.
  - rewrite elem_of_app, list_elem_of_singleton. tauto.
Qed.

Lemma mapSet_NoDup {V} k (v : V) (m : list (string * V)) :
  NoDup m.*1 -> NoDup (mapSet k v m).*1.
Proof.
  intros Hm. rewrite mapSet_keys. case_bool_decide as Hin; [done|].
  apply NoDup_app. repeat split; [done| |apply NoDup_singleton].
  intros x Hx ->%list_elem_of_singleton. done.
Qed.

Lemma mapSet_elem_of {V} k (v : V) (m : list (string * V)) k' v' :
  (k', v') ∈ mapSet k v m -> (k', v') = (k, v) \/ (k', v') ∈ m.
Proof.
  induction m as [|[k0 v0] m IH]; simpl.
  - intros ->%list_elem_of_singleton. by left.
  - destruct (String.eqb k0 k).
    + intros [->|?]%elem_of_cons; [by left|]. right. by right.
    + intros [->|H]%elem_of_cons; [right; left|].
      destruct (IH H) as [?|?]; [by left|]. right. by right.
Qed.

Lemma mapGet_elem_of {V} k (m : list (string * V)) v :
  mapGet k m = Some v -> (k, v) ∈ m.
Proof.
  induction m as [|[k0 v0] m IH]; simpl; [done|].
  destruct (String.eqb_spec k0 k) as [->|Hne].
  - intros [= ->]. left.
  - intros H. right. by apply IH.
Qed.

Lemma mapHas_elem_of {V} k (m : list (string * V)) :
  mapHas k m = true -> k ∈ m.*1.
Proof.
  unfold mapHas. destruct (mapGet k m) as [v|] eqn:Hget; [|done].
  intros _. apply mapGet_elem_of in Hget.
  by apply (list_elem_of_fmap_2 fst) in Hget.
Qed.

Lemma setAdd_elem_of x s y : y ∈ setAdd x s -> y = x \/ y ∈ s.
Proof.
  unfold setAdd. case_bool_decide; [auto|].
  rewrite elem_of_app, list_elem_of_singleton. tauto.
Qed.

End ContainerFacts.

(** ** Code graph builder *)
Section CodeGraphProperties.
Import JS CodeGraph.

Variable extractFunctionSignatures : list ABIItem.t -> list string.
Variable extractEventSignatures : list ABIItem.t -> list string.
Variable extractInterfacesFromSource : string -> list string.
Variable extractInheritance : string -> list string.
Variable extractExternalCalls : string -> list string.
Variable extractImports : string -> list string.

Local Abbreviation mkNode :=
  (buildNode extractFunctionSignatures extractEventSignatures
     extractInterfacesFromSource extractInheritance extractExternalCalls
     extractImports).
Local Abbreviation nodeOf :=
  (setNode extractFunctionSignatures extractEventSignatures
     extractInterfacesFromSource extractInheritance extractExternalCalls
     extractImports).
Local Abbreviation edgesFor :=
  (buildEdgesForContract extractInterfacesFromSource extractInheritance
     extractExternalCalls extractImports).
Local Abbreviation add :=
  (addContracts extractFunctionSignatures extractEventSignatures
     extractInterfacesFromSource extractInheritance extractExternalCalls
     extractImports).
Local Abbreviation reached :=
  (after extractFunctionSignatures extractEventSignatures
     extractInterfacesFromSource extractInheritance extractExternalCalls
     extractImports).

(** *** Adding one edge *)

Lemma hasEdge_elem_of b s t r :
  hasEdge b s t r = true <-> (s, t, r) ∈ ContractEdge.key <$> edges b.
Proof.
  unfold hasEdge. rewrite existsb_exists, list_elem_of_fmap. split.
  - intros (e & Hin & H). apply list_elem_of_In in Hin.
    apply andb_prop in H as [H Hr]. apply andb_prop in H as [Hs Ht].
    apply String.eqb_eq in Hs, Ht. apply bool_decide_eq_true_1 in Hr.
    exists e. split; [|done]. unfold ContractEdge.key. by rewrite Hs, Ht, Hr.
  - intros (e & Hkey & Hin). exists e. split; [by apply list_elem_of_In|].
    unfold ContractEdge.key in Hkey. injection Hkey as -> -> ->.
    rewrite !String.eqb_refl. by rewrite bool_decide_eq_true_2.
Qed.

Lemma hasEdge_edgesWithKey b s t r :
  hasEdge b s t r = false -> edgesWithKey s t r (edges b) = [].
Proof.
  intros Hno. unfold edgesWithKey.
  induction (edges b) as [|e es IH] eqn:Hes in b, Hno |- *; [done|].
  rewrite filter_cons. unfold hasEdge in Hno. rewrite Hes in Hno.
  simpl in Hno. apply orb_false_elim in Hno as [He Hrest].
  rewrite decide_False.
  - apply (IH (mkBuilder [] es [] [])); [|done]. exact Hrest.
  - intros Hkey. unfold ContractEdge.key in Hkey. injection Hkey as Hs Ht Hr.
    rewrite Hs, Ht, Hr, !String.eqb_refl in He.
    by rewrite bool_decide_eq_true_2 in He.
Qed.

Lemma addEdge_fresh b s t r m :
  hasEdge b s t r = false ->
  addEdge b s t r m = pushEdge (ContractEdge.mk s t r m) b.
Proof. intros H. unfold addEdge. by rewrite H. Qed.

Lemma addEdge_present b s t r m :
  hasEdge b s t r = true -> addEdge b s t r m = b.
Proof. intros H. unfold addEdge. by rewrite H. Qed.

Lemma hasEdge_addEdge b s t r m : hasEdge (addEdge b s t r m) s t r = true.
Proof.
  destruct (hasEdge b s t r) eqn:H.
  - by rewrite addEdge_present.
  - rewrite addEdge_fresh by done. apply hasEdge_elem_of.
    unfold pushEdge. simpl. rewrite fmap_app. apply elem_of_app. right.
    by apply list_elem_of_singleton.
Qed.

Lemma NoDup_key_at_most_one (es : list ContractEdge.t) s t r :
  NoDup (ContractEdge.key <$> es) -> length (edgesWithKey s t r es) <= 1.
Proof.
  unfold edgesWithKey. induction es as [|e es IH]; [simpl; lia|].
  rewrite fmap_cons, NoDup_cons. intros [Hnotin Hnd].
  rewrite filter_cons. destruct (decide _) as [Hkey|]; [|by apply IH].
  simpl. assert (filter (fun e => ContractEdge.key e = (s, t, r)) es = []) as ->;
    [|simpl; lia].
  apply (hasEdge_edgesWithKey (mkBuilder [] es [] [])).
  apply not_true_is_false. rewrite hasEdge_elem_of. simpl. by rewrite <- Hkey.
Qed.

(** *** The edge passes *)

Lemma sameIndex_refl b : sameIndex b b.
Proof. by repeat split. Qed.

Lemma pushEdge_ok K b0 b e :
  sameIndex b0 b /\ edgesOk K (edges b) ->
  hasEdge b (ContractEdge.source e) (ContractEdge.target e)
            (ContractEdge.relationshipType e) = false ->
  ContractEdge.source e ∈ K -> ContractEdge.target e ∈ K ->
  sameIndex b0 (pushEdge e b) /\ edgesOk K (edges (pushEdge e b)).
Proof.
  intros [Hframe [Hnd Hends]] Hfresh Hs Ht. split; [exact Hframe|].
  unfold pushEdge. simpl. split.
  - rewrite fmap_app. apply NoDup_app. repeat split; [done| |apply NoDup_singleton].
    intros k Hk ->%list_elem_of_singleton.
    apply hasEdge_elem_of in Hk. unfold ContractEdge.key in Hk. congruence.
  - intros e' [He'| ->%list_elem_of_singleton]%elem_of_app; [by apply Hends|done].
Qed.

Lemma addEdge_ok K b0 b s t r m :
  sameIndex b0 b /\ edgesOk K (edges b) -> s ∈ K -> t ∈ K ->
  sameIndex b0 (addEdge b s t r m) /\ edgesOk K (edges (addEdge b s t r m)).
Proof.
  intros H Hs Ht. unfold addEdge. destruct (hasEdge b s t r) eqn:Hhas; [done|].
  by apply pushEdge_ok.
Qed.

Lemma linkTo_ok K b0 b ca r m targets :
  sameIndex b0 b /\ edgesOk K (edges b) -> ca ∈ K ->
  (forall t, t ∈ targets -> t ∈ K) ->
  sameIndex b0 (linkTo ca r m b targets) /\
  edgesOk K (edges (linkTo ca r m b targets)).
Proof.
  intros H Hca Htargets. unfold linkTo.
  apply (fold_left_preserves
           (fun b => sameIndex b0 b /\ edgesOk K (edges b))); [done|].
  intros b' t Ht Hb'. destruct (negb _); [|done].
  apply addEdge_ok; auto.
Qed.

Lemma findContractsByName_within K b0 b name t :
  namesWithin K b0 -> sameIndex b0 b -> t ∈ findContractsByName b name -> t ∈ K.
Proof.
  intros Hnames (_ & _ & Hsame). unfold findContractsByName. rewrite Hsame.
  destruct (mapGet _ _) as [addresses|] eqn:Hget; simpl.
  - apply mapGet_elem_of in Hget. intros Ht. by eapply Hnames.
  - by intros ?%elem_of_nil.
Qed.

Lemma foundAddresses_within b ca src a :
  a ∈ foundAddresses b ca src -> a ∈ (nodes b).*1.
Proof.
  unfold foundAddresses.
  apply (fold_left_preserves (fun found => a ∈ found -> a ∈ (nodes b).*1)).
  - by intros ?%elem_of_nil.
  - intros found literal _ IH.
    destruct (negb _ && mapHas _ _) eqn:Hcond; [|done].
    apply andb_prop in Hcond as [_ Hhas].
    intros [->|?]%setAdd_elem_of; [by apply mapHas_elem_of|auto].
Qed.

Lemma buildEdgesForContract_ok K b0 b contract :
  (forall k, k ∈ (nodes b0).*1 -> k ∈ K) -> namesWithin K b0 ->
  FetchedContract.key contract ∈ K ->
  sameIndex b0 b /\ edgesOk K (edges b) ->
  sameIndex b0 (edgesFor b contract) /\ edgesOk K (edges (edgesFor b contract)).
Proof.
  intros Hnodes Hnames Hkey Hb. unfold buildEdgesForContract. cbv zeta.
  set (ok := fun b => sameIndex b0 b /\ edgesOk K (edges b)).
  assert (H1 : ok (buildSameProtocolEdges b contract)).
  { unfold buildSameProtocolEdges. cbv zeta.
    apply (fold_left_preserves ok); [done|].
    intros b' [address node] Hin Hb'. unfold ok in Hb' |- *.
    destruct (negb _ && _); [|done]. destruct (negb _) eqn:Hfresh; [|done].
    apply negb_true_iff in Hfresh. apply pushEdge_ok; try done. simpl.
    apply Hnodes. destruct Hb as [(Hn & _) _]. rewrite <- Hn.
    by apply (list_elem_of_fmap_2 fst) in Hin. }
  assert (H2 : ok (buildInheritanceEdges extractInheritance
                     (buildSameProtocolEdges b contract) contract
                     (FetchedContract.joinedSource contract))).
  { unfold buildInheritanceEdges. cbv zeta.
    apply (fold_left_preserves ok); [done|].
    intros b' name _ Hb'. unfold ok in Hb' |- *. apply linkTo_ok; [done..|].
    intros t. apply (findContractsByName_within K b0); [done|apply Hb']. }
  assert (H3 : ok (buildImportEdges extractImports
                     (buildInheritanceEdges extractInheritance
                        (buildSameProtocolEdges b contract) contract
                        (FetchedContract.joinedSource contract)) contract
                     (FetchedContract.joinedSource contract))).
  { unfold buildImportEdges. cbv zeta.
    apply (fold_left_preserves ok); [done|].
    intros b' path _ Hb'. unfold ok in Hb' |- *. destruct (importedContractName path); [|done].
    apply linkTo_ok; [done..|].
    intros t. apply (findContractsByName_within K b0); [done|apply Hb']. }
  match goal with
  | |- context [buildExternalCallEdges _ ?b3 _ _] =>
      assert (H4 : ok (buildExternalCallEdges extractExternalCalls b3 contract
                         (FetchedContract.joinedSource contract)))
  end.
  { unfold buildExternalCallEdges. cbv zeta.
    apply (fold_left_preserves ok); [done|].
    intros b' call _ Hb'. unfold ok in Hb' |- *. apply linkTo_ok; [done..|].
    intros t. apply (findContractsByName_within K b0); [done|apply Hb']. }
  match goal with
  | |- context [buildInterfaceEdges _ ?b4 _ _] =>
      assert (H5 : ok (buildInterfaceEdges extractInterfacesFromSource b4
                         contract (FetchedContract.joinedSource contract)))
  end.
  { unfold buildInterfaceEdges. cbv zeta.
    apply (fold_left_preserves ok); [done|].
    intros b' name _ Hb'. unfold ok in Hb' |- *. apply linkTo_ok; [done..|].
    intros t. apply (findContractsByName_within K b0); [done|apply Hb']. }
  unfold buildAddressReferenceEdges. cbv zeta.
  apply (fold_left_preserves ok); [done|].
  intros b' t Ht Hb'. unfold ok in Hb' |- *. apply addEdge_ok; [done..|].
  apply Hnodes. apply foundAddresses_within in Ht.
  destruct H5 as [(Hn & _) _]. by rewrite <- Hn.
Qed.

(** *** Adding contracts *)

Lemma edgesOk_mono K K' es :
  (forall a, a ∈ K -> a ∈ K') -> edgesOk K es -> edgesOk K' es.
Proof.
  intros Hsub [Hnd Hends]. split; [done|].
  intros e He. destruct (Hends e He). auto.
Qed.

Lemma indexContract_fold K contracts b :
  namesWithin K b ->
  (forall c, c ∈ contracts -> FetchedContract.key c ∈ K) ->
  nodes (fold_left indexContract contracts b) = nodes b /\
  edges (fold_left indexContract contracts b) = edges b /\
  namesWithin K (fold_left indexContract contracts b).
Proof.
  intros Hnames Hkeys.
  apply (fold_left_preserves
           (fun b' => nodes b' = nodes b /\ edges b' = edges b /\ namesWithin K b'));
    [done|].
  intros b' c Hc (Hn & He & Hw). repeat split; [done..|].
  intros name addresses a Hin Ha. unfold indexContract in Hin. simpl in Hin.
  apply mapSet_elem_of in Hin as [[= -> ->]|Hin]; [|by eapply Hw].
  apply elem_of_app in Ha as [Ha| ->%list_elem_of_singleton]; [|by apply Hkeys].
  destruct (mapGet _ _) as [old|] eqn:Hget; simpl in Ha.
  - apply mapGet_elem_of in Hget. by eapply Hw.
  - by apply elem_of_nil in Ha.
Qed.

Lemma setNode_fold contracts b :
  let b' := fold_left nodeOf contracts b in
  edges b' = edges b /\ nameToAddresses b' = nameToAddresses b /\
  (NoDup (nodes b).*1 -> NoDup (nodes b').*1) /\
  ((forall k n, (k, n) ∈ nodes b -> ContractNode.key n = k) ->
   forall k n, (k, n) ∈ nodes b' -> ContractNode.key n = k) /\
  (forall k, k ∈ (nodes b').*1 <->
             k ∈ (nodes b).*1 \/ k ∈ FetchedContract.key <$> contracts).
Proof.
  revert b. induction contracts as [|c contracts IH]; intros b; simpl.
  - repeat split; try done.
    + by left.
    + intros [?|?%elem_of_nil]; done.
  - destruct (IH (nodeOf b c)) as (He & Hn & Hnd & Hkey & Hks).
    repeat split.
    + by rewrite He.
    + by rewrite Hn.
    + intros H. apply Hnd. by apply mapSet_NoDup.
    + intros H. apply Hkey. intros k n Hin.
      apply mapSet_elem_of in Hin as [[= -> ->]|Hin]; [done|by apply H].
    + intros Hk. apply Hks in Hk as [Hk|Hk]; [|right; by right].
      apply mapSet_elem_of_keys in Hk as [->|Hk]; [right; left|by left].
    + intros Hk. apply Hks.
      destruct Hk as [Hk|[->|Hk]%elem_of_cons]; [left|left|by right];
        apply mapSet_elem_of_keys; auto.
Qed.

Lemma buildEdges_fold K b0 contracts :
  (forall k, k ∈ (nodes b0).*1 -> k ∈ K) -> namesWithin K b0 ->
  (forall c, c ∈ contracts -> FetchedContract.key c ∈ K) ->
  edgesOk K (edges b0) ->
  sameIndex b0 (fold_left edgesFor contracts b0) /\
  edgesOk K (edges (fold_left edgesFor contracts b0)).
Proof.
  intros Hnodes Hnames Hkeys Hedges.
  apply (fold_left_preserves
           (fun b => sameIndex b0 b /\ edgesOk K (edges b))).
  - split; [apply sameIndex_refl|done].
  - intros b c Hc Hb. apply buildEdgesForContract_ok; auto.
Qed.

Lemma addContracts_wellFormed added b contracts :
  wellFormed added b -> wellFormed (added ++ contracts) (add b contracts).
Proof.
  intros (Hnd & Hkey & Hks & Hnames & Hedges). unfold addContracts. cbv zeta.
  set (K := FetchedContract.key <$> added ++ contracts).
  assert (Hin_old : forall a, a ∈ FetchedContract.key <$> added -> a ∈ K).
  { intros a Ha. unfold K. rewrite fmap_app. apply elem_of_app. by left. }
  assert (Hin_new : forall c, c ∈ contracts -> FetchedContract.key c ∈ K).
  { intros c Hc. unfold K. rewrite fmap_app. apply elem_of_app. right.
    by apply list_elem_of_fmap_2. }
  destruct (indexContract_fold K contracts b) as (Hn1 & He1 & Hw1); [|done|].
  { intros name addresses a ??. apply Hin_old. by eapply Hnames. }
  set (b1 := fold_left indexContract contracts b) in *.
  destruct (setNode_fold contracts b1) as (He2 & Hn2 & Hnd2 & Hkey2 & Hks2).
  set (b2 := fold_left nodeOf contracts b1) in *.
  assert (Hks2' : forall k, k ∈ (nodes b2).*1 <-> k ∈ K).
  { intros k. rewrite Hks2, Hn1, Hks. unfold K.
    rewrite fmap_app, elem_of_app. tauto. }
  destruct (buildEdges_fold K b2 contracts) as ((Hn3 & _ & Hna3) & Hedges3).
  - intros k. apply Hks2'.
  - intros name addresses a. rewrite Hn2. apply Hw1.
  - done.
  - rewrite He2, He1. by apply (edgesOk_mono (FetchedContract.key <$> added)).
  - split; [rewrite Hn3; apply Hnd2; by rewrite Hn1|].
    split; [rewrite Hn3; apply Hkey2; by rewrite Hn1|].
    split; [rewrite Hn3; exact Hks2'|].
    split; [|exact Hedges3].
    intros name addresses a. rewrite Hna3, Hn2. apply Hw1.
Qed.

Lemma empty_wellFormed : wellFormed [] empty.
Proof.
  split; [apply NoDup_nil_2|].
  split; [by intros k n ?%elem_of_nil|].
  split; [done|].
  split; [by intros name addresses a ?%elem_of_nil|].
  split; [apply NoDup_nil_2|by intros e ?%elem_of_nil].
Qed.

Lemma reached_wellFormed calls : wellFormed (concat calls) (reached calls).
Proof.
  unfold after.
  enough (H : forall b added, wellFormed added b ->
              wellFormed (added ++ concat calls) (fold_left add calls b))
    by apply (H empty [] empty_wellFormed).
  induction calls as [|c calls IH]; intros b added Hb; simpl.
  - by rewrite app_nil_r.
  - rewrite app_assoc. apply IH. by apply addContracts_wellFormed.
Qed.

Lemma values_keys {V} (f : V -> string) (m : list (string * V)) :
  (forall k v, (k, v) ∈ m -> f v = k) -> f <$> m.*2 = m.*1.
Proof.
  induction m as [|[k v] m IH]; intros H; [done|].
  rewrite !fmap_cons. simpl. rewrite (H k v) by left.
  rewrite IH; [done|]. intros k' v' Hin. apply H. by right.
Qed.

Lemma build_graphOk calls now :
  graphOk (concat calls)
    (build (reached calls) now).
Proof.
  destruct (reached_wellFormed calls) as (Hnd & Hkey & Hks & _ & Hend & Hends).
  unfold graphOk, build. cbv zeta. simpl.
  rewrite (values_keys ContractNode.key) by done.
  split; [done|]. split; [done|]. split; [exact Hks|].
  intros e He. destruct (Hends e He). split; by apply Hks.
Qed.

(** *** Adding an edge twice *)

Lemma hasEdge_true_edgesWithKey b s t r :
  hasEdge b s t r = true -> 1 <= length (edgesWithKey s t r (edges b)).
Proof.
  intros (e & Hkey & Hin)%hasEdge_elem_of%list_elem_of_fmap_1.
  assert (He : e ∈ edgesWithKey s t r (edges b))
    by (apply list_elem_of_filter; split; done).
  destruct (edgesWithKey s t r (edges b)); [by apply elem_of_nil in He|].
  simpl. lia.
Qed.

Lemma edgesWithKey_pushEdge b s t r m :
  hasEdge b s t r = false ->
  edgesWithKey s t r (edges (pushEdge (ContractEdge.mk s t r m) b))
  = [ContractEdge.mk s t r m].
Proof.
  intros Hno. unfold pushEdge, edgesWithKey. simpl. rewrite filter_app.
  fold (edgesWithKey s t r (edges b)). rewrite hasEdge_edgesWithKey by done.
  rewrite filter_cons, decide_True by done. done.
Qed.

(** C4: from any state of the builder, a second call of the add-edge
    logic with the same source, target and relationship type changes
    nothing, whatever metadata it carries: when no edge had that key, the
    one edge with it carries the metadata of the first call; when an edge
    had it, the edges are left as they were.  After any sequence of
    [addContracts] calls and the two calls, exactly one edge has that key. *)
Theorem addEdge_twice_keeps_first (calls : list (list FetchedContract.t))
    (source target : string) (relationshipType : RelationshipType.t)
    (metadata1 metadata2 : option EdgeMetadata.t) :
  (forall b,
     addEdge (addEdge b source target relationshipType metadata1)
             source target relationshipType metadata2
     = addEdge b source target relationshipType metadata1) /\
  (forall b, hasEdge b source target relationshipType = false ->
     edgesWithKey source target relationshipType
       (edges (addEdge (addEdge b source target relationshipType metadata1)
                       source target relationshipType metadata2))
     = [ContractEdge.mk source target relationshipType metadata1]) /\
  (forall b, hasEdge b source target relationshipType = true ->
     edges (addEdge (addEdge b source target relationshipType metadata1)
                    source target relationshipType metadata2)
     = edges b) /\
  length (edgesWithKey source target relationshipType
            (edges (addEdge (addEdge (reached calls) source target
                               relationshipType metadata1)
                            source target relationshipType metadata2))) = 1.
Proof.
  assert (Htwice : forall b,
            addEdge (addEdge b source target relationshipType metadata1)
                    source target relationshipType metadata2
            = addEdge b source target relationshipType metadata1).
  { intros b. apply addEdge_present, hasEdge_addEdge. }
  split; [exact Htwice|]. split; [|split].
  - intros b Hno. rewrite Htwice, addEdge_fresh by done.
    by apply edgesWithKey_pushEdge.
  - intros b Hyes. by rewrite Htwice, addEdge_present.
  - rewrite Htwice.
    destruct (hasEdge (reached calls) source target relationshipType) eqn:Hhas.
    + rewrite addEdge_present by done.
      apply hasEdge_true_edgesWithKey in Hhas as Hone.
      destruct (reached_wellFormed calls) as (_ & _ & _ & _ & Hnd & _).
      pose proof (NoDup_key_at_most_one _ source target relationshipType Hnd).
      lia.
    + rewrite addEdge_fresh by done. by rewrite edgesWithKey_pushEdge.
Qed.

End CodeGraphProperties.

(** ** Communication graph builder *)
Section CommGraphProperties.
Import JS CommGraph.

Lemma comm_referencedAddresses_within b ca src a :
  a ∈ referencedAddresses b ca src -> a ∈ (nodes b).*1.
Proof.
  unfold referencedAddresses.
  apply (fold_left_preserves (fun found => a ∈ found -> a ∈ (nodes b).*1)).
  - by intros ?%elem_of_nil.
  - intros found literal _ IH.
    destruct (negb _ && mapHas _ _) eqn:Hcond; [|done].
    apply andb_prop in Hcond as [_ Hhas].
    intros [->|?]%setAdd_elem_of; [by apply mapHas_elem_of|auto].
Qed.

Lemma comm_exists_elem_of (es : list CommunicationEdge.t) e :
  existsb (fun e' =>
             String.eqb (CommunicationEdge.source e') (CommunicationEdge.source e) &&
             String.eqb (CommunicationEdge.target e') (CommunicationEdge.target e) &&
             bool_decide (CommunicationEdge.pattern e' = CommunicationEdge.pattern e))
          es = false ->
  CommunicationEdge.key e ∉ CommunicationEdge.key <$> es.
Proof.
  intros Hno (e' & Hkey & Hin)%list_elem_of_fmap_1.
  apply not_true_iff_false in Hno. apply Hno. apply existsb_exists.
  exists e'. split; [by apply list_elem_of_In|].
  unfold CommunicationEdge.key in Hkey. injection Hkey as -> -> ->.
  rewrite !String.eqb_refl. by rewrite bool_decide_eq_true_2.
Qed.

Lemma snoc_split {A} (l before later : list A) (x y : A) :
  l ++ [x] = before ++ y :: later ->
  (later = [] /\ before = l /\ y = x) \/
  (exists later', later = later' ++ [x] /\ l = before ++ y :: later').
Proof.
  destruct later as [|z later _] using rev_ind.
  - intros H. apply app_inj_tail in H as [-> ->]. by left.
  - intros H. right. exists later.
    rewrite app_comm_cons, app_assoc in H.
    apply app_inj_tail in H as [-> ->]. done.
Qed.

Lemma flaggedAtInsertion_snoc es e :
  flaggedAtInsertion es ->
  CommunicationEdge.bidirectional e
    = existsb (CommunicationEdge.reverses e) es ->
  flaggedAtInsertion (es ++ [e]).
Proof.
  intros Hes He before e' later Hsplit.
  apply snoc_split in Hsplit as [(-> & -> & ->)|(later' & -> & ->)]; [done|].
  by eapply Hes.
Qed.

Lemma comm_addEdge_ok K b0 b e :
  edgePhase K b0 b ->
  CommunicationEdge.source e ∈ K -> CommunicationEdge.target e ∈ K ->
  CommunicationEdge.bidirectional e
    = checkBidirectional b (CommunicationEdge.source e)
                           (CommunicationEdge.target e) ->
  edgePhase K b0 (addEdge b e).
Proof.
  intros (Hn & Ha & [Hnd Hends] & Hflag) Hs Ht Hbidir.
  unfold addEdge. cbv zeta. destruct (existsb _ _) eqn:Hex; [done|].
  simpl. repeat split; try done; simpl.
  - rewrite fmap_app. apply NoDup_app. repeat split; [done| |apply NoDup_singleton].
    intros k Hk ->%list_elem_of_singleton. by apply comm_exists_elem_of in Hex.
  - apply elem_of_app in H as [H| ->%list_elem_of_singleton]; [by apply Hends|done].
  - apply elem_of_app in H as [H| ->%list_elem_of_singleton]; [by apply Hends|done].
  - by apply flaggedAtInsertion_snoc.
Qed.

Lemma analyzeCommunications_ok K b0 b contract :
  (forall k, k ∈ (nodes b0).*1 -> k ∈ K) ->
  FetchedContract.key contract ∈ K ->
  edgePhase K b0 b -> edgePhase K b0 (analyzeCommunications b contract).
Proof.
  intros Hnodes Hkey Hb. unfold analyzeCommunications. cbv zeta.
  apply (fold_left_preserves (edgePhase K b0)); [done|].
  intros b' t Ht Hb'.
  destruct (mapGet t (addressToContract b')) as [targetContract|]; [|done].
  apply comm_addEdge_ok; try done. simpl.
  apply Hnodes. apply comm_referencedAddresses_within in Ht.
  destruct Hb as (Hn & _). by rewrite <- Hn.
Qed.

Lemma comm_edgesOk_mono K K' es :
  (forall a, a ∈ K -> a ∈ K') -> edgesOk K es -> edgesOk K' es.
Proof.
  intros Hsub [Hnd Hends]. split; [done|].
  intros e He. destruct (Hends e He). auto.
Qed.

Lemma comm_setNode_fold contracts b :
  let b' := fold_left setNode contracts b in
  edges b' = edges b /\
  (NoDup (nodes b).*1 -> NoDup (nodes b').*1) /\
  ((forall k n, (k, n) ∈ nodes b -> CommunicationNode.key n = k) ->
   forall k n, (k, n) ∈ nodes b' -> CommunicationNode.key n = k) /\
  (forall k, k ∈ (nodes b').*1 <->
             k ∈ (nodes b).*1 \/ k ∈ FetchedContract.key <$> contracts).
Proof.
  revert b. induction contracts as [|c contracts IH]; intros b; simpl.
  - split; [done|]. split; [done|]. split; [done|].
    intros k. split; [by left|]. intros [?|?%elem_of_nil]; done.
  - destruct (IH (setNode b c)) as (He & Hnd & Hkey & Hks).
    split; [by rewrite He|].
    split; [intros H; apply Hnd; by apply mapSet_NoDup|].
    split.
    + intros H. apply Hkey. intros k n Hin.
      apply mapSet_elem_of in Hin as [[= -> ->]|Hin]; [done|by apply H].
    + intros k. rewrite Hks. unfold setNode. simpl.
      rewrite mapSet_elem_of_keys, elem_of_cons. tauto.
Qed.

Lemma comm_indexContract_fold contracts b :
  nodes (fold_left indexContract contracts b) = nodes b /\
  edges (fold_left indexContract contracts b) = edges b.
Proof.
  by apply (fold_left_preserves
              (fun b' => nodes b' = nodes b /\ edges b' = edges b)).
Qed.

Lemma comm_updateCommunicationCounts_wellFormed added b :
  wellFormed added b -> wellFormed added (updateCommunicationCounts b).
Proof.
  intros (Hnd & Hkey & Hks & Hedges & Hflag).
  assert (Hkeys : (nodes (updateCommunicationCounts b)).*1 = (nodes b).*1).
  { unfold updateCommunicationCounts. simpl. rewrite <- list_fmap_compose.
    apply list_fmap_ext. by intros i [k n] _. }
  split; [by rewrite Hkeys|]. split; [|split; [by rewrite Hkeys|done]].
  intros k n ([k' n'] & [= -> ->] & Hin)%list_elem_of_fmap_1.
  simpl. by apply (Hkey k' n').
Qed.

Lemma comm_addContracts_wellFormed added b contracts :
  wellFormed added b -> wellFormed (added ++ contracts) (addContracts b contracts).
Proof.
  intros (Hnd & Hkey & Hks & Hedges & Hflag). unfold addContracts. cbv zeta.
  apply comm_updateCommunicationCounts_wellFormed.
  set (K := FetchedContract.key <$> added ++ contracts).
  destruct (comm_indexContract_fold contracts b) as (Hn1 & He1).
  set (b1 := fold_left indexContract contracts b) in *.
  destruct (comm_setNode_fold contracts b1) as (He2 & Hnd2 & Hkey2 & Hks2).
  set (b2 := fold_left setNode contracts b1) in *.
  assert (Hks2' : forall k, k ∈ (nodes b2).*1 <-> k ∈ K).
  { intros k. rewrite Hks2, Hn1, Hks. unfold K.
    rewrite fmap_app, elem_of_app. tauto. }
  assert (Hphase : edgePhase K b2 (fold_left analyzeCommunications contracts b2)).
  { apply (fold_left_preserves (edgePhase K b2)).
    - split; [done|]. split; [done|]. rewrite He2, He1. split; [|done].
      apply (comm_edgesOk_mono (FetchedContract.key <$> added)); [|done].
      intros a Ha. unfold K. rewrite fmap_app. apply elem_of_app. by left.
    - intros b' c Hc Hb'. apply analyzeCommunications_ok; [|
        |done].
      + intros k. apply Hks2'.
      + unfold K. rewrite fmap_app. apply elem_of_app. right.
        by apply list_elem_of_fmap_2. }
  destruct Hphase as (Hn3 & _ & Hedges3 & Hflag3).
  split; [rewrite Hn3; apply Hnd2; by rewrite Hn1|].
  split; [rewrite Hn3; apply Hkey2; by rewrite Hn1|].
  split; [rewrite Hn3; exact Hks2'|done].
Qed.

Lemma comm_empty_wellFormed : wellFormed [] empty.
Proof.
  split; [apply NoDup_nil_2|].
  split; [by intros k n ?%elem_of_nil|].
  split; [done|].
  split; [split; [apply NoDup_nil_2|by intros e ?%elem_of_nil]|].
  intros before e later H. by destruct before.
Qed.

Lemma comm_reached_wellFormed calls : wellFormed (concat calls) (after calls).
Proof.
  unfold after.
  enough (H : forall b added, wellFormed added b ->
              wellFormed (added ++ concat calls) (fold_left addContracts calls b))
    by apply (H empty [] comm_empty_wellFormed).
  induction calls as [|c calls IH]; intros b added Hb; simpl.
  - by rewrite app_nil_r.
  - rewrite app_assoc. apply IH. by apply comm_addContracts_wellFormed.
Qed.

Lemma comm_build_graphOk calls now :
  graphOk (concat calls) (build (after calls) now).
Proof.
  destruct (comm_reached_wellFormed calls) as (Hnd & Hkey & Hks & [Hend Hends] & _).
  unfold graphOk, build. simpl.
  rewrite (values_keys CommunicationNode.key) by done.
  split; [done|]. split; [done|]. split; [exact Hks|].
  intros e He. destruct (Hends e He). split; by apply Hks.
Qed.

(** C7: in the graph built after any sequence of [addContracts] calls,
    the flag of every edge says whether an edge between the same two
    addresses in the opposite direction stood before it in the edge list,
    that is, existed when the edge was added; it is not revised when such
    an edge is added later.  Two contracts that name each other, added
    together, get an edge each: the first with the flag unset, the second
    with the flag set, whichever contract comes first. *)
Theorem bidirectional_flag_set_at_insertion
    (calls : list (list FetchedContract.t)) (now : string) :
  flaggedAtInsertion (graph_edges (build (after calls) now)) /\
  graph_edges (build (after [[Demo.A; Demo.B]]) now)
    = [Demo.edgeOf Demo.keyA Demo.keyB false;
       Demo.edgeOf Demo.keyB Demo.keyA true] /\
  graph_edges (build (after [[Demo.B; Demo.A]]) now)
    = [Demo.edgeOf Demo.keyB Demo.keyA false;
       Demo.edgeOf Demo.keyA Demo.keyB true].
Proof.
  split; [apply comm_reached_wellFormed|].
  split; vm_compute; reflexivity.
Qed.

(** Added in two calls, the same two contracts get one edge only: when
    the first is analysed the second is not known yet. *)
Example separate_calls_one_edge :
  edges (after [[Demo.A]; [Demo.B]])
    = [Demo.edgeOf Demo.keyB Demo.keyA false].
Proof. vm_compute. reflexivity. Qed.

End CommGraphProperties.

(** ** Both builders *)
Section GraphProperties.

Variable extractFunctionSignatures : list ABIItem.t -> list string.
Variable extractEventSignatures : list ABIItem.t -> list string.
Variable extractInterfacesFromSource : string -> list string.
Variable extractInheritance : string -> list string.
Variable extractExternalCalls : string -> list string.
Variable extractImports : string -> list string.

(** C5: after any sequence of [addContracts] calls, the graph either
    builder returns has no two nodes with the same (lowercased) address and
    no two edges with the same source, target and kind; its nodes are the
    contracts that were added, and the source and the target of every edge
    are addresses of its nodes. *)
Theorem built_graphs_well_formed
    (calls : list (list FetchedContract.t)) (now : string) :
  CodeGraph.graphOk (concat calls)
    (CodeGraph.build
       (CodeGraph.after extractFunctionSignatures extractEventSignatures
          extractInterfacesFromSource extractInheritance extractExternalCalls
          extractImports calls) now) /\
  CommGraph.graphOk (concat calls)
    (CommGraph.build (CommGraph.after calls) now).
Proof. split; [apply build_graphOk|apply comm_build_graphOk]. Qed.

(** When the addresses of the added contracts are in lower case, as the
    loader leaves them, the endpoints of the edges are the very addresses
    of nodes. *)
Lemma code_graph_edges_between_node_addresses
    (calls : list (list FetchedContract.t)) (now : string) e :
  Forall (fun c => JS.toLowerCase (FetchedContract.address c)
                   = FetchedContract.address c) (concat calls) ->
  e ∈ CodeGraph.graph_edges
        (CodeGraph.build
           (CodeGraph.after extractFunctionSignatures extractEventSignatures
              extractInterfacesFromSource extractInheritance
              extractExternalCalls extractImports calls) now) ->
  ContractEdge.source e ∈ FetchedContract.address <$> concat calls /\
  ContractEdge.target e ∈ FetchedContract.address <$> concat calls.
Proof.
  intros Hlower He.
  destruct (build_graphOk extractFunctionSignatures extractEventSignatures
              extractInterfacesFromSource extractInheritance
              extractExternalCalls extractImports calls now)
    as (_ & _ & Hnodes & Hends).
  assert (Hkeys : FetchedContract.key <$> concat calls
                  = FetchedContract.address <$> concat calls).
  { apply list_fmap_ext. intros i c Hc.
    rewrite Forall_forall in Hlower. apply Hlower.
    by eapply list_elem_of_lookup_2. }
  rewrite <- Hkeys. destruct (Hends e He). split; by apply Hnodes.
Qed.

End GraphProperties.

Section GraphScenarios.
Import CodeGraph.

Lemma addEdge_twice_keeps_first_witness :
  edgesWithKey "0xa" "0xb" RelationshipType.calls
    (edges (addEdge (addEdge empty "0xa" "0xb" RelationshipType.calls
                       Demo.transferCall)
                    "0xa" "0xb" RelationshipType.calls Demo.approveCall))
  = [ContractEdge.mk "0xa" "0xb" RelationshipType.calls Demo.transferCall].
Proof.
  apply (addEdge_twice_keeps_first Demo.noSignatures Demo.noSignatures
           Demo.nothing Demo.nothing Demo.nothing Demo.nothing []).
  reflexivity.
Defined.

(** Two contracts of one protocol: a [same_protocol] edge each way; the
    literal of a contract that was not added gives no edge, the literal of
    one that was gives a [calls] edge. *)
Example code_graph_of_pair :
  edges (Demo.afterCalls [[CommGraph.Demo.A; CommGraph.Demo.B]])
  = [ContractEdge.mk CommGraph.Demo.keyA CommGraph.Demo.keyB
       RelationshipType.same_protocol None;
     ContractEdge.mk CommGraph.Demo.keyA CommGraph.Demo.keyB
       RelationshipType.calls None;
     ContractEdge.mk CommGraph.Demo.keyB CommGraph.Demo.keyA
       RelationshipType.same_protocol None;
     ContractEdge.mk CommGraph.Demo.keyB CommGraph.Demo.keyA
       RelationshipType.calls None].
Proof. vm_compute. reflexivity. Qed.

Example code_graph_of_one :
  length (nodes (Demo.afterCalls [[CommGraph.Demo.A]])) = 1 /\
  edges (Demo.afterCalls [[CommGraph.Demo.A]]) = [].
Proof. vm_compute. split; reflexivity. Qed.

Example importedContractName_demo :
  importedContractName "@openzeppelin/contracts/token/ERC20/ERC20.sol"
    = Some "ERC20" /\
  importedContractName "./Ownable.sol" = Some "Ownable" /\
  importedContractName "Ownable.sol" = None /\
  importedContractName "lib/.sol" = None /\
  importedContractName "lib/Token.sol/" = None.
Proof. vm_compute. repeat split. Qed.

Example scanAddresses_demo :
  JS.scanAddresses
    "a 0xAAAAaaaaAAAAaaaaAAAAaaaaAAAAaaaaAAAAaaaa0x12 0xzz 0X1111111111111111111111111111111111111111"
  = ["0xAAAAaaaaAAAAaaaaAAAAaaaaAAAAaaaaAAAAaaaa"].
Proof. vm_compute. reflexivity. Qed.

End GraphScenarios.

(** * Further properties *)

(** ** Characters and strings *)
Section MoreStringFacts.
Import JS Text.

Lemma toLowerCase_char_idem c :
  toLowerCase_char (toLowerCase_char c) = toLowerCase_char c.
Proof. destruct c as [[] [] [] [] [] [] [] []]; vm_compute; reflexivity. Qed.

Lemma isWhiteSpace_toLowerCase_char c :
  isWhiteSpace (toLowerCase_char c) = isWhiteSpace c.
Proof. destruct c as [[] [] [] [] [] [] [] []]; vm_compute; reflexivity. Qed.

Lemma toLowerCase_idem s : toLowerCase (toLowerCase s) = toLowerCase s.
Proof.
  induction s as [|c s IH]; [done|]. simpl. by rewrite toLowerCase_char_idem, IH.
Qed.

Lemma toLowerCase_rev_app s acc :
  toLowerCase (String.rev_app s acc)
  = String.rev_app (toLowerCase s) (toLowerCase acc).
Proof. revert acc. induction s as [|c s IH]; intros acc; [done|]. simpl. by rewrite IH. Qed.

Lemma toLowerCase_rev s : toLowerCase (String.rev s) = String.rev (toLowerCase s).
Proof. apply toLowerCase_rev_app. Qed.

Lemma toLowerCase_trimStart s :
  toLowerCase (trimStart s) = trimStart (toLowerCase s).
Proof.
  induction s as [|c s IH]; [done|]. simpl.
  rewrite isWhiteSpace_toLowerCase_char. by destruct (isWhiteSpace c).
Qed.

Lemma toLowerCase_trim s : toLowerCase (trim s) = trim (toLowerCase s).
Proof.
  unfold trim.
  by rewrite toLowerCase_rev, toLowerCase_trimStart, toLowerCase_rev,
    toLowerCase_trimStart.
Qed.

Lemma append_assoc a b c : (a +:+ b) +:+ c = a +:+ b +:+ c.
Proof.
  induction a as [|x a IH]; [done|]. by rewrite !append_cons, IH.
Qed.

Lemma append_nil_r a : a +:+ "" = a.
Proof. induction a as [|x a IH]; [done|]. by rewrite append_cons, IH. Qed.

Lemma rev_app_append s acc : String.rev_app s acc = String.rev s +:+ acc.
Proof.
  revert acc. induction s as [|c s IH]; intros acc; [done|].
  unfold String.rev. simpl. rewrite (IH (String c acc)), (IH (String c "")).
  by rewrite append_assoc.
Qed.

Lemma rev_append a b : String.rev (a +:+ b) = String.rev b +:+ String.rev a.
Proof.
  induction a as [|c a IH].
  - by rewrite append_nil, append_nil_r.
  - rewrite append_cons. unfold String.rev at 1 3. simpl.
    rewrite !rev_app_append, IH. by rewrite append_assoc.
Qed.

Lemma rev_rev s : String.rev (String.rev s) = s.
Proof.
  induction s as [|c s IH]; [done|].
  unfold String.rev at 2. simpl. rewrite rev_app_append, rev_append, IH. done.
Qed.

Lemma cleanStart_trimStart s : cleanStart (trimStart s) = true.
Proof.
  induction s as [|c s IH]; [done|]. simpl.
  destruct (isWhiteSpace c) eqn:Hc; [done|]. simpl. by rewrite Hc.
Qed.

Lemma trimStart_cleanStart s : cleanStart s = true -> trimStart s = s.
Proof. destruct s as [|c s]; [done|]. simpl. by destruct (isWhiteSpace c). Qed.

Lemma trimStart_split s : exists w, s = w +:+ trimStart s.
Proof.
  induction s as [|c s [w IH]]; [by exists ""|]. simpl.
  destruct (isWhiteSpace c).
  - exists (String c w). by rewrite append_cons, <- IH.
  - by exists "".
Qed.

Lemma cleanStart_append a b : a <> "" -> cleanStart (a +:+ b) = cleanStart a.
Proof. by destruct a. Qed.

Lemma trim_cleanStart s : cleanStart (trim s) = true.
Proof.
  unfold trim. set (u := trimStart s).
  assert (Hu : cleanStart u = true) by apply cleanStart_trimStart.
  destruct (trimStart_split (String.rev u)) as [w Hw].
  destruct (trimStart (String.rev u)) as [|c x] eqn:Hx; [done|].
  apply (f_equal String.rev) in Hw. rewrite rev_rev, rev_append in Hw.
  rewrite Hw, cleanStart_append in Hu; [done|].
  unfold String.rev. simpl. rewrite rev_app_append.
  by destruct (String.rev x).
Qed.

Lemma trim_idem s : trim (trim s) = trim s.
Proof.
  unfold trim at 1. rewrite (trimStart_cleanStart (trim s))
    by apply trim_cleanStart.
  unfold trim. rewrite rev_rev.
  rewrite (trimStart_cleanStart (trimStart _)) by apply cleanStart_trimStart.
  done.
Qed.

End MoreStringFacts.

(** ** Loaded entries *)
Section LoadedEntries.
Import JS ContractEntry Loader.

Lemma orElse_lower_trim o :
  toLowerCase (orElse (trim <$> (toLowerCase <$> o)) "")
  = orElse (trim <$> (toLowerCase <$> o)) "".
Proof.
  destruct o as [s|]; [|done]. simpl.
  assert (toLowerCase (trim (toLowerCase s)) = trim (toLowerCase s)) as H
    by (by rewrite toLowerCase_trim, toLowerCase_idem).
  destruct (trim (toLowerCase s)); [done|]. exact H.
Qed.

Lemma orElse_nonempty o d : d <> "" -> orElse o d <> "".
Proof. intros Hd. by destruct o as [[|c s]|]. Qed.

Lemma addressPattern_test_length s :
  addressPattern_test s = true -> String.length s = 42.
Proof.
  destruct s as [|a [|x digits]]; [done| |].
  - by destruct a as [[] [] [] [] [] [] [] []].
  - destruct a as [[] [] [] [] [] [] [] []]; try done.
    unfold addressPattern_test. intros H.
    apply andb_true_iff in H as [H _]. apply andb_true_iff in H as [_ H].
    apply Nat.eqb_eq in H. simpl. by rewrite H.
Qed.

Lemma isValidContractEntry_true c :
  isValidContractEntry c = true ->
  addressPattern_test (address c) = true /\
  is_Some (lookupChain (blockchain c)).
Proof.
  unfold isValidContractEntry.
  destruct (addressPattern_test (address c)); [|by rewrite orb_true_r].
  intros H. split; [done|].
  destruct (lookupChain (blockchain c)); [by eexists|].
  destruct (truthy (Some (address c))); [|done].
  simpl in H. by rewrite orb_true_r in H.
Qed.

End LoadedEntries.

Section LoadedFiles.
Import JS ContractEntry Loader Listing.
Variable path_resolve : string -> string.
Variable readFileSync : string -> Result string.
Variable JSON_parse : string -> Result (list RawEntry).


End LoadedFiles.


(** ** Queries on contract lists *)
Section ListingProperties.
Import JS ContractEntry Loader Listing.

Lemma dedup_snoc l x : dedup (l ++ [x]) = setAdd x (dedup l).
Proof. unfold dedup. by rewrite fold_left_app. Qed.

Lemma dedup_elem_of l x : x ∈ dedup l <-> x ∈ l.
Proof.
  induction l as [|y l IH] using rev_ind; [done|].
  rewrite dedup_snoc. unfold setAdd. case_bool_decide as Hin.
  - rewrite IH, elem_of_app, list_elem_of_singleton.
    split; [auto|]. intros [H | ->]; [done|]. by apply IH.
  - by rewrite !elem_of_app, IH.
Qed.

Lemma dedup_NoDup l : NoDup (dedup l).
Proof.
  induction l as [|y l IH] using rev_ind; [constructor|].
  rewrite dedup_snoc. unfold setAdd. case_bool_decide as Hin; [done|].
  apply NoDup_app. split; [done|]. split; [|apply NoDup_singleton].
  intros x Hx ->%list_elem_of_singleton. done.
Qed.

Lemma sortStrings_sorted l :
  Sorted String.le (sortStrings l) /\ sortStrings l ≡ₚ l.
Proof.
  split; [apply (Sorted_merge_sort String.le)|apply merge_sort_Permutation].
Qed.

Lemma uniqueSorted_spec l :
  Sorted String.le (sortStrings (dedup l)) /\
  NoDup (sortStrings (dedup l)) /\
  (forall x, x ∈ sortStrings (dedup l) <-> x ∈ l).
Proof.
  destruct (sortStrings_sorted (dedup l)) as [Hs Hp].
  split; [done|]. split.
  - rewrite Hp. apply dedup_NoDup.
  - intros x. rewrite Hp. apply dedup_elem_of.
Qed.

(** X2: [getUniqueProtocols] and [getUniqueBlockchains] return the
    protocols (blockchains) of the entries, each once, in ascending order
    of code units. *)
Theorem getUnique_sorted_without_duplicates contracts :
  (Sorted String.le (getUniqueProtocols contracts) /\
   NoDup (getUniqueProtocols contracts) /\
   forall p, p ∈ getUniqueProtocols contracts
             <-> exists c, c ∈ contracts /\ protocol c = p) /\
  (Sorted String.le (getUniqueBlockchains contracts) /\
   NoDup (getUniqueBlockchains contracts) /\
   forall b, b ∈ getUniqueBlockchains contracts
             <-> exists c, c ∈ contracts /\ blockchain c = b).
Proof.
  unfold getUniqueProtocols, getUniqueBlockchains.
  split.
  - destruct (uniqueSorted_spec (protocol <$> contracts)) as (Hs & Hn & He).
    split; [done|]. split; [done|]. intros p. rewrite He, list_elem_of_fmap.
    split; intros (c & ? & ?); exists c; done.
  - destruct (uniqueSorted_spec (blockchain <$> contracts)) as (Hs & Hn & He).
    split; [done|]. split; [done|]. intros p. rewrite He, list_elem_of_fmap.
    split; intros (c & ? & ?); exists c; done.
Qed.

Lemma mapGet_mapSet {V} k (v : V) m k' :
  mapGet k' (mapSet k v m) = if String.eqb k k' then Some v else mapGet k' m.
Proof.
  induction m as [|[k0 v0] m IH]; simpl.
  - destruct (String.eqb k k'); done.
  - destruct (String.eqb_spec k0 k) as [->|Hne]; simpl.
    + destruct (String.eqb k k'); done.
    + rewrite IH. destruct (String.eqb_spec k0 k') as [->|Hne'].
      * destruct (String.eqb_spec k k'); congruence.
      * done.
Qed.

Lemma groupBy_snoc key l c :
  groupBy key (l ++ [c])
  = mapSet (key c) (default [] (mapGet (key c) (groupBy key l)) ++ [c])
           (groupBy key l).
Proof. unfold groupBy. by rewrite fold_left_app. Qed.

Lemma groupBy_lookup key l k :
  mapGet k (groupBy key l)
  = match filter (fun c => key c = k) l with
    | [] => None
    | group => Some group
    end.
Proof.
  induction l as [|c l IH] using rev_ind; [done|].
  rewrite groupBy_snoc, mapGet_mapSet, filter_app.
  destruct (String.eqb_spec (key c) k) as [Heq|Hne].
  - rewrite filter_cons_True by done. rewrite filter_nil.
    rewrite <- Heq in IH |- *. rewrite IH.
    destruct (filter _ l); done.
  - rewrite filter_cons_False by done. rewrite filter_nil, app_nil_r. done.
Qed.

Lemma groupBy_keys key l : (groupBy key l).*1 = dedup (key <$> l).
Proof.
  induction l as [|c l IH] using rev_ind; [done|].
  rewrite groupBy_snoc, mapSet_keys, fmap_app, IH.
  change (key <$> [c]) with [key c]. by rewrite dedup_snoc.
Qed.

(** X3: the grouping functions return, under each key, the entries that
    carry it in their order of appearance, and nothing under any other
    key; the keys come in the order of their first appearance, each once. *)
Theorem groupContracts_partitions contracts :
  (forall p, mapGet p (groupContractsByProtocol contracts)
     = match filter (fun c => protocol c = p) contracts with
       | [] => None
       | group => Some group
       end) /\
  (groupContractsByProtocol contracts).*1 = dedup (protocol <$> contracts) /\
  (forall b, mapGet b (groupContractsByBlockchain contracts)
     = match filter (fun c => blockchain c = b) contracts with
       | [] => None
       | group => Some group
       end) /\
  (groupContractsByBlockchain contracts).*1
    = dedup (blockchain <$> contracts).
Proof.
  split; [intros p; apply groupBy_lookup|].
  split; [apply groupBy_keys|].
  split; [intros b; apply groupBy_lookup|apply groupBy_keys].
Qed.

Lemma countBy_snoc key l c :
  countBy key (l ++ [c])
  = <[key c := default 0 (countBy key l !! key c) + 1]> (countBy key l).
Proof. unfold countBy. by rewrite fold_left_app. Qed.

Lemma countBy_lookup key l k :
  countBy key l !! k
  = if decide (occurrences key k l = 0) then None
    else Some (occurrences key k l).
Proof.
  unfold occurrences.
  induction l as [|c l IH] using rev_ind; [done|].
  rewrite countBy_snoc, filter_app, length_app.
  destruct (decide (key c = k)) as [Heq|Hne].
  - rewrite filter_cons_True by done. rewrite filter_nil. simpl.
    rewrite Heq, lookup_insert_eq, IH.
    destruct (decide (length (filter _ l) = 0)) as [->|?];
      destruct (decide _); simpl; try lia; done.
  - rewrite filter_cons_False by done. rewrite filter_nil. simpl.
    rewrite lookup_insert_ne by done. rewrite IH, Nat.add_0_r. done.
Qed.

Lemma occurrences_pos key k l :
  occurrences key k l <> 0 <-> k ∈ key <$> l.
Proof.
  unfold occurrences. rewrite list_elem_of_fmap. split.
  - destruct (filter _ l) as [|c l'] eqn:Hf; [done|]. intros _.
    assert (c ∈ filter (fun c => key c = k) l) as Hc by (rewrite Hf; left).
    apply list_elem_of_filter in Hc as [? ?]. by exists c.
  - intros (c & -> & Hc).
    assert (c ∈ filter (fun c' => key c' = key c) l) as Hin
      by (by apply list_elem_of_filter).
    destruct (filter _ l); [by apply elem_of_nil in Hin|done].
Qed.

Lemma countBy_size key l : size (countBy key l) = length (dedup (key <$> l)).
Proof.
  rewrite <- size_dom.
  assert (dom (countBy key l) = list_to_set (dedup (key <$> l))) as ->.
  { apply set_eq. intros k.
    rewrite elem_of_dom, elem_of_list_to_set, dedup_elem_of,
      <- occurrences_pos, countBy_lookup.
    destruct (decide _) as [H0|H0]; split; intros H; done. }
  apply size_list_to_set, dedup_NoDup.
Qed.

Lemma dedup_length l : length (dedup l) <= length l.
Proof.
  induction l as [|x l IH] using rev_ind; [done|].
  rewrite dedup_snoc, length_app. unfold setAdd.
  case_bool_decide; [|rewrite length_app]; simpl; lia.
Qed.

(** X4: the statistics [getContractListStats] reports, for entries whose
    protocol and blockchain are no inherited property name: the counts are
    taken after duplicates are removed; each table gives, for the keys
    that occur, the number of unique entries that carry them; and the
    number of protocols (blockchains) is that of the distinct ones, at most
    the number of unique entries, itself at most the total. *)
Theorem getContractListStats_counts contracts :
  Forall plainKeys contracts ->
  let stats := getContractListStats contracts in
  let unique := removeDuplicates contracts in
  totalContracts stats = length contracts /\
  uniqueContracts stats = length unique /\
  uniqueContracts stats <= totalContracts stats /\
  protocols stats = length (getUniqueProtocols unique) /\
  blockchains stats = length (getUniqueBlockchains unique) /\
  protocols stats <= uniqueContracts stats /\
  blockchains stats <= uniqueContracts stats /\
  (forall p, byProtocol stats !! p
     = if decide (occurrences protocol p unique = 0) then None
       else Some (occurrences protocol p unique)) /\
  (forall b, byBlockchain stats !! b
     = if decide (occurrences blockchain b unique = 0) then None
       else Some (occurrences blockchain b unique)).
Proof.
  intros _.
  cbn zeta. unfold getContractListStats. cbn [totalContracts uniqueContracts
    protocols blockchains byProtocol byBlockchain].
  rewrite !countBy_size.
  unfold getUniqueProtocols, getUniqueBlockchains, sortStrings.
  rewrite !merge_sort_Permutation.
  split; [done|]. split; [done|].
  split; [rewrite removeDuplicates_firstOccurrences;
          apply firstOccurrences_length|].
  split; [done|]. split; [done|].
  split.
  { etrans; [apply dedup_length|]. by rewrite length_fmap. }
  split.
  { etrans; [apply dedup_length|]. by rewrite length_fmap. }
  split; intros k; apply countBy_lookup.
Qed.

Lemma getContractListStats_counts_witness :
  let stats := getContractListStats [Demo.aave; Demo.aaveAgain; Demo.uni] in
  totalContracts stats = 3 /\ uniqueContracts stats = 2 /\
  protocols stats = 2 /\ byProtocol stats !! "Aave" = Some 1 /\
  byProtocol stats !! "aave-v3" = None.
Proof.
  assert (Forall plainKeys [Demo.aave; Demo.aaveAgain; Demo.uni]) as Hplain.
  { repeat (apply Forall_cons; split;
              [split; apply (bool_decide_unpack _); by vm_compute|]).
    apply Forall_nil_2. }
  destruct (getContractListStats_counts _ Hplain)
    as (Ht & Hu & _ & Hp & _ & _ & _ & Hby & _).
  cbn zeta. rewrite Ht, Hu, Hp, !Hby. clear. vm_compute. repeat split.
Defined.

Lemma firstOccurrences_NoDup_id seen cs :
  NoDup (entryKey <$> cs) -> (forall c, c ∈ cs -> entryKey c ∉ seen) ->
  firstOccurrences seen cs = cs.
Proof.
  revert seen. induction cs as [|c cs IH]; intros seen Hnd Hseen; [done|].
  simpl. rewrite fmap_cons in Hnd. apply NoDup_cons in Hnd as [Hc Hnd].
  rewrite bool_decide_eq_false_2 by (apply Hseen; left).
  f_equal. apply IH; [done|]. intros c' Hc'.
  apply not_elem_of_union. split; [|apply Hseen; by right].
  intros Heq%elem_of_singleton. apply Hc. rewrite <- Heq.
  by apply list_elem_of_fmap_2.
Qed.

(** X5: [removeDuplicates] leaves a list unchanged exactly when no two of
    its entries carry the same key text; hence removing duplicates twice is
    removing them once. *)
Theorem removeDuplicates_fixed_point contracts :
  (removeDuplicates contracts = contracts <-> NoDup (entryKey <$> contracts)) /\
  removeDuplicates (removeDuplicates contracts) = removeDuplicates contracts.
Proof.
  assert (forall l, NoDup (entryKey <$> l) -> removeDuplicates l = l) as Hid.
  { intros l Hl. rewrite removeDuplicates_firstOccurrences.
    apply firstOccurrences_NoDup_id; [done|]. intros c _.
    apply not_elem_of_empty. }
  split; [split|].
  - intros <-. rewrite removeDuplicates_firstOccurrences.
    apply firstOccurrences_NoDup.
  - apply Hid.
  - apply Hid. rewrite removeDuplicates_firstOccurrences.
    apply firstOccurrences_NoDup.
Qed.

Lemma firstOccurrences_seen_ext seen seen' cs :
  (forall c, c ∈ cs -> entryKey c ∈ seen <-> entryKey c ∈ seen') ->
  firstOccurrences seen cs = firstOccurrences seen' cs.
Proof.
  revert seen seen'. induction cs as [|c cs IH]; intros seen seen' H; [done|].
  simpl. assert (Hc := H c ltac:(left)).
  destruct (decide (entryKey c ∈ seen)) as [Hin|Hout].
  - rewrite !bool_decide_eq_true_2 by tauto.
    apply IH. intros c' Hc'. apply H. by right.
  - rewrite !bool_decide_eq_false_2 by tauto.
    f_equal. apply IH. intros c' Hc'. rewrite !elem_of_union.
    rewrite (H c') by (by right). done.
Qed.

Lemma firstOccurrences_filter (P : ContractEntry.t -> Prop)
    `{!forall c, Decision (P c)} seen cs :
  (forall c c', c ∈ cs -> c' ∈ cs -> entryKey c = entryKey c' -> P c -> P c') ->
  firstOccurrences seen (filter P cs) = filter P (firstOccurrences seen cs).
Proof.
  revert seen. induction cs as [|c cs IH]; intros seen Hresp; [done|].
  assert (forall seen, firstOccurrences seen (filter P cs)
                       = filter P (firstOccurrences seen cs)) as IH'.
  { intros seen0. apply IH. intros c1 c2 H1 H2. apply Hresp; by right. }
  destruct (decide (P c)) as [Hc|Hc].
  - rewrite filter_cons_True by done. simpl. case_bool_decide.
    + apply IH'.
    + rewrite filter_cons_True by done. f_equal. apply IH'.
  - rewrite filter_cons_False by done. simpl. case_bool_decide.
    + apply IH'.
    + rewrite filter_cons_False by done.
      rewrite <- IH'. apply firstOccurrences_seen_ext. intros c' Hc'.
      apply list_elem_of_filter in Hc' as [HP Hc'].
      rewrite elem_of_union, elem_of_singleton. split; [auto|].
      intros [Heq|?]; [|done]. exfalso. apply Hc.
      apply (Hresp c' c); [by right|left|done|done].
Qed.

(** X6: on entries of the data model (addresses of 0x and 40 hexadecimal
    digits), filtering by blockchain and removing duplicates can be done in
    either order. *)
Theorem removeDuplicates_filterContractsByBlockchain contracts chain :
  Forall wellFormedAddress contracts ->
  removeDuplicates (filterContractsByBlockchain contracts chain)
  = filterContractsByBlockchain (removeDuplicates contracts) chain.
Proof.
  intros Hwf. rewrite Forall_forall in Hwf.
  rewrite !removeDuplicates_firstOccurrences.
  apply firstOccurrences_filter.
  intros c c' Hc Hc' Hkey HP.
  destruct (key_of_pair_inj _ _ _ _
              (wellFormedAddress_colonFree c (Hwf c Hc))
              (wellFormedAddress_colonFree c' (Hwf c' Hc')) Hkey) as [Hb _].
  by rewrite <- Hb.
Qed.

Lemma removeDuplicates_filterContractsByBlockchain_witness :
  removeDuplicates
    (filterContractsByBlockchain [Demo.uni; Demo.aave; Demo.aaveAgain] "Ethereum")
  = [Demo.aave].
Proof.
  rewrite removeDuplicates_filterContractsByBlockchain.
  - by vm_compute.
  - repeat constructor.
Defined.

(** Filtering by protocol does not commute with the removal: the entry
    that matches may come second under its key. *)
Example removeDuplicates_then_protocol_filter_loses_entry :
  filterContractsByProtocol
    (removeDuplicates [Demo.aave; Demo.aaveAgain]) "aave-v3" = [] /\
  removeDuplicates
    (filterContractsByProtocol [Demo.aave; Demo.aaveAgain] "aave-v3")
  = [Demo.aaveAgain].
Proof. by vm_compute. Qed.

Lemma slice_prefix {A} (l : list A) n :
  (0 < n)%Z -> slice l 0 n = take (Z.to_nat n) l.
Proof.
  intros Hn. unfold slice, clampIndex.
  replace (n <? 0)%Z with false by (symmetry; apply Z.ltb_ge; lia).
  change (0 <? 0)%Z with false. cbv iota.
  rewrite (Z.min_l 0) by lia. rewrite Z.sub_0_r.
  change (Z.to_nat 0) with 0%nat. rewrite drop_0.
  destruct (Z.min_spec n (Z.of_nat (length l))) as [[H ->]|[H ->]]; [done|].
  rewrite Nat2Z.id. rewrite !take_ge by lia. done.
Qed.

Lemma select_filters (b p : bool) (B P : ContractEntry.t -> Prop)
    `{!forall c, Decision (B c), !forall c, Decision (P c)}
    (l : list ContractEntry.t) :
  (if p then filter P (if b then filter B l else l)
   else if b then filter B l else l)
  = filter (fun c => (b = true -> B c) /\ (p = true -> P c)) l.
Proof.
  destruct p, b.
  - rewrite list_filter_filter. apply list_filter_iff. intros c.
    split; [intros [HP HB]; by split|intros [HB HP]; split; auto].
  - apply list_filter_iff. intros c.
    split; [intros HP; by split|intros [_ HP]; auto].
  - apply list_filter_iff. intros c.
    split; [intros HB; by split|intros [HB _]; auto].
  - induction l as [|c l IH]; [done|].
    rewrite filter_cons_True by done. by rewrite <- IH.
Qed.

(** X7: what [runAutomation] selects from the loaded entries: a
    subsequence of them with pairwise different keys, each matching the
    blockchain and the protocol asked for (whatever the case of the
    letters); with a positive limit, the first [limit] of the unique
    entries that match; a limit that is absent, zero or negative does not
    restrict the selection. *)
Theorem runAutomation_select_spec config loaded :
  let selected := runAutomation_select config loaded in
  let matching :=
    filter (matchesSelection config) (removeDuplicates loaded) in
  sublist selected loaded /\
  NoDup (entryKey <$> selected) /\
  Forall (matchesSelection config) selected /\
  match sel_limit config with
  | Some limit =>
      if decide (0 < limit)%Z
      then selected = take (Z.to_nat limit) matching
      else selected = matching
  | None => selected = matching
  end.
Proof.
  cbn zeta.
  set (matching := filter (matchesSelection config) (removeDuplicates loaded)).
  assert (Hsub : sublist matching loaded).
  { etrans; [apply sublist_filter|].
    rewrite removeDuplicates_firstOccurrences. apply firstOccurrences_sublist. }
  assert (Hnd : NoDup (entryKey <$> matching)).
  { eapply sublist_NoDup; [|apply fmap_sublist, sublist_filter].
    rewrite removeDuplicates_firstOccurrences. apply firstOccurrences_NoDup. }
  assert (Hall : Forall (matchesSelection config) matching).
  { apply Forall_forall. intros c Hc. by apply list_elem_of_filter in Hc as [? _]. }
  assert (Hfilters :
    (if truthy (sel_protocol config)
     then filterContractsByProtocol
            (if truthy (sel_blockchain config)
             then filterContractsByBlockchain (removeDuplicates loaded)
                    (default "" (sel_blockchain config))
             else removeDuplicates loaded)
            (default "" (sel_protocol config))
     else if truthy (sel_blockchain config)
          then filterContractsByBlockchain (removeDuplicates loaded)
                 (default "" (sel_blockchain config))
          else removeDuplicates loaded) = matching).
  { unfold matching, filterContractsByProtocol, filterContractsByBlockchain.
    rewrite select_filters. apply list_filter_iff. intros c. done. }
  unfold runAutomation_select. cbn zeta. rewrite Hfilters.
  destruct (sel_limit config) as [limit|]; [|done].
  destruct (Z.eqb_spec limit 0) as [->|Hne].
  { rewrite decide_False by lia. done. }
  destruct (limit >? 0)%Z eqn:Hpos.
  - rewrite decide_True by lia. rewrite slice_prefix by lia.
    split; [by etrans; [apply sublist_take|]|].
    split; [|by split; [apply Forall_take|]].
    eapply sublist_NoDup; [exact Hnd|]. apply fmap_sublist, sublist_take.
  - rewrite decide_False by lia. done.
Qed.

End ListingProperties.

(** ** Address validation *)
Section UtilsProperties.
Import JS Text Utils.

Lemma noWhiteSpace_rev_app s acc :
  noWhiteSpace (String.rev_app s acc) = noWhiteSpace s && noWhiteSpace acc.
Proof.
  revert acc. induction s as [|c s IH]; intros acc; [done|]. simpl.
  rewrite IH. simpl. destruct (isWhiteSpace c), (noWhiteSpace s); done.
Qed.

Lemma trimStart_noWhiteSpace s : noWhiteSpace s = true -> trimStart s = s.
Proof. destruct s as [|c s]; [done|]. simpl. by destruct (isWhiteSpace c). Qed.

Lemma rev_app_rev_app s acc :
  String.rev_app (String.rev_app s acc) "" = String.rev_app acc s.
Proof.
  revert acc. induction s as [|c s IH]; intros acc; simpl; [|by rewrite IH].
  change (String.rev_app acc "") with (String.rev_app acc ""). done.
Qed.

Lemma trim_noWhiteSpace s : noWhiteSpace s = true -> trim s = s.
Proof.
  intros H. unfold trim. rewrite (trimStart_noWhiteSpace s) by done.
  rewrite trimStart_noWhiteSpace.
  - unfold String.rev. by rewrite rev_app_rev_app.
  - unfold String.rev. by rewrite noWhiteSpace_rev_app, H.
Qed.

Lemma isHexDigit_noWhiteSpace c : isHexDigit c = true -> isWhiteSpace c = false.
Proof. destruct c as [[] [] [] [] [] [] [] []]; vm_compute; congruence. Qed.

Lemma allHex_noWhiteSpace s : allHex s = true -> noWhiteSpace s = true.
Proof.
  induction s as [|c s IH]; [done|]. simpl.
  intros [Hc Hs]%andb_true_iff. by rewrite (isHexDigit_noWhiteSpace c), IH.
Qed.

Lemma isHexDigit_toLowerCase_char c :
  isHexDigit (toLowerCase_char c) = isHexDigit c.
Proof. destruct c as [[] [] [] [] [] [] [] []]; vm_compute; reflexivity. Qed.

Lemma allHex_toLowerCase s : allHex (toLowerCase s) = allHex s.
Proof.
  induction s as [|c s IH]; [done|]. simpl.
  by rewrite isHexDigit_toLowerCase_char, IH.
Qed.

Lemma length_toLowerCase s : String.length (toLowerCase s) = String.length s.
Proof. induction s as [|c s IH]; [done|]. simpl. by rewrite IH. Qed.

Lemma zero_toLowerCase_char a :
  Ascii.eqb (toLowerCase_char a) "0" = Ascii.eqb a "0".
Proof. destruct a as [[] [] [] [] [] [] [] []]; vm_compute; reflexivity. Qed.

Lemma x_toLowerCase_char x :
  Ascii.eqb (toLowerCase_char x) "x" = Ascii.eqb x "x" || Ascii.eqb x "X".
Proof. destruct x as [[] [] [] [] [] [] [] []]; vm_compute; reflexivity. Qed.

Lemma addressPattern_test_cons a x digits :
  Loader.addressPattern_test (String a (String x digits))
  = Ascii.eqb a "0" && (Ascii.eqb x "x" || Ascii.eqb x "X") &&
    Nat.eqb (String.length digits) 40 && allHex digits.
Proof. destruct a as [[] [] [] [] [] [] [] []]; reflexivity. Qed.

Lemma pattern_test_toLowerCase s :
  ETHEREUM_ADDRESS_PATTERN_test (toLowerCase s) = Loader.addressPattern_test s.
Proof.
  destruct s as [|a [|x digits]]; [done| |].
  - by destruct a as [[] [] [] [] [] [] [] []].
  - rewrite addressPattern_test_cons. cbn [toLowerCase ETHEREUM_ADDRESS_PATTERN_test].
    by rewrite zero_toLowerCase_char, x_toLowerCase_char, length_toLowerCase,
      allHex_toLowerCase.
Qed.

Lemma pattern_test_noWhiteSpace s :
  ETHEREUM_ADDRESS_PATTERN_test s = true ->
  noWhiteSpace s = true /\ String.length s = 42 /\
  Loader.addressPattern_test s = true.
Proof.
  destruct s as [|a [|x digits]]; [done|done|].
  rewrite addressPattern_test_cons. cbn [ETHEREUM_ADDRESS_PATTERN_test].
  intros H. apply andb_true_iff in H as [H Hhex].
  apply andb_true_iff in H as [H Hlen]. apply andb_true_iff in H as [Ha Hx].
  rewrite Ha, Hx, Hlen, Hhex.
  apply Ascii.eqb_eq in Ha, Hx. subst a x.
  apply Nat.eqb_eq in Hlen.
  split; [|split; [simpl; by rewrite Hlen|done]].
  cbn [noWhiteSpace]. by rewrite (allHex_noWhiteSpace digits).
Qed.

Lemma isValidAddress_test s :
  isValidAddress s = ETHEREUM_ADDRESS_PATTERN_test s.
Proof. by destruct s. Qed.

(** X8: address validation.  [validateAddressWithMessage] returns no
    message exactly on the addresses [isValidAddress] accepts, and the
    message for an empty address only on the empty string; normalising
    twice is normalising once; a valid address has 42 characters, stays
    valid when normalised and is accepted by the loader's pattern; and a
    normalised string is valid exactly when the loader's pattern, which
    also admits the prefix 0X, accepts the trimmed string. *)
Theorem isValidAddress_normalizeAddress s :
  (validateAddressWithMessage s = None <-> isValidAddress s = true) /\
  (validateAddressWithMessage s = Some "Address cannot be empty" <-> s = "") /\
  normalizeAddress (normalizeAddress s) = normalizeAddress s /\
  (isValidAddress s = true ->
   String.length s = 42 /\ isValidAddress (normalizeAddress s) = true /\
   Loader.addressPattern_test s = true) /\
  isValidAddress (normalizeAddress s) = Loader.addressPattern_test (trim s).
Proof.
  assert (Hnorm : isValidAddress (normalizeAddress s)
                  = Loader.addressPattern_test (trim s)).
  { unfold normalizeAddress.
    by rewrite isValidAddress_test, <- toLowerCase_trim, pattern_test_toLowerCase. }
  split; [|split; [|split; [|split; [|done]]]].
  - unfold validateAddressWithMessage. rewrite isValidAddress_test.
    destruct s as [|c s]; [done|]. cbn [truthy negb].
    destruct (ETHEREUM_ADDRESS_PATTERN_test _); done.
  - unfold validateAddressWithMessage. destruct s as [|c s]; [done|].
    cbn [truthy negb]. destruct (ETHEREUM_ADDRESS_PATTERN_test _); done.
  - unfold normalizeAddress.
    rewrite toLowerCase_trim, toLowerCase_idem.
    apply trim_idem.
  - rewrite Hnorm, isValidAddress_test. intros Hs.
    apply pattern_test_noWhiteSpace in Hs as (Hws & Hlen & Hl).
    by rewrite trim_noWhiteSpace.
Qed.

End UtilsProperties.

(** ** Selections of an ABI *)
Section AbiQueriesProperties.
Import JS Extractor AbiQueries.

Lemma declaresAll_hasAll required abi :
  hasAll required (functionNames abi) = true <-> declaresAll required abi.
Proof.
  unfold declaresAll. rewrite hasAll_true.
  split; intros H fn Hin; apply elem_of_functionNames, H, Hin.
Qed.

Lemma declaresAll_mono required abi abi' :
  (forall item, item ∈ abi -> item ∈ abi') ->
  declaresAll required abi -> declaresAll required abi'.
Proof.
  intros Hsub H fn Hin. destruct (H fn Hin) as (item & Hitem & ?).
  exists item. split; [by apply Hsub|done].
Qed.

(** X9: [isERC721] and [isERC1155] hold exactly when every required name
    is the name of a function item; so does [isERC20]; and all three are
    kept when items are added to the ABI, in any order. *)
Theorem token_standards_by_function_names abi :
  (isERC721 abi = true <-> declaresAll ERC721_requiredFunctions abi) /\
  (isERC1155 abi = true <-> declaresAll ERC1155_requiredFunctions abi) /\
  (forall abi', (forall item, item ∈ abi -> item ∈ abi') ->
     (isERC20 abi = true -> isERC20 abi' = true) /\
     (isERC721 abi = true -> isERC721 abi' = true) /\
     (isERC1155 abi = true -> isERC1155 abi' = true)).
Proof.
  split; [apply declaresAll_hasAll|]. split; [apply declaresAll_hasAll|].
  intros abi' Hsub. unfold isERC20, isERC721, isERC1155.
  rewrite !declaresAll_hasAll.
  repeat split; by apply declaresAll_mono.
Qed.

Lemma has_lowerFunctionNames abi fn :
  has (lowerFunctionNames abi) fn = true <->
  exists item n, item ∈ abi /\ ABIItem.type item = type_function /\
                 ABIItem.name item = Some n /\ toLowerCase n = fn.
Proof.
  unfold has. rewrite bool_decide_eq_true, elem_of_lowerFunctionNames.
  split.
  - intros (item & Hin & Hty & Hname).
    destruct (ABIItem.name item) as [n|] eqn:Hn; [|done].
    injection Hname as <-. by exists item, n.
  - intros (item & n & Hin & Hty & Hn & <-). exists item.
    by rewrite Hn.
Qed.

Lemma has_lowerFunctionNames_mixed_case abi fn :
  toLowerCase fn <> fn -> has (lowerFunctionNames abi) fn = false.
Proof.
  intros Hfn. apply not_true_is_false.
  intros (item & n & _ & _ & _ & Hn)%has_lowerFunctionNames.
  apply Hfn. by rewrite <- Hn, toLowerCase_idem.
Qed.

(** X10: [detectProxyPattern] holds exactly when some function item is
    named implementation or _implementation, whatever the case of the
    letters: the names are lowercased before they are compared, so the
    indicators upgradeTo and upgradeToAndCall match no function. *)
Theorem detectProxyPattern_by_lowercase_names abi :
  detectProxyPattern abi = true <->
  exists item n, item ∈ abi /\ ABIItem.type item = type_function /\
                 ABIItem.name item = Some n /\ toLowerCase n ∈ proxyNames.
Proof.
  unfold detectProxyPattern. cbn [existsb].
  rewrite (has_lowerFunctionNames_mixed_case abi "upgradeTo") by done.
  rewrite (has_lowerFunctionNames_mixed_case abi "upgradeToAndCall") by done.
  rewrite orb_false_r. cbn [orb]. rewrite orb_true_iff, !has_lowerFunctionNames.
  unfold proxyNames. split.
  - intros [(item & n & ? & ? & ? & Hn)|(item & n & ? & ? & ? & Hn)];
      exists item, n; rewrite Hn; repeat split; try done.
    + left.
    + right; left.
  - intros (item & n & ? & ? & ? & Hn).
    apply elem_of_cons in Hn as [Hn|Hn];
      [left|right; apply list_elem_of_singleton in Hn]; by exists item, n.
Qed.

Example detectProxyPattern_misses_upgradeTo :
  detectProxyPattern [ABIItem.named type_function "upgradeTo";
                      ABIItem.named type_function "upgradeToAndCall"] = false /\
  detectProxyPattern [ABIItem.named type_function "Implementation"] = true.
Proof. by vm_compute. Qed.

Lemma filter_partition {A} (P Q R : A -> Prop)
    `{!forall x, Decision (P x), !forall x, Decision (Q x),
      !forall x, Decision (R x)} (l : list A) :
  (forall x, P x <-> Q x \/ R x) -> (forall x, Q x -> R x -> False) ->
  filter P l ≡ₚ filter Q l ++ filter R l.
Proof.
  intros Hiff Hdisj. induction l as [|x l IH]; [done|].
  rewrite !filter_cons.
  destruct (decide (Q x)) as [HQ|HQ]; destruct (decide (R x)) as [HR|HR].
  - destruct (Hdisj x HQ HR).
  - rewrite decide_True by (apply Hiff; by left). by rewrite IH.
  - rewrite decide_True by (apply Hiff; by right).
    rewrite IH. apply Permutation_middle.
  - rewrite decide_False; [done|]. intros [?|?]%Hiff; done.
Qed.

Lemma filter_sublist_impl {A} (P Q : A -> Prop)
    `{!forall x, Decision (P x), !forall x, Decision (Q x)} (l : list A) :
  (forall x, Q x -> P x) -> sublist (filter Q l) (filter P l).
Proof.
  intros Himpl. rewrite <- (list_filter_filter_l Q P) by done.
  apply sublist_filter.
Qed.

Lemma mutabilityIn_cases item :
  (mutabilityIn [nonpayable; payable; view; pure] item <->
   mutabilityIn [nonpayable; payable] item \/ mutabilityIn [view; pure] item) /\
  (mutabilityIn [nonpayable; payable] item ->
   mutabilityIn [view; pure] item -> False).
Proof.
  unfold mutabilityIn. destruct (ABIItem.stateMutability item) as [m|].
  - rewrite !elem_of_cons, !elem_of_nil.
    destruct m; split; intuition congruence.
  - tauto.
Qed.

(** X11: the callable functions are the state-changing and the read-only
    ones together: every callable item is in exactly one of the two
    selections, both selections keep the order of the ABI, and an item
    without a state mutability is in none of the three. *)
Theorem extractCallableFunctions_partition abi :
  extractCallableFunctions abi
    ≡ₚ extractStateChangingFunctions abi ++ extractReadOnlyFunctions abi /\
  (forall item, item ∈ extractStateChangingFunctions abi ->
                item ∉ extractReadOnlyFunctions abi) /\
  sublist (extractStateChangingFunctions abi) (extractCallableFunctions abi) /\
  sublist (extractReadOnlyFunctions abi) (extractCallableFunctions abi) /\
  (forall item, ABIItem.stateMutability item = None ->
                item ∉ extractCallableFunctions abi).
Proof.
  unfold extractCallableFunctions, extractStateChangingFunctions,
    extractReadOnlyFunctions.
  split; [|split; [|split; [|split]]].
  - apply filter_partition.
    + intros item. destruct (mutabilityIn_cases item) as [Hiff _]. tauto.
    + intros item [_ HQ] [_ HR].
      by destruct (mutabilityIn_cases item) as [_ Hdisj]; apply Hdisj.
  - intros item [[_ HQ] _]%list_elem_of_filter [[_ HR] _]%list_elem_of_filter.
    by destruct (mutabilityIn_cases item) as [_ Hdisj]; apply Hdisj.
  - apply filter_sublist_impl. intros item [Hty HQ]. split; [done|].
    apply (mutabilityIn_cases item). by left.
  - apply filter_sublist_impl. intros item [Hty HR]. split; [done|].
    apply (mutabilityIn_cases item). by right.
  - intros item Hnone [[_ Hm] _]%list_elem_of_filter.
    unfold mutabilityIn in Hm. by rewrite Hnone in Hm.
Qed.

End AbiQueriesProperties.

(** ** The fetcher: budget of requests, retries switched off, batch sizes *)
Section FetcherBudget.
Import JS Fetcher.
Variable axios_get : nat -> string -> AxiosResult.
Variable parseSourceCode : ContractSourceResponse -> list SourceFile.t.
Variable JSON : Type.
Variable JSON_parse : string -> option JSON.
Variable JSON_field : string -> JSON -> option JSON.
Variable JSON_abiArray : JSON -> option (list ABIItem.t).
Variable now : World -> string.
Variable options : FetchOptions.
Variable onProgress : bool.

Local Abbreviation fetchOne :=
  (fetchContract axios_get parseSourceCode JSON JSON_parse JSON_field
     JSON_abiArray now).
Local Abbreviation retry_loop :=
  (fetchContractWithRetry_loop axios_get parseSourceCode JSON JSON_parse
     JSON_field JSON_abiArray now options).
Local Abbreviation retry :=
  (fetchContractWithRetry axios_get parseSourceCode JSON JSON_parse
     JSON_field JSON_abiArray now options).
Local Abbreviation batch_loop :=
  (processBatch_loop axios_get parseSourceCode JSON JSON_parse JSON_field
     JSON_abiArray now options onProgress).
Local Abbreviation runBatch :=
  (processBatch axios_get parseSourceCode JSON JSON_parse JSON_field
     JSON_abiArray now options onProgress).
Local Abbreviation run_loop :=
  (fetchAll_loop axios_get parseSourceCode JSON JSON_parse JSON_field
     JSON_abiArray now options onProgress).
Local Abbreviation run :=
  (fetchAll axios_get parseSourceCode JSON JSON_parse JSON_field
     JSON_abiArray now options onProgress).

Lemma fetchContract_requests contract w :
  requests (fetchOne contract w).2
  = requests w + length (attemptEvents contract).
Proof.
  destruct (fetchContract_attempted axios_get parseSourceCode JSON JSON_parse
              JSON_field JSON_abiArray now contract w) as [r ->].
  reflexivity.
Qed.

Lemma attemptEvents_length contract : length (attemptEvents contract) <= 1.
Proof. unfold attemptEvents. destruct (lookupChain _); simpl; lia. Qed.

Lemma retry_loop_requests remaining attempt last contract w :
  requests w <= requests (retry_loop remaining attempt last contract w).2
  <= requests w + remaining.
Proof.
  revert attempt last w.
  induction remaining as [|remaining IH]; intros attempt last w; simpl; [lia|].
  assert (Hone := fetchContract_requests contract w).
  assert (Hlen := attemptEvents_length contract).
  destruct (fetchOne contract w) as [[fetched|m] w1]; simpl in *; [lia|].
  destruct (_ || _); simpl; [lia|].
  match goal with
  | |- context [retry_loop remaining ?a ?l contract ?w2] =>
      specialize (IH a l w2);
      assert (requests w2 = requests w1) as Hw2
        by (by destruct (_ <? _)%Z)
  end.
  lia.
Qed.

Lemma processBatch_loop_requests rest i n idx results st w :
  requests w
  <= requests (batch_loop rest i n idx results st w).2
  <= requests w + length rest * Z.to_nat (maxRetries options).
Proof.
  revert i results st w.
  induction rest as [|contract rest IH]; intros i results st w;
    cbn [processBatch_loop length]; [simpl; lia|].
  cbv zeta.
  set (w0 := if onProgress then emit (EvProgress contract) w else w).
  assert (Hw0 : requests w0 = requests w) by (unfold w0; by destruct onProgress).
  assert (Hretry := retry_loop_requests (Z.to_nat (maxRetries options)) 0 None
                      contract w0).
  fold (retry contract w0) in Hretry.
  destruct (retry contract w0) as [[fetched|error] w1]; simpl in Hretry.
  - match goal with
    | |- context [batch_loop rest ?a ?b ?c ?d ?e ?w2] =>
        specialize (IH a d e w2);
        assert (requests w2 = requests w1) as Hw2
          by (by destruct (_ <? _)%nat)
    end.
    lia.
  - match goal with
    | |- context [batch_loop rest ?a ?b ?c ?d ?e ?w2] =>
        specialize (IH a d e w2);
        assert (requests w2 = requests w1) as Hw2
          by (by destruct (_ <? _)%nat)
    end.
    lia.
Qed.

(** X12: the budget of requests.  One call of [fetchContractWithRetry]
    sends at most [maxRetries] requests, and [processBatch] at most
    [maxRetries] for each entry of the batch; requests are only ever
    added. *)
Theorem processBatch_request_budget batch idx st w contract :
  requests w
    <= requests
         (fetchContractWithRetry axios_get parseSourceCode JSON JSON_parse
            JSON_field JSON_abiArray now options contract w).2
    <= requests w + Z.to_nat (maxRetries options) /\
  requests w
    <= requests
         (processBatch axios_get parseSourceCode JSON JSON_parse JSON_field
            JSON_abiArray now options onProgress batch idx st w).2
    <= requests w + length batch * Z.to_nat (maxRetries options).
Proof.
  split; [apply retry_loop_requests|apply processBatch_loop_requests].
Qed.

Lemma processBatch_loop_without_retries rest i n idx results st w :
  (maxRetries options <= 0)%Z ->
  exists w' evs,
    batch_loop rest i n idx results st w
    = (results,
       mkProcessingStatus (totalContracts st) (processedContracts st)
         (failedContracts st ++ (ContractEntry.address <$> rest))
         (lastProcessedIndex st) (startedAt st) (lastUpdatedAt st), w') /\
    requests w' = requests w /\
    events w' = events w ++ evs /\
    Forall (fun e => forall g c m, e = EvFailed g c m -> m = "null") evs.
Proof.
  intros Hmax. revert i results st w.
  induction rest as [|contract rest IH]; intros i results st w.
  - exists w, []. simpl. rewrite !app_nil_r. by destruct st.
  - cbn [processBatch_loop]. cbv zeta.
    set (w0 := if onProgress then emit (EvProgress contract) w else w).
    rewrite (fetchContractWithRetry_no_attempt axios_get parseSourceCode JSON
               JSON_parse JSON_field JSON_abiArray now options contract w0 Hmax).
    match goal with
    | |- context [batch_loop rest ?a ?b ?c ?d ?e ?w2] =>
        destruct (IH a d e w2) as (w' & more & -> & Hreq & Hev & Hmore);
        set (w2' := w2) in *
    end.
    assert (requests w2' = requests w /\
            exists evs, events w2' = events w ++ evs /\
              Forall (fun e => forall g c m, e = EvFailed g c m -> m = "null")
                     evs) as (Hreq2 & evs & Hevs & Hall).
    { unfold w2', w0. destruct (_ <? _)%nat, onProgress; simpl;
        (split; [done|]); rewrite <- ?app_assoc; eexists;
        (split; [reflexivity|]);
        repeat constructor; intros g c m [=]; subst; done. }
    exists w', (evs ++ more). split; [|split; [|split]].
    + simpl. by rewrite <- app_assoc.
    + by rewrite Hreq.
    + by rewrite Hev, Hevs, <- app_assoc.
    + by apply Forall_app.
Qed.


Lemma fetchAll_loop_stuck contracts fuel :
  (batchSize options <= 0)%Z ->
  forall i results st w,
  (i < Z.of_nat (length contracts))%Z ->
  run_loop fuel contracts i results st w = None.
Proof.
  intros Hbs. induction fuel as [|fuel IH]; intros i results st w Hi; simpl.
  - by replace (i <? Z.of_nat (length contracts))%Z with true
      by (symmetry; apply Z.ltb_lt; lia).
  - replace (i <? Z.of_nat (length contracts))%Z with true
      by (symmetry; apply Z.ltb_lt; lia).
    destruct (runBatch _ i st w) as [[batchResults st1] w1].
    apply IH. lia.
Qed.

(** X14: with a batch size of zero or below, [fetchAll] never returns
    when there is an entry left to fetch: whatever the number of batches
    allowed, the loop has not ended. *)
Theorem fetchAll_nonpositive_batchSize_never_returns contracts st w fuel :
  (batchSize options <= 0)%Z ->
  (default 0 (resumeFromIndex options) < Z.of_nat (length contracts))%Z ->
  fetchAll axios_get parseSourceCode JSON JSON_parse JSON_field JSON_abiArray
    now options onProgress fuel contracts st w = None.
Proof.
  intros Hbs Hstart. unfold fetchAll. cbv zeta.
  by apply fetchAll_loop_stuck.
Qed.

Lemma processBatch_loop_totalContracts rest i n idx results st w :
  totalContracts (batch_loop rest i n idx results st w).1.2 = totalContracts st.
Proof.
  revert i results st w.
  induction rest as [|contract rest IH]; intros i results st w; [done|].
  cbn [processBatch_loop]. cbv zeta.
  destruct (retry contract _) as [[fetched|error] w1]; by rewrite IH.
Qed.

Lemma fetchAll_loop_saved contracts fuel :
  saveProgress options = true ->
  (0 < batchSize options)%Z ->
  forall i results st w results' st' w',
  (i < Z.of_nat (length contracts))%Z ->
  run_loop fuel contracts i results st w = Some (results', st', w') ->
  savedContracts w' = Some results' /\
  processedContracts st' = Z.of_nat (length results') /\
  lastProcessedIndex st' = (Z.of_nat (length contracts) - 1)%Z /\
  totalContracts st' = totalContracts st /\
  results `prefix_of` results'.
Proof.
  intros Hsave Hbs.
  induction fuel as [|fuel IH]; intros i results st w results' st' w' Hi; simpl.
  - by replace (i <? Z.of_nat (length contracts))%Z with true
      by (symmetry; apply Z.ltb_lt; lia).
  - replace (i <? Z.of_nat (length contracts))%Z with true
      by (symmetry; apply Z.ltb_lt; lia).
    assert (Htotal := processBatch_loop_totalContracts
              (slice contracts i (i + batchSize options)) 0
              (length (slice contracts i (i + batchSize options))) i [] st w).
    fold (runBatch (slice contracts i (i + batchSize options)) i st w) in Htotal.
    destruct (runBatch _ i st w) as [[batchResults st1] w1].
    cbn [fst snd] in Htotal. rewrite Hsave.
    destruct (decide (i + batchSize options < Z.of_nat (length contracts))%Z)
      as [Hmore|Hlast].
    + intros Hrun. apply IH in Hrun as (? & ? & ? & Ht & Hpre); [|lia].
      repeat split; try done.
      * cbn [totalContracts] in Ht. congruence.
      * etrans; [|exact Hpre]. by exists batchResults.
    + replace (i + batchSize options <? Z.of_nat (length contracts))%Z
        with false by (symmetry; apply Z.ltb_ge; lia).
      destruct fuel as [|fuel']; cbn [fetchAll_loop];
        replace (i + batchSize options <? Z.of_nat (length contracts))%Z
          with false by (symmetry; apply Z.ltb_ge; lia);
        intros [= <- <- <-]; cbn;
        (split; [done|]; split; [done|]; split; [lia|]; split; [done|];
         by exists batchResults).
Qed.

(** X15: what [fetchAll] leaves behind when progress is saved, the batch
    size is positive and an entry is left to fetch from a non-negative
    index on.  It returns; the file of fetched contracts then holds
    exactly the contracts returned; the status counts them as processed
    and has the last index of the list as the last one processed; and on a
    resumed run the contracts loaded from the file come first in the
    result. *)
Theorem fetchAll_saves_what_it_returns contracts st w :
  saveProgress options = true ->
  (0 < batchSize options)%Z ->
  (0 <= default 0 (resumeFromIndex options) < Z.of_nat (length contracts))%Z ->
  exists fuel results st' w',
    run fuel contracts st w = Some (results, st', w') /\
    savedContracts w' = Some results /\
    processedContracts st' = Z.of_nat (length results) /\
    lastProcessedIndex st' = (Z.of_nat (length contracts) - 1)%Z /\
    totalContracts st' = Z.of_nat (length contracts) /\
    (if (default 0 (resumeFromIndex options) >? 0)%Z
     then loadPreviousResults w else []) `prefix_of` results.
Proof.
  intros Hsave Hbs [Hstart Hlen]. unfold fetchAll. cbv zeta.
  match goal with
  | |- context [run_loop _ contracts ?i ?r ?s w] =>
      destruct (fetchAll_loop_effect axios_get parseSourceCode JSON JSON_parse
                  JSON_field JSON_abiArray now options onProgress contracts
                  (Z.to_nat (Z.of_nat (length contracts) - i)) Hbs i r s w
                  Hstart (le_n _))
        as (fuel & results & st' & w' & Hrun & _)
  end.
  exists fuel, results, st', w'. split; [exact Hrun|].
  apply fetchAll_loop_saved in Hrun as (? & ? & ? & ? & ?); [|done|done|lia].
  by repeat split.
Qed.

(** X16: an entry that passed the loader's validation is on a supported
    chain: each attempt to fetch it sends exactly one request. *)
Theorem fetchContract_valid_entry_sends_request contract w :
  Loader.isValidContractEntry contract = true ->
  requests (fetchOne contract w).2 = S (requests w).
Proof.
  intros [_ [chainId Hchain]]%isValidContractEntry_true.
  rewrite fetchContract_requests. unfold attemptEvents. rewrite Hchain.
  simpl. lia.
Qed.

End FetcherBudget.

Section SingleFetchProperties.
Import JS Fetcher SingleFetch.
Variable axios_get : nat -> string -> AxiosResult.
Variable parseSourceCode : ContractSourceResponse -> list SourceFile.t.
Variable JSON : Type.
Variable JSON_parse : string -> option JSON.
Variable JSON_field : string -> JSON -> option JSON.
Variable JSON_abiArray : JSON -> option (list ABIItem.t).
Variable now : World -> string.

(** X17: [fetchSingleContract] ends after one batch; it sends at most
    three requests; it returns a contract with the address, blockchain,
    name and protocol asked for, or throws 'Failed to fetch contract'
    whatever the error was; and either way it overwrites the file of
    fetched contracts with its own result, the one contract or none. *)
Theorem fetchSingleContract_overwrites_saved_results fuel address blockchain
    contractName protocol w :
  exists out w',
    fetchSingleContract axios_get parseSourceCode JSON JSON_parse JSON_field
      JSON_abiArray now (S fuel) address blockchain contractName protocol w
    = Some (out, w') /\
    requests w <= requests w' <= requests w + 3 /\
    match out with
    | Return fetched =>
        entryOf fetched
        = ContractEntry.mk address blockchain (default "Unknown" contractName)
            (default "Unknown" protocol) /\
        savedContracts w' = Some [fetched]
    | Throw error =>
        error = Some "Failed to fetch contract" /\ savedContracts w' = Some []
    end.
Proof.
  unfold fetchSingleContract. cbv zeta.
  set (contract := ContractEntry.mk _ _ _ _).
  unfold fetchAll. cbv zeta.
  change (default 0%Z (resumeFromIndex singleOptions)) with 0%Z.
  change (0 >? 0)%Z with false. cbv iota.
  cbn [fetchAll_loop]. cbv zeta.
  change (0 <? Z.of_nat (length [contract]))%Z with true. cbv iota.
  change (slice [contract] 0 (0 + batchSize singleOptions)) with [contract].
  rewrite processBatch_single. cbv zeta.
  assert (Hbudget := retry_loop_requests axios_get parseSourceCode JSON
            JSON_parse JSON_field JSON_abiArray now singleOptions 3 0 None
            contract w).
  destruct (retry_loop_footprint axios_get parseSourceCode JSON JSON_parse
              JSON_field JSON_abiArray now singleOptions 3 0 None contract w)
    as (evs & _ & _ & _ & Hentry).
  change (fetchContractWithRetry_loop axios_get parseSourceCode JSON
            JSON_parse JSON_field JSON_abiArray now singleOptions 3 0 None
            contract w)
    with (fetchContractWithRetry axios_get parseSourceCode JSON JSON_parse
            JSON_field JSON_abiArray now singleOptions contract w)
    in Hbudget, Hentry.
  destruct (fetchContractWithRetry _ _ _ _ _ _ _ _ contract w)
    as [[fetched|error] w1]; cbn [fst snd] in Hbudget, Hentry.
  - eexists (Return fetched), _. split.
    + destruct fuel; reflexivity.
    + split; [exact Hbudget|]. split; [by apply Hentry|reflexivity].
  - eexists (Throw _), _. split.
    + destruct fuel; reflexivity.
    + split; [exact Hbudget|]. split; reflexivity.
Qed.

End SingleFetchProperties.

Section FetcherEdgeScenarios.
Import Fetcher Fetcher.Demo SingleFetch.


Lemma fetchAll_nonpositive_batchSize_never_returns_witness :
  fetchAll explorer noSources unit noJSON noField noAbi clock emptyBatches true
    7 [token; other] (initialStatus "t") initialWorld = None.
Proof.
  apply (fetchAll_nonpositive_batchSize_never_returns explorer noSources unit
           noJSON noField noAbi clock emptyBatches true); simpl; lia.
Defined.

Lemma fetchAll_saves_what_it_returns_witness :
  exists fuel results st' w',
    runWith explorer fuel [token; other; third] (initialStatus "t")
      initialWorld = Some (results, st', w') /\
    savedContracts w' = Some results /\
    processedContracts st' = Z.of_nat (length results) /\
    lastProcessedIndex st' = (Z.of_nat (length [token; other; third]) - 1)%Z /\
    totalContracts st' = Z.of_nat (length [token; other; third]) /\
    [] `prefix_of` results.
Proof.
  apply (fetchAll_saves_what_it_returns explorer noSources unit noJSON noField
           noAbi clock DEFAULT_FETCH_OPTIONS true [token; other; third]
           (initialStatus "t") initialWorld); simpl; [reflexivity|lia|lia].
Defined.

Lemma fetchContract_valid_entry_sends_request_witness :
  requests
    (fetchContract explorer noSources unit noJSON noField noAbi clock token
       initialWorld).2 = 1.
Proof.
  apply (fetchContract_valid_entry_sends_request explorer noSources unit noJSON
           noField noAbi clock token initialWorld). reflexivity.
Defined.

End FetcherEdgeScenarios.


(** ** The code graph: no loops, and the edges of a protocol *)
Section CodeGraphGrowthProperties.
Import JS CodeGraph CodeGraphGrowth.
Variable extractFunctionSignatures : list ABIItem.t -> list string.
Variable extractEventSignatures : list ABIItem.t -> list string.
Variable extractInterfacesFromSource : string -> list string.
Variable extractInheritance : string -> list string.
Variable extractExternalCalls : string -> list string.
Variable extractImports : string -> list string.

Local Abbreviation mkNode :=
  (buildNode extractFunctionSignatures extractEventSignatures
     extractInterfacesFromSource extractInheritance extractExternalCalls
     extractImports).
Local Abbreviation nodeOf :=
  (setNode extractFunctionSignatures extractEventSignatures
     extractInterfacesFromSource extractInheritance extractExternalCalls
     extractImports).
Local Abbreviation edgesFor :=
  (buildEdgesForContract extractInterfacesFromSource extractInheritance
     extractExternalCalls extractImports).
Local Abbreviation add :=
  (addContracts extractFunctionSignatures extractEventSignatures
     extractInterfacesFromSource extractInheritance extractExternalCalls
     extractImports).
Local Abbreviation reached :=
  (after extractFunctionSignatures extractEventSignatures
     extractInterfacesFromSource extractInheritance extractExternalCalls
     extractImports).

Lemma grownFrom_refl c b : grownFrom c b b.
Proof.
  split; [apply sameIndex_refl|]. exists []. by rewrite app_nil_r.
Qed.

Lemma grownFrom_trans c b1 b2 b3 :
  grownFrom c b1 b2 -> grownFrom c b2 b3 -> grownFrom c b1 b3.
Proof.
  intros [(Hn1 & Ha1 & Hm1) (more1 & He1 & Hall1)]
         [(Hn2 & Ha2 & Hm2) (more2 & He2 & Hall2)].
  split; [by repeat split; congruence|].
  exists (more1 ++ more2). split; [by rewrite He2, He1, app_assoc|].
  by apply Forall_app.
Qed.

Lemma grownFrom_pushEdge c b t r m :
  t <> c -> grownFrom c b (pushEdge (ContractEdge.mk c t r m) b).
Proof.
  intros Ht. split; [by repeat split|].
  exists [ContractEdge.mk c t r m]. split; [done|]. by repeat constructor.
Qed.

Lemma grownFrom_addEdge c b t r m : t <> c -> grownFrom c b (addEdge b c t r m).
Proof.
  intros Ht. unfold addEdge. destruct (negb _).
  - by apply grownFrom_pushEdge.
  - apply grownFrom_refl.
Qed.

Lemma grownFrom_fold {A} c (f : Builder -> A -> Builder) (l : list A) b :
  (forall a x, x ∈ l -> grownFrom c a (f a x)) ->
  grownFrom c b (fold_left f l b).
Proof.
  intros Hstep.
  apply (fold_left_preserves (fun a => grownFrom c b a)).
  - apply grownFrom_refl.
  - intros a x Hx Ha. eapply grownFrom_trans; [exact Ha|by apply Hstep].
Qed.

Lemma grownFrom_linkTo c r m b targets : grownFrom c b (linkTo c r m b targets).
Proof.
  unfold linkTo. apply grownFrom_fold. intros a t _.
  destruct (String.eqb_spec t c) as [->|Hne]; simpl.
  - apply grownFrom_refl.
  - by apply grownFrom_addEdge.
Qed.

Lemma foundAddresses_not_self b ca src a :
  a ∈ foundAddresses b ca src -> a <> ca.
Proof.
  unfold foundAddresses.
  apply (fold_left_preserves (fun found => a ∈ found -> a <> ca)).
  - by intros ?%elem_of_nil.
  - intros found literal _ IH.
    destruct (String.eqb_spec (toLowerCase literal) ca) as [Heq|Hne]; simpl;
      [done|].
    destruct (mapHas _ _); [|done].
    intros [->|?]%setAdd_elem_of; [done|auto].
Qed.

Lemma buildSameProtocolEdges_fold b contract :
  buildSameProtocolEdges b contract
  = fold_left (sameProtocolStep contract) (nodes b) b.
Proof. reflexivity. Qed.

Lemma grownFrom_sameProtocolStep contract b entry :
  grownFrom (FetchedContract.key contract) b (sameProtocolStep contract b entry).
Proof.
  destruct entry as [address node]. unfold sameProtocolStep.
  destruct (String.eqb_spec address (FetchedContract.key contract)) as [->|Hne];
    simpl; [apply grownFrom_refl|].
  destruct (String.eqb _ _); [|apply grownFrom_refl].
  destruct (negb _); [by apply grownFrom_pushEdge|apply grownFrom_refl].
Qed.

Lemma grownFrom_buildSameProtocolEdges b contract :
  grownFrom (FetchedContract.key contract) b
    (buildSameProtocolEdges b contract).
Proof.
  rewrite buildSameProtocolEdges_fold. apply grownFrom_fold.
  intros a entry _. apply grownFrom_sameProtocolStep.
Qed.

(** The passes that follow the first one. *)
Lemma grownFrom_after_sameProtocol b contract :
  grownFrom (FetchedContract.key contract)
    (buildSameProtocolEdges b contract) (edgesFor b contract).
Proof.
  unfold buildEdgesForContract. cbv zeta.
  eapply grownFrom_trans; [|].
  2:{ unfold buildAddressReferenceEdges. cbv zeta. apply grownFrom_fold.
      intros a t Ht. apply grownFrom_addEdge.
      by apply foundAddresses_not_self in Ht. }
  eapply grownFrom_trans;
    [|unfold buildInterfaceEdges; cbv zeta; apply grownFrom_fold;
      intros a x _; apply grownFrom_linkTo].
  eapply grownFrom_trans;
    [|unfold buildExternalCallEdges; cbv zeta; apply grownFrom_fold;
      intros a x _; apply grownFrom_linkTo].
  eapply grownFrom_trans;
    [|unfold buildImportEdges; cbv zeta; apply grownFrom_fold;
      intros a x _; destruct (importedContractName x);
      [apply grownFrom_linkTo|apply grownFrom_refl]].
  unfold buildInheritanceEdges; cbv zeta; apply grownFrom_fold.
  intros a x _; apply grownFrom_linkTo.
Qed.

Lemma grownFrom_buildEdgesForContract b contract :
  grownFrom (FetchedContract.key contract) b (edgesFor b contract).
Proof.
  eapply grownFrom_trans; [apply grownFrom_buildSameProtocolEdges|].
  apply grownFrom_after_sameProtocol.
Qed.

Lemma extended_refl b : extended b b.
Proof. split; [done|]. exists []. rewrite app_nil_r. split; [done|constructor]. Qed.

Lemma extended_trans b1 b2 b3 : extended b1 b2 -> extended b2 b3 -> extended b1 b3.
Proof.
  intros [Hn1 (more1 & He1 & Hall1)] [Hn2 (more2 & He2 & Hall2)].
  split; [congruence|].
  exists (more1 ++ more2). split; [by rewrite He2, He1, app_assoc|].
  by apply Forall_app.
Qed.

Lemma grownFrom_extended c b b' : grownFrom c b b' -> extended b b'.
Proof.
  intros [(Hn & _) (more & He & Hall)]. split; [done|].
  exists more. split; [done|]. eapply Forall_impl; [exact Hall|].
  intros e [Hs Ht]. congruence.
Qed.

Lemma hasEdge_extended b b' s t r :
  extended b b' -> hasEdge b s t r = true -> hasEdge b' s t r = true.
Proof.
  intros [_ (more & He & _)]. rewrite !hasEdge_elem_of, He, fmap_app.
  intros H. apply elem_of_app. by left.
Qed.

Lemma extended_buildEdges_fold contracts b :
  extended b (fold_left edgesFor contracts b).
Proof.
  apply (fold_left_preserves (fun a => extended b a)).
  - apply extended_refl.
  - intros a c _ Ha. eapply extended_trans; [exact Ha|].
    eapply grownFrom_extended, grownFrom_buildEdgesForContract.
Qed.

Lemma indexContract_fold_frame contracts b :
  nodes (fold_left indexContract contracts b) = nodes b /\
  edges (fold_left indexContract contracts b) = edges b.
Proof.
  apply (fold_left_preserves
           (fun a => nodes a = nodes b /\ edges a = edges b)); [done|].
  intros a c _ [Hn He]. done.
Qed.

Lemma setNode_fold_edges contracts b :
  edges (fold_left nodeOf contracts b) = edges b.
Proof.
  apply (fold_left_preserves (fun a => edges a = edges b)); [done|].
  intros a c _ He. done.
Qed.

Lemma addContracts_edges b contracts :
  exists more, edges (add b contracts) = edges b ++ more /\ loopFree more.
Proof.
  unfold addContracts. cbv zeta.
  match goal with
  | |- context [fold_left edgesFor contracts ?b2] =>
      destruct (extended_buildEdges_fold contracts b2)
        as [_ (more & He & Hall)]
  end.
  exists more. split; [|done].
  rewrite He, setNode_fold_edges.
  by destruct (indexContract_fold_frame contracts b) as [_ ->].
Qed.

(** X18: no edge of the code graph runs from a contract to itself,
    whatever the contracts added and whatever the extractors find in their
    sources. *)
Theorem code_graph_has_no_loop (calls : list (list FetchedContract.t)) :
  loopFree
    (edges (after extractFunctionSignatures extractEventSignatures
              extractInterfacesFromSource extractInheritance
              extractExternalCalls extractImports calls)).
Proof.
  unfold after.
  enough (H : forall b, loopFree (edges b) ->
                loopFree (edges (fold_left add calls b)))
    by apply (H empty (Forall_nil_2 _)).
  induction calls as [|c calls IH]; intros b Hb; [done|]. simpl.
  apply IH. destruct (addContracts_edges b c) as (more & -> & Hmore).
  by apply Forall_app.
Qed.

Lemma mapSet_self {V} k (v : V) m : (k, v) ∈ mapSet k v m.
Proof.
  induction m as [|[k0 v0] m IH]; simpl; [left|].
  destruct (String.eqb k0 k); [left|by right].
Qed.

Lemma mapSet_other {V} k (v : V) m k' v' :
  (k', v') ∈ m -> k <> k' -> (k', v') ∈ mapSet k v m.
Proof.
  intros Hin Hne. induction m as [|[k0 v0] m IH]; [by apply elem_of_nil in Hin|].
  simpl. destruct (String.eqb_spec k0 k) as [->|Hk0].
  - apply elem_of_cons in Hin as [[= -> ->]|Hin]; [done|by right].
  - apply elem_of_cons in Hin as [[= -> ->]|Hin]; [left|right; auto].
Qed.

Lemma setNode_fold_node contracts b c :
  NoDup (FetchedContract.key <$> contracts) -> c ∈ contracts ->
  (FetchedContract.key c, mkNode c) ∈ nodes (fold_left nodeOf contracts b).
Proof.
  revert b. induction contracts as [|c0 contracts IH]; intros b Hnd Hc;
    [by apply elem_of_nil in Hc|].
  rewrite fmap_cons in Hnd. apply NoDup_cons in Hnd as [Hc0 Hnd].
  simpl. apply elem_of_cons in Hc as [->|Hc]; [|by apply IH].
  apply (fold_left_preserves
           (fun a => (FetchedContract.key c0, mkNode c0) ∈ nodes a)).
  - apply mapSet_self.
  - intros a x Hx Ha. unfold setNode. cbn [nodes].
    apply mapSet_other; [done|]. intros Heq. apply Hc0. rewrite <- Heq.
    by apply list_elem_of_fmap_2.
Qed.

Lemma sameProtocolStep_fold_edge contract l b a n :
  (a, n) ∈ l -> a <> FetchedContract.key contract ->
  ContractNode.protocol n = FetchedContract.protocol contract ->
  hasEdge (fold_left (sameProtocolStep contract) l b)
          (FetchedContract.key contract) a RelationshipType.same_protocol
  = true.
Proof.
  intros Hin Hne Hproto. revert b.
  induction l as [|entry l IH]; intros b; [by apply elem_of_nil in Hin|].
  simpl. apply elem_of_cons in Hin as [<-|Hin]; [|by apply IH].
  eapply hasEdge_extended.
  - eapply grownFrom_extended, grownFrom_fold.
    intros a' entry' _. apply grownFrom_sameProtocolStep.
  - unfold sameProtocolStep.
    destruct (String.eqb_spec a (FetchedContract.key contract)); [done|].
    rewrite Hproto, String.eqb_refl. simpl.
    apply (hasEdge_addEdge b (FetchedContract.key contract) a
             RelationshipType.same_protocol None).
Qed.

Lemma same_protocol_edge b contracts c1 c2 :
  NoDup (FetchedContract.key <$> contracts) ->
  c1 ∈ contracts -> c2 ∈ contracts ->
  FetchedContract.key c1 <> FetchedContract.key c2 ->
  FetchedContract.protocol c1 = FetchedContract.protocol c2 ->
  hasEdge (add b contracts) (FetchedContract.key c1) (FetchedContract.key c2)
          RelationshipType.same_protocol = true.
Proof.
  intros Hnd H1 H2 Hne Hproto. unfold addContracts. cbv zeta.
  set (b2 := fold_left nodeOf contracts (fold_left indexContract contracts b)).
  assert (Hnode : (FetchedContract.key c2, mkNode c2) ∈ nodes b2)
    by (by apply setNode_fold_node).
  apply list_elem_of_split in H1 as (pre & post & ->).
  rewrite fold_left_app. simpl.
  set (b3 := fold_left edgesFor pre b2).
  assert (Hb3 : nodes b3 = nodes b2)
    by (by destruct (extended_buildEdges_fold pre b2) as [Hn _]).
  eapply hasEdge_extended; [apply extended_buildEdges_fold|].
  eapply hasEdge_extended;
    [eapply grownFrom_extended, grownFrom_after_sameProtocol|].
  rewrite buildSameProtocolEdges_fold.
  apply (sameProtocolStep_fold_edge c1 (nodes b3) b3 (FetchedContract.key c2)
           (mkNode c2)); [by rewrite Hb3|congruence|by symmetry].
Qed.

(** X19: two contracts of one protocol that are added in one call, with
    different addresses, are linked by a same_protocol edge in both
    directions (no two contracts of the call sharing an address). *)
Theorem same_protocol_edges_both_ways b contracts c1 c2 :
  NoDup (FetchedContract.key <$> contracts) ->
  c1 ∈ contracts -> c2 ∈ contracts ->
  FetchedContract.key c1 <> FetchedContract.key c2 ->
  FetchedContract.protocol c1 = FetchedContract.protocol c2 ->
  hasEdge (addContracts extractFunctionSignatures extractEventSignatures
             extractInterfacesFromSource extractInheritance
             extractExternalCalls extractImports b contracts)
          (FetchedContract.key c1) (FetchedContract.key c2)
          RelationshipType.same_protocol = true /\
  hasEdge (addContracts extractFunctionSignatures extractEventSignatures
             extractInterfacesFromSource extractInheritance
             extractExternalCalls extractImports b contracts)
          (FetchedContract.key c2) (FetchedContract.key c1)
          RelationshipType.same_protocol = true.
Proof.
  intros Hnd H1 H2 Hne Hproto.
  split; apply same_protocol_edge; done || congruence.
Qed.

End CodeGraphGrowthProperties.

Lemma same_protocol_edges_both_ways_witness :
  CodeGraph.hasEdge
    (CodeGraph.addContracts CodeGraph.Demo.noSignatures
       CodeGraph.Demo.noSignatures CodeGraph.Demo.nothing
       CodeGraph.Demo.nothing CodeGraph.Demo.nothing CodeGraph.Demo.nothing
       CodeGraph.empty
       [CodeGraphGrowth.Demo.pool; CodeGraphGrowth.Demo.router;
        CodeGraphGrowth.Demo.oracle])
    (FetchedContract.key CodeGraphGrowth.Demo.pool)
    (FetchedContract.key CodeGraphGrowth.Demo.oracle)
    RelationshipType.same_protocol = true /\
  CodeGraph.hasEdge
    (CodeGraph.addContracts CodeGraph.Demo.noSignatures
       CodeGraph.Demo.noSignatures CodeGraph.Demo.nothing
       CodeGraph.Demo.nothing CodeGraph.Demo.nothing CodeGraph.Demo.nothing
       CodeGraph.empty
       [CodeGraphGrowth.Demo.pool; CodeGraphGrowth.Demo.router;
        CodeGraphGrowth.Demo.oracle])
    (FetchedContract.key CodeGraphGrowth.Demo.oracle)
    (FetchedContract.key CodeGraphGrowth.Demo.pool)
    RelationshipType.same_protocol = true.
Proof.
  apply same_protocol_edges_both_ways.
  - vm_compute. repeat constructor; intros H;
      repeat (apply elem_of_cons in H as [H|H]; [discriminate|]);
      by apply elem_of_nil in H.
  - repeat constructor.
  - repeat constructor.
  - discriminate.
  - reflexivity.
Defined.

(** ** The communication graph: counts of nodes and of patterns *)
Section CommGraphCountsProperties.
Import JS CommGraph CommGraphCounts.

Lemma sum_list_indicator {K} `{EqDecision K} (x : K) (ks : list K) :
  NoDup ks -> x ∈ ks ->
  sum_list ((fun k => if decide (x = k) then 1 else 0) <$> ks) = 1.
Proof.
  induction 1 as [|k ks Hk Hnd IH]; intros Hx; [by apply elem_of_nil in Hx|].
  rewrite fmap_cons. cbn [sum_list_with id].
  destruct (decide (x = k)) as [->|Hne].
  - clear IH Hx. replace (sum_list _) with 0; [done|].
    symmetry. induction ks as [|k' ks IH]; [done|].
    apply not_elem_of_cons in Hk as [Hne Hk]. apply NoDup_cons in Hnd as [_ Hnd].
    rewrite fmap_cons. cbn [sum_list_with id].
    rewrite decide_False by done. by rewrite IH.
  - apply elem_of_cons in Hx as [->|Hx]; [done|]. by rewrite IH.
Qed.

Lemma sum_list_zero {K} (ks : list K) :
  sum_list ((fun _ => 0) <$> ks) = 0.
Proof. induction ks as [|k ks IH]; [done|]. by rewrite fmap_cons. Qed.

Lemma sum_list_plus {K} (f g : K -> nat) (ks : list K) :
  sum_list ((fun k => f k + g k) <$> ks)
  = sum_list (f <$> ks) + sum_list (g <$> ks).
Proof.
  induction ks as [|k ks IH]; [done|].
  rewrite !fmap_cons. cbn [sum_list_with id]. rewrite IH. lia.
Qed.

(** Counting a list by a key: the keys of [ks] share out the elements whose
    key is among them. *)
Lemma length_by_key {A K} `{EqDecision K} (f : A -> K) (ks : list K)
    (es : list A) :
  NoDup ks -> Forall (fun e => f e ∈ ks) es ->
  sum_list ((fun k => length (filter (fun e => f e = k) es)) <$> ks)
  = length es.
Proof.
  intros Hnd. induction 1 as [|e es He Hall IH].
  - apply sum_list_zero.
  - transitivity
      (sum_list ((fun k => (if decide (f e = k) then 1 else 0)
                           + length (filter (fun e0 => f e0 = k) es)) <$> ks)).
    + f_equal. apply list_fmap_ext. intros _ k _.
      rewrite filter_cons. by destruct (decide (f e = k)).
    + by rewrite sum_list_plus, IH, sum_list_indicator.
Qed.

Lemma withCounts_countsOf es node : countsOf es (withCounts es node).
Proof. repeat split. Qed.

Lemma counted_addContracts b contracts : counted (addContracts b contracts).
Proof.
  unfold addContracts, counted, updateCommunicationCounts. cbv zeta.
  cbn [nodes edges]. apply Forall_fmap, Forall_true.
  intros [k node]. apply withCounts_countsOf.
Qed.

Lemma counted_after calls : counted (after calls).
Proof.
  unfold after. destruct calls as [|c calls] using rev_ind; [constructor|].
  rewrite fold_left_app. apply counted_addContracts.
Qed.

Lemma sum_list_fmap_ext_in {A} (f g : A -> nat) (l : list A) :
  Forall (fun x => f x = g x) l -> sum_list (f <$> l) = sum_list (g <$> l).
Proof.
  induction 1 as [|x l Hx _ IH]; [done|].
  rewrite !fmap_cons. cbn [sum_list_with id]. by rewrite Hx, IH.
Qed.

(** The sum, over the nodes of a well-formed and counted builder, of the
    number of edges that an end [side] of the edge attaches to the node. *)
Lemma sum_by_side added b (side : CommunicationEdge.t -> string) :
  wellFormed added b ->
  (forall e, e ∈ edges b -> side e ∈ FetchedContract.key <$> added) ->
  sum_list ((fun n => length (filter (fun e => side e = CommunicationNode.key n)
                                     (edges b))) <$> (nodes b).*2)
  = length (edges b).
Proof.
  intros (Hnd & Hkey & Hdom & _ & _) Hside.
  rewrite <- (length_by_key side (nodes b).*1 (edges b) Hnd).
  - rewrite <- !list_fmap_compose. apply sum_list_fmap_ext_in.
    apply Forall_forall. intros [k n] Hin. simpl.
    by rewrite (Hkey k n Hin).
  - apply Forall_forall. intros e He. apply Hdom. by apply Hside.
Qed.

(** X20: in the communication graph built after any calls of addContracts,
    the outbound counts of the nodes add up to the number of edges, and so
    do the inbound counts; the communication count of each node is the sum
    of its two counts, so that these add up to twice the number of edges. *)
Theorem communication_counts_add_up (calls : list (list FetchedContract.t))
    (now : string) :
  let g := build (after calls) now in
  sum_list (CommunicationNode.outboundCount <$> graph_nodes g)
  = totalCommunications g /\
  sum_list (CommunicationNode.inboundCount <$> graph_nodes g)
  = totalCommunications g /\
  sum_list (CommunicationNode.communicationCount <$> graph_nodes g)
  = 2 * totalCommunications g /\
  Forall (fun n => CommunicationNode.communicationCount n
                   = CommunicationNode.outboundCount n
                     + CommunicationNode.inboundCount n) (graph_nodes g).
Proof.
  cbv zeta. cbn [graph_nodes totalCommunications build].
  pose proof (comm_reached_wellFormed calls) as Hwf.
  pose proof (counted_after calls) as Hcounted.
  assert (Hnodes : Forall (countsOf (edges (after calls)))
                          (nodes (after calls)).*2)
    by (by apply Forall_fmap).
  assert (Hout : sum_list (CommunicationNode.outboundCount
                           <$> (nodes (after calls)).*2)
                 = length (edges (after calls))).
  { rewrite <- (sum_by_side _ _ CommunicationEdge.source Hwf).
    - apply sum_list_fmap_ext_in. eapply Forall_impl; [exact Hnodes|].
      by intros n (-> & _ & _).
    - intros e He. destruct Hwf as (_ & _ & _ & [_ Hends] & _).
      by apply Hends. }
  assert (Hin : sum_list (CommunicationNode.inboundCount
                          <$> (nodes (after calls)).*2)
                = length (edges (after calls))).
  { rewrite <- (sum_by_side _ _ CommunicationEdge.target Hwf).
    - apply sum_list_fmap_ext_in. eapply Forall_impl; [exact Hnodes|].
      by intros n (_ & -> & _).
    - intros e He. destruct Hwf as (_ & _ & _ & [_ Hends] & _).
      by apply Hends. }
  split; [done|]. split; [done|]. split.
  - rewrite (sum_list_fmap_ext_in _
               (fun n => CommunicationNode.outboundCount n
                         + CommunicationNode.inboundCount n)).
    + rewrite sum_list_plus, Hout, Hin. lia.
    + eapply Forall_impl; [exact Hnodes|]. by intros n (_ & _ & ->).
  - eapply Forall_impl; [exact Hnodes|]. by intros n (_ & _ & ->).
Qed.

Lemma allPatterns_complete (p : Pattern.t) : p ∈ allPatterns.
Proof. destruct p; unfold allPatterns; set_solver. Qed.

Lemma allPatterns_NoDup : NoDup allPatterns.
Proof. apply (bool_decide_unpack _). by vm_compute. Qed.

(** X21: the pattern table of a built communication graph has one entry for
    each of the thirteen patterns, and its counts add up to the number of
    edges: every edge is counted under exactly one pattern. *)
Theorem build_patterns_count_every_edge (b : Builder) (now : string) :
  (graph_patterns (build b now)).*1 = allPatterns /\
  sum_list (graph_patterns (build b now)).*2
  = totalCommunications (build b now) /\
  Forall (fun entry =>
            entry.2 = length (filter (fun e => CommunicationEdge.pattern e
                                               = entry.1)
                                     (graph_edges (build b now))))
         (graph_patterns (build b now)).
Proof.
  cbn [graph_patterns totalCommunications graph_edges build].
  split; [|split].
  - rewrite <- list_fmap_compose. apply list_fmap_id.
  - rewrite <- list_fmap_compose.
    rewrite <- (length_by_key CommunicationEdge.pattern allPatterns (edges b)
                  allPatterns_NoDup).
    + apply sum_list_fmap_ext_in, Forall_forall. intros p _. simpl.
      f_equal.
    + apply Forall_forall. intros e _. apply allPatterns_complete.
  - apply Forall_fmap, Forall_true. by intros p.
Qed.

End CommGraphCountsProperties.
